(** * flip_simulation: a shallow embedding of the fault-injection harness

    The development follows the Python sources under [gdb/]:
    [qemu_utils.py] (memory-tree model, injection primitives, time parser),
    [fliputils.py] (command handlers), [parser.py] (argument parsing) and
    [logger.py] (the injection log), and [find_phys_ranges.py] (the
    physical ranges of a process).

    Python integers are unbounded, so they are [Z]; Python [str] values are
    [string] (one [ascii] per character, so the model covers the 8-bit
    range); dictionaries are [gmap]; exceptions are an explicit result
    type. *)

From Stdlib Require Import ZArith Lia List String Ascii.
From stdpp Require Import base option list gmap strings sorting.

Local Open Scope string_scope.
Local Open Scope list_scope.
Local Open Scope Z_scope.

(** ** Exceptions and results *)

(** The Python exception classes the modelled code raises or meets.
    [OutOfFuel] is not one of them: it marks a loop of the model that was
    given too little fuel, and is shown below never to occur. *)
Inductive exn : Type :=
  | ValueError
  | AssertionError
  | RuntimeError
  | KeyError
  | OverflowError
  | AttributeError
  | NameError
  | TypeError
  | SystemExit
  | MemoryError
  | OSError
  | OutOfFuel.

(** The result of running a piece of Python: a value or a raised exception. *)
Inductive outcome (A : Type) : Type :=
  | Ret (a : A)
  | Raise (e : exn).
Arguments Ret {A} a.
Arguments Raise {A} e.

#[global] Instance outcome_ret : MRet outcome := fun _ a => Ret a.
#[global] Instance outcome_bind : MBind outcome := fun _ _ f m =>
  match m with
  | Ret a => f a
  | Raise e => Raise e
  end.

(** [random.randint(a, b)]: raises [ValueError] on an empty range; otherwise
    the entropy [draw] consumed by the call selects a value of [[a, b]], and
    every value of the range is selected by some entropy. *)
Definition randint (a b : Z) (draw : Z) : outcome Z :=
  if b <? a then Raise ValueError else Ret (a + draw mod (b - a + 1)).

(** ** Python strings

    The string methods and the [int] constructor the sources call, on the
    character list of a [string]. A character is its code point, so the
    whitespace class is the part of [str.isspace] below 256. *)

Definition chars (s : string) : list ascii := list_ascii_of_string s.
Definition of_chars (cs : list ascii) : string := string_of_list_ascii cs.

Definition code (c : ascii) : Z := Z.of_N (N_of_ascii c).

Definition isspace (c : ascii) : bool :=
  let n := code c in
  ((9 <=? n) && (n <=? 13)) || ((28 <=? n) && (n <=? 32))
  || (n =? 133) || (n =? 160).

Definition isdigit (c : ascii) : bool :=
  let n := code c in (48 <=? n) && (n <=? 57).

(** [s.endswith(u)] and [s.startswith(u)] *)
Definition endswith (s u : string) : bool :=
  bool_decide (chars u `suffix_of` chars s).
Definition startswith (s u : string) : bool :=
  bool_decide (chars u `prefix_of` chars s).

(** [s[:-k]] for [k = len(unit)]: Python reads the bound [-0] as [0], so the
    slice is empty when [k = 0]; otherwise it drops the last [k] characters. *)
Definition slice_until_neg (s : string) (k : nat) : string :=
  match k with
  | O => ""
  | _ => of_chars (take (length (chars s) - k) (chars s))
  end.

Fixpoint dropwhile {A} (p : A -> bool) (l : list A) : list A :=
  match l with
  | [] => []
  | x :: l' => if p x then dropwhile p l' else l
  end.

Definition lstrip_chars (cs : list ascii) : list ascii := dropwhile isspace cs.
Definition rstrip_chars (cs : list ascii) : list ascii :=
  rev (dropwhile isspace (rev cs)).
Definition strip_chars (cs : list ascii) : list ascii :=
  rstrip_chars (lstrip_chars cs).

Definition strip (s : string) : string := of_chars (strip_chars (chars s)).
Definition rstrip (s : string) : string := of_chars (rstrip_chars (chars s)).

(** The value of a digit character in bases up to 36. *)
Definition digit_value (c : ascii) : option Z :=
  let n := code c in
  if (48 <=? n) && (n <=? 57) then Some (n - 48)
  else if (97 <=? n) && (n <=? 122) then Some (n - 97 + 10)
  else if (65 <=? n) && (n <=? 90) then Some (n - 65 + 10)
  else None.

Definition digit_in (base : Z) (c : ascii) : option Z :=
  match digit_value c with
  | Some d => if d <? base then Some d else None
  | None => None
  end.

(** Digits after a first digit: each further digit may be preceded by one
    underscore. *)
Fixpoint int_digits (base : Z) (cs : list ascii) (acc : Z) : option Z :=
  match cs with
  | [] => Some acc
  | c :: rest =>
      if Ascii.eqb c "_" then
        match rest with
        | d :: rest' =>
            match digit_in base d with
            | Some v => int_digits base rest' (acc * base + v)
            | None => None
            end
        | [] => None
        end
      else
        match digit_in base c with
        | Some v => int_digits base rest (acc * base + v)
        | None => None
        end
  end.

Definition int_magnitude (base : Z) (cs : list ascii) : option Z :=
  match cs with
  | c :: rest =>
      match digit_in base c with
      | Some v => int_digits base rest v
      | None => None
      end
  | [] => None
  end.

(** The base-16 literal may start with [0x] or [0X], then one underscore. *)
Definition skip_base_prefix (base : Z) (cs : list ascii) : list ascii :=
  if base =? 16 then
    match cs with
    | z :: x :: rest =>
        if Ascii.eqb z "0" && (Ascii.eqb x "x" || Ascii.eqb x "X") then
          match rest with
          | u :: rest' => if Ascii.eqb u "_" then rest' else rest
          | [] => rest
          end
        else cs
    | _ => cs
    end
  else cs.

(** The whitespace that [int] passes over around a literal. It is narrower
    than [str.isspace]: the separators U+001C to U+001F, which [strip] and
    [\s] take for whitespace, make [int] raise. *)
Definition int_space (c : ascii) : bool :=
  let n := code c in
  ((9 <=? n) && (n <=? 13)) || (n =? 32) || (n =? 133) || (n =? 160).

Definition int_strip_chars (cs : list ascii) : list ascii :=
  rev (dropwhile int_space (rev (dropwhile int_space cs))).

(** [int(s, base)] for [base] 10 or 16: surrounding whitespace, an optional
    sign, the optional base prefix, then digits; anything else is a
    [ValueError]. The interpreter's limit on the length of a decimal
    literal ([sys.set_int_max_str_digits], 4300 digits unless configured
    otherwise, and absent from interpreters before 3.11) is not part of the
    model. *)
Definition py_int (base : Z) (s : string) : outcome Z :=
  let cs := int_strip_chars (chars s) in
  let '(sign, body) :=
    match cs with
    | c :: rest =>
        if Ascii.eqb c "-" then (-1, rest)
        else if Ascii.eqb c "+" then (1, rest)
        else (1, cs)
    | [] => (1, cs)
    end in
  match int_magnitude base (skip_base_prefix base body) with
  | Some v => Ret (sign * v)
  | None => Raise ValueError
  end.

(** ** Time parser ([qemu_utils.parse_time]) *)

(** The [time_units] dictionary, in source order. *)
Definition time_units : list (string * Z) :=
  [ ("", 1);
    ("ns", 1);
    ("us", 1000);
    ("ms", 1000 * 1000);
    ("s", 1000 * 1000 * 1000);
    ("m", 60 * 1000 * 1000 * 1000) ].

(** [sorted(d.items())] on string keys: insertion sort by the key's
    lexicographic order. *)
Fixpoint sorted_insert {V} (kv : string * V) (l : list (string * V)) : list (string * V) :=
  match l with
  | [] => [kv]
  | kv' :: l' =>
      if String.leb kv.1 kv'.1 then kv :: l else kv' :: sorted_insert kv l'
  end.

Definition sorted_items {V} (items : list (string * V)) : list (string * V) :=
  foldr sorted_insert [] items.

(** The [for unit, mul in sorted(...)] loop. [except ValueError: continue]
    moves to the next unit; the later [raise] leaves the function. *)
Fixpoint parse_time_loop (units : list (string * Z)) (s : string) : outcome Z :=
  match units with
  | [] => Raise ValueError
  | (unit, mul) :: rest =>
      if endswith s unit then
        match py_int 10 (slice_until_neg s (length (chars unit))) with
        | Raise ValueError => parse_time_loop rest s
        | Raise e => Raise e
        | Ret res => if res <=? 0 then Raise ValueError else Ret (res * mul)
        end
      else parse_time_loop rest s
  end.

Definition parse_time (s : string) : outcome Z :=
  parse_time_loop (sorted_items time_units) s.

(** ** The debugger session

    What the handlers reach through the [gdb] module and the [random]
    module is a [World]: guest memory, the register file of the selected
    frame, the text the monitor answers to [info mtree -f], the host files
    a command opens, the entropy the [random] module will consume, the
    ordered record of what the session printed, logged and sent to the
    monitor, and the reactions of the emulator to the commands to come
    that run the guest or replace its state: each takes the command and the
    guest's state to the state the command leaves. *)

(** A snapshot name: the fresh [uuid.uuid4()] of the command (a [UUID]
    object, told by the entropy it was drawn from) or the user's tag (a
    string). The two are never equal under Python's [==]. *)
Inductive snapshot_name : Type :=
  | TmpName (uuid : Z)
  | Tag (tag : string).

(** Monitor commands sent through [qemu_hmp]. *)
Inductive hmp : Type :=
  | InfoMtree
  | Savevm (name : snapshot_name)
  | Loadvm (name : snapshot_name)
  | Delvm (name : snapshot_name)
  | Cont
  | StopDelayed (ns : Z).

(** The target of an injection record: [hex(address)] or a register name. *)
Inductive target : Type :=
  | Address (a : Z)
  | RegisterName (r : string).

(** A printed line is recorded by the text of its format string. *)
Inductive event : Type :=
  | Printed (text : string)
  | Logged (t : target) (old_value new_value : Z)
  | Monitor (cmd : hmp)
  | Serial (text : string).

(** A register of the selected frame: [str(value.type)], [value.type.sizeof],
    its 64-bit words (one for a scalar, two for [union aarch64v]), what a
    [set] of one word leaves in it, given the word's present contents and
    the value written, and the registers that share its storage: after a
    [set] of this register each of them holds the words that its function
    gives from the words now in this register and its own (on AArch64 [d0]
    and [q0] are such views of [v0]). *)
Record Register : Type := mkRegister {
  type_name : string;
  sizeof : Z;
  words : list Z;
  on_set : Z -> Z -> Z;
  aliases : list (string * (list Z -> list Z -> list Z))
}.

(** A file that the host can open, as text mode reads it: the text that its
    bytes decode to under the host's encoding, and whether decoding fails
    on the way, [text] then being what had been decoded when it did. *)
Record TextFile : Type := mkTextFile {
  text : string;
  undecodable : bool
}.

(** The guest as the debugger sees it: its memory and its register file. *)
Definition guest_state : Type := gmap Z Byte.byte * list (string * Register).

Record World : Type := mkWorld {
  memory : gmap Z Byte.byte;
  registers : list (string * Register);
  cached_reg_list : option (list (string * Z));
  mtree_output : string;
  files : gmap string TextFile;
  entropy : list Z;
  events : list event;
  guest : list (hmp -> guest_state -> guest_state)
}.

(** A computation in the session: it ends in a value or an exception, and
    its effects on the world stay in either case. *)
Record M (A : Type) : Type := mkM { run : World -> outcome A * World }.
Arguments mkM {A} run.
Arguments run {A} m w.

#[global] Instance M_ret : MRet M := fun _ a => mkM (fun w => (Ret a, w)).
#[global] Instance M_bind : MBind M := fun _ _ f m =>
  mkM (fun w =>
    match run m w with
    | (Ret a, w') => run (f a) w'
    | (Raise e, w') => (Raise e, w')
    end).

Definition raise {A} (e : exn) : M A := mkM (fun w => (Raise e, w)).
Definition lift {A} (o : outcome A) : M A := mkM (fun w => (o, w)).
Definition get_world : M World := mkM (fun w => (Ret w, w)).
Definition put_world (w : World) : M unit := mkM (fun _ => (Ret tt, w)).

(** [try: body except <classes>: handler] *)
Definition try_except {A} (body : M A) (caught : exn -> bool) (handler : exn -> M A) : M A :=
  mkM (fun w =>
    match run body w with
    | (Raise e, w') => if caught e then run (handler e) w' else (Raise e, w')
    | r => r
    end).

(** [except Exception] catches every class of the model but [SystemExit]. *)
Definition is_Exception (e : exn) : bool :=
  match e with SystemExit => false | _ => true end.

Definition emit (ev : event) : M unit :=
  mkM (fun w => (Ret tt,
    mkWorld (memory w) (registers w) (cached_reg_list w) (mtree_output w)
            (files w) (entropy w) (events w ++ [ev]) (guest w))).

Definition print (text : string) : M unit := emit (Printed text).

(** [logger.log_single]: one record, to the CSV sink or to the terminal. *)
Definition log_single (t : target) (old_value new_value : Z) : M unit :=
  emit (Logged t old_value new_value).

Definition py_assert (cond : bool) : M unit :=
  if cond then mret tt else raise AssertionError.

(** [random.randint(a, b)] consumes the next entropy value. *)
Definition random_randint (a b : Z) : M Z :=
  mkM (fun w =>
    let d := hd 0 (entropy w) in
    (randint a b d,
     mkWorld (memory w) (registers w) (cached_reg_list w) (mtree_output w)
             (files w) (tl (entropy w)) (events w) (guest w))).

(** The commands that change the guest's state: the guest runs from
    [cont] until the stop takes effect, and what the run did to it is there
    when [stop_delayed] has returned; [loadvm] puts the state of a snapshot
    in its place. *)
Definition changes_guest (cmd : hmp) : bool :=
  match cmd with
  | StopDelayed _ | Loadvm _ => true
  | _ => false
  end.

(** What such a command leaves of the guest is the emulator's business:
    the session's next reaction gives it. A session with no reaction left
    has a guest that stays as it is. *)
Definition monitor_effect (cmd : hmp) : M unit :=
  mkM (fun w => (Ret tt,
    if changes_guest cmd then
      match guest w with
      | react :: rest =>
          mkWorld (react cmd (memory w, registers w)).1
                  (react cmd (memory w, registers w)).2
                  (cached_reg_list w) (mtree_output w) (files w)
                  (entropy w) (events w) rest
      | [] => w
      end
    else w)).

(** [qemu_hmp(cmdstr)]: the command goes to the monitor and has its effect
    on the guest; the answer to [info mtree -f] is the session's memory-tree
    text, the other commands answer nothing. *)
Definition qemu_hmp (cmd : hmp) : M string :=
  emit (Monitor cmd);;
  monitor_effect cmd;;
  w ← get_world;
  mret (match cmd with InfoMtree => strip (mtree_output w) | _ => "" end).

(** [step_ns(ns)] *)
Definition step_ns (ns : Z) : M unit :=
  qemu_hmp Cont;;
  qemu_hmp (StopDelayed ns);;
  mret tt.

(** ** Memory-tree model ([qemu_utils.py]) *)

(** *** The regular expressions of the module

    The two patterns of [qemu_utils.py] are sequences of single characters
    and of greedy repetitions of one character class, some of them
    captured. [re.match] anchors at the start, accepts any prefix match and
    backtracks a greedy repetition from its longest extent down. *)
Inductive item : Type :=
  | One (p : ascii -> bool)
  | Star (p : ascii -> bool)
  | Plus (p : ascii -> bool)
  | Group (p : ascii -> bool).

(** The repetition has taken [taken] (newest first) and stands before [cs]:
    it first tries to take one more character, and hands over to the rest of
    the pattern [k] where that fails. *)
Fixpoint greedy {R} (p : ascii -> bool) (k : list ascii -> list ascii -> option R)
    (taken cs : list ascii) : option R :=
  match cs with
  | c :: cs' =>
      if p c then
        match greedy p k (c :: taken) cs' with
        | Some r => Some r
        | None => k taken cs
        end
      else k taken cs
  | [] => k taken cs
  end.

Definition greedy1 {R} (p : ascii -> bool) (k : list ascii -> list ascii -> option R)
    (cs : list ascii) : option R :=
  match cs with
  | c :: cs' => if p c then greedy p k [c] cs' else None
  | [] => None
  end.

(** [re_match r cs caps]: the groups of the match (first group first), the
    groups captured so far being [caps] (newest first). *)
Fixpoint re_match (r : list item) (cs : list ascii) (caps : list (list ascii))
    : option (list (list ascii)) :=
  match r with
  | [] => Some (rev caps)
  | One p :: r' =>
      match cs with
      | c :: cs' => if p c then re_match r' cs' caps else None
      | [] => None
      end
  | Star p :: r' => greedy p (fun _ rest => re_match r' rest caps) [] cs
  | Plus p :: r' => greedy1 p (fun _ rest => re_match r' rest caps) cs
  | Group p :: r' => greedy1 p (fun taken rest => re_match r' rest (rev taken :: caps)) cs
  end.

Definition lit (c : ascii) : item := One (Ascii.eqb c).
Definition ishex (c : ascii) : bool :=
  let n := code c in
  ((48 <=? n) && (n <=? 57)) || ((97 <=? n) && (n <=? 102)) || ((65 <=? n) && (n <=? 70)).
Definition not_rparen (c : ascii) : bool := negb (Ascii.eqb c ")").
Definition nonspace (c : ascii) : bool := negb (isspace c).

(** [^\s*([0-9a-fA-F]+)-([0-9a-fA-F]+)\s+\(prio\s+(\d+),\s+([^)]+)\):\s+(\S+)] *)
Definition range_line_pattern : list item :=
  [ Star isspace; Group ishex; lit "-"; Group ishex; Plus isspace;
    lit "("; lit "p"; lit "r"; lit "i"; lit "o"; Plus isspace;
    Group isdigit; lit ","; Plus isspace; Group not_rparen;
    lit ")"; lit ":"; Plus isspace; Group nonspace ].

Module MemoryRange.
Record t : Type := mk {
  start : Z;
  end_ : Z;
  priority : Z;
  kind : string;
  name : string
}.

(** [MemoryRange.parse(line)]: no match is a [ValueError]; so is a failing
    conversion of a captured number. *)
Definition parse (line : string) : outcome t :=
  match re_match range_line_pattern (chars (strip line)) [] with
  | Some [g1; g2; g3; g4; g5] =>
      match py_int 16 (of_chars g1), py_int 16 (of_chars g2), py_int 10 (of_chars g3) with
      | Ret s, Ret e, Ret prio =>
          Ret (mk s e prio (strip (of_chars g4)) (of_chars g5))
      | _, _, _ => Raise ValueError
      end
  | _ => Raise ValueError
  end.
End MemoryRange.

Module FlatView.
Record t : Type := mk { ranges : list MemoryRange.t }.

(** [FlatView.parse(lines)]: a line that does not parse is reported and
    skipped. *)
Fixpoint parse_lines (lines : list string) (acc : list MemoryRange.t)
    : M (list MemoryRange.t) :=
  match lines with
  | [] => mret acc
  | line :: rest =>
      match MemoryRange.parse line with
      | Ret r => parse_lines rest (acc ++ [r])
      | Raise ValueError =>
          print "Warning: Skipping invalid memory range line: {e}";;
          parse_lines rest acc
      | Raise e => raise e
      end
  end.

Definition parse (lines : list string) : M t :=
  rs ← parse_lines lines [];
  mret (mk rs).

(** [[(r.start, r.end) for r in self.ranges if r.kind == "ram"]] *)
Definition ram_ranges (self : t) : list (Z * Z) :=
  map (fun r => (MemoryRange.start r, MemoryRange.end_ r))
      (filter (fun r => MemoryRange.kind r = "ram") (ranges self)).

(** [sum(lens)] with [lens = [(end - start) for start, end in ranges]] *)
Definition sum_lens (rs : list (Z * Z)) : Z :=
  foldr Z.add 0 (map (fun '(start, end_) => end_ - start) rs).

(** The [for start, end in ranges] loop of [random_address]; falling off
    the loop reaches [assert False]. *)
Fixpoint random_address_loop (rs : list (Z * Z)) (offset : Z) : outcome Z :=
  match rs with
  | [] => Raise AssertionError
  | (start, end_) :: rest =>
      let offset := offset + start in
      if offset <? end_ then Ret offset
      else random_address_loop rest (offset - end_)
  end.

Definition random_address (self : t) (draw : Z) : outcome Z :=
  let rs := ram_ranges self in
  offset ← randint 0 (sum_lens rs - 1) draw;
  random_address_loop rs offset.

(** The reference algorithm in the specification's words:
    [for (s,e) in ranges: if offset < e-s: return s + offset; offset -= e-s]
    run on an offset already drawn from [[0, L)]. *)
Fixpoint reference_walk (rs : list (Z * Z)) (offset : Z) : outcome Z :=
  match rs with
  | [] => Raise AssertionError
  | (s, e) :: rest =>
      if offset <? e - s then Ret (s + offset)
      else reference_walk rest (offset - (e - s))
  end.
End FlatView.

(** Modelled from the spec: the RAM ranges of a view, its "ram-kinded
    ranges", are the ranges whose kind is the string ["ram"], in the order
    of the view. *)
Definition ram_kinded (fv : FlatView.t) : list MemoryRange.t :=
  filter (fun r => MemoryRange.kind r = "ram") (FlatView.ranges fv).

(** The [(start, end)] pairs of a list of ranges. *)
Definition bounds (rs : list MemoryRange.t) : list (Z * Z) :=
  (fun r => (MemoryRange.start r, MemoryRange.end_ r)) <$> rs.

(** *** The memory-tree parser *)

Definition dquote : ascii := "034"%char.
Definition newline : ascii := "010"%char.

(** [s.split(sep)] for a one-character separator. *)
Fixpoint split_chars (sep : ascii) (cs : list ascii) : list (list ascii) :=
  match cs with
  | [] => [[]]
  | c :: cs' =>
      let r := split_chars sep cs' in
      if Ascii.eqb c sep then [] :: r
      else match r with
           | x :: xs => (c :: x) :: xs
           | [] => [[c]]
           end
  end.

Definition split (s : string) (sep : ascii) : list string :=
  of_chars <$> split_chars sep (chars s).

(** [s.count(c)] *)
Definition count (s : string) (c : ascii) : nat :=
  length (filter (fun x => x = c) (chars s)).

(** [" AS "] followed by a double quote. *)
Definition as_prefix : string := of_chars (chars " AS " ++ [dquote]).

Definition _extract_address_space_name (line : string) : outcome string :=
  if bool_decide (count line dquote = 2%nat)
  then Ret (nth 1 (split line dquote) "")
  else Raise ValueError.

Definition _is_memory_range_line (line : string) : bool :=
  bool_decide (is_Some (re_match range_line_pattern (chars line) [])).

(** A position [i] in [lines] is carried as the remaining lines
    [lines[i:]]. The header loop of [_parse_flatview_section] is left by
    [break] or by running out of lines ([HeaderDone]), or by the [return]
    at the next section ([HeaderReturn]). *)
Inductive header_exit : Type :=
  | HeaderDone (rest : list string)
  | HeaderReturn (rest : list string).

Fixpoint header_loop (rest : list string) (address_spaces : list string)
    (views : gmap string (list string))
    : outcome (header_exit * list string * gmap string (list string)) :=
  match rest with
  | [] => Ret (HeaderDone [], address_spaces, views)
  | l :: rest' =>
      let line := rstrip l in
      if startswith line as_prefix then
        as_name ← _extract_address_space_name line;
        header_loop rest' (address_spaces ++ [as_name]) (<[as_name := []]> views)
      else if startswith line " Root " then
        Ret (HeaderDone rest', address_spaces, views)
      else if startswith line "FlatView #" then
        Ret (HeaderReturn rest, address_spaces, views)
      else header_loop rest' address_spaces views
  end.

(** [for as_name in address_spaces: del views[as_name]] *)
Fixpoint delete_all (address_spaces : list string) (views : gmap string (list string))
    : outcome (gmap string (list string)) :=
  match address_spaces with
  | [] => Ret views
  | as_name :: rest =>
      match views !! as_name with
      | Some _ => delete_all rest (delete as_name views)
      | None => Raise KeyError
      end
  end.

(** [for as_name in address_spaces: views[as_name].append(line)] *)
Fixpoint append_all (address_spaces : list string) (line : string)
    (views : gmap string (list string)) : outcome (gmap string (list string)) :=
  match address_spaces with
  | [] => Ret views
  | as_name :: rest =>
      match views !! as_name with
      | Some body => append_all rest line (<[as_name := body ++ [line]]> views)
      | None => Raise KeyError
      end
  end.

(** [line and not line.isspace()] *)
Definition visible (line : string) : bool :=
  negb (bool_decide (line = "")) && negb (forallb isspace (chars line)).

Fixpoint range_loop (rest : list string) (address_spaces : list string)
    (views : gmap string (list string))
    : M (list string * gmap string (list string)) :=
  match rest with
  | [] => mret ([], views)
  | l :: rest' =>
      let line := rstrip l in
      if startswith line "  " && _is_memory_range_line line then
        views' ← lift (append_all address_spaces line views);
        range_loop rest' address_spaces views'
      else if startswith line "FlatView #" || bool_decide (line = "") then
        mret (rest, views)
      else
        (if visible line
         then print "Warning: Unexpected line in memory ranges: {line!r}"
         else mret tt);;
        range_loop rest' address_spaces views
  end.

(** [_parse_flatview_section(lines, start_index)], on the lines after the
    ["FlatView #"] line; it returns the remaining lines and the section's
    address spaces. *)
Definition _parse_flatview_section (rest : list string)
    : M (list string * gmap string (list string)) :=
  '(ex, address_spaces, views) ← lift (header_loop rest [] ∅);
  match ex with
  | HeaderReturn rest' => mret (rest', views)
  | HeaderDone [] => mret ([], views)
  | HeaderDone (l :: rest'') =>
      if startswith (rstrip l) "  No rendered FlatView" then
        views' ← lift (delete_all address_spaces views);
        mret (rest'', views')
      else range_loop (l :: rest'') address_spaces views
  end.

(** The [while i < len(lines)] loop of [_parse_mtree_output]; a section
    hands back a position beyond its first line, so [fuel] bounds the
    iterations by the number of lines. *)
Fixpoint mtree_loop (fuel : nat) (rest : list string) (views : gmap string (list string))
    : M (gmap string (list string)) :=
  match rest with
  | [] => mret views
  | l :: rest' =>
      match fuel with
      | O => raise OutOfFuel
      | S fuel' =>
          let line := rstrip l in
          if startswith line "FlatView #" then
            '(rest2, flatview_views) ← _parse_flatview_section rest';
            mtree_loop fuel' rest2 (flatview_views ∪ views)
          else
            (if visible line
             then print "Warning: Unexpected line in mtree output: {line!r}"
             else mret tt);;
            mtree_loop fuel' rest' views
      end
  end.

(** [{name: FlatView.parse(body) for name, body in views.items()}] *)
Fixpoint parse_views (items : list (string * list string)) (acc : gmap string FlatView.t)
    : M (gmap string FlatView.t) :=
  match items with
  | [] => mret acc
  | (name, body) :: rest =>
      fv ← FlatView.parse body;
      parse_views rest (<[name := fv]> acc)
  end.

Definition _parse_mtree_output (output : string) : M (gmap string FlatView.t) :=
  let lines := split output newline in
  views ← mtree_loop (length lines) lines ∅;
  parse_views (map_to_list views) ∅.

(** Kinds of line, as the loops tell them apart. *)
Definition is_flatview_line (l : string) : bool := startswith (rstrip l) "FlatView #".
Definition is_AS_line (l : string) : bool := startswith (rstrip l) as_prefix.

(** An [AS] line whose quoting is wrong: not exactly two double quotes. *)
Definition malformed_AS_line (l : string) : bool :=
  is_AS_line l && negb (bool_decide (count (rstrip l) dquote = 2%nat)).

(** A line the header loop passes over: a well-formed [AS] line, or a line
    that neither opens the ranges nor starts the next section. *)
Definition passed_in_header (l : string) : bool :=
  if is_AS_line l then bool_decide (count (rstrip l) dquote = 2%nat)
  else negb (startswith (rstrip l) " Root ") && negb (is_flatview_line l).

(** A line of the range loop that is no range line, no section start and
    not empty. *)
Definition unparseable_range_line (l : string) : bool :=
  negb (startswith (rstrip l) "  " && _is_memory_range_line (rstrip l))
  && negb (is_flatview_line l) && negb (bool_decide (rstrip l = "")).

(** The lines before which a loop of the parser may be handed back: the end of the input
    or the start of a section. *)
Definition boundary (tail : list string) : Prop :=
  match tail with
  | [] => True
  | l :: _ => is_flatview_line l = true
  end.

Definition parser_error (e : exn) : Prop := e = ValueError \/ e = KeyError.

(** [mtree()]: any exception of the query or of the parser leaves as a
    [RuntimeError]. *)
Definition mtree : M (gmap string FlatView.t) :=
  try_except (output ← qemu_hmp InfoMtree; _parse_mtree_output output)
             is_Exception (fun _ => raise RuntimeError).

(** The next value of the session's entropy. *)
Definition draw_entropy : M Z :=
  mkM (fun w =>
    (Ret (hd 0 (entropy w)),
     mkWorld (memory w) (registers w) (cached_reg_list w) (mtree_output w)
             (files w) (tl (entropy w)) (events w) (guest w))).

(** [views["memory"].random_address()] *)
Definition memory_random_address (views : gmap string FlatView.t) : M Z :=
  match views !! "memory" with
  | Some fv => d ← draw_entropy; lift (FlatView.random_address fv d)
  | None => raise KeyError
  end.

(** [mtree()["memory"].random_address()] *)
Definition sample_address : M Z :=
  views ← mtree;
  memory_random_address views.

(** *** Guest memory *)

Definition byte_of_Z (v : Z) : Byte.byte :=
  default Byte.x00 (Byte.of_N (Z.to_N (v mod 256))).
Definition Z_of_byte (b : Byte.byte) : Z := Z.of_N (Byte.to_N b).

(** [int.from_bytes(bs, "little")] *)
Definition from_bytes_little (bs : list Byte.byte) : Z :=
  foldr (fun b acc => Z_of_byte b + 256 * acc) 0 bs.

Fixpoint to_bytes_digits (n : nat) (v : Z) : list Byte.byte :=
  match n with
  | O => []
  | S n' => byte_of_Z v :: to_bytes_digits n' (v / 256)
  end.

(** [int.to_bytes(v, length, "little")]: unsigned, [OverflowError] when [v]
    is negative or does not fit. *)
Definition to_bytes_little (v : Z) (length : Z) : outcome (list Byte.byte) :=
  if length <? 0 then Raise ValueError
  else if v <? 0 then Raise OverflowError
  else if 2 ^ (8 * length) <=? v then Raise OverflowError
  else Ret (to_bytes_digits (Z.to_nat length) v).

Fixpoint read_bytes (m : gmap Z Byte.byte) (a : Z) (n : nat) : option (list Byte.byte) :=
  match n with
  | O => Some []
  | S n' =>
      b ← m !! a;
      bs ← read_bytes m (a + 1) n';
      Some (b :: bs)
  end.

Fixpoint write_bytes (a : Z) (bs : list Byte.byte) (m : gmap Z Byte.byte) : gmap Z Byte.byte :=
  match bs with
  | [] => m
  | b :: bs' => <[a := b]> (write_bytes (a + 1) bs' m)
  end.

(** [inferior.read_memory(address, length)]: fails on unmapped memory. *)
Definition read_memory (address length : Z) : M (list Byte.byte) :=
  w ← get_world;
  match read_bytes (memory w) address (Z.to_nat length) with
  | Some bs => mret bs
  | None => raise MemoryError
  end.

(** [inferior.write_memory(address, buffer)]: the memory keeps what was
    written; fails on unmapped memory. *)
Definition write_memory (address : Z) (buffer : list Byte.byte) : M unit :=
  w ← get_world;
  match read_bytes (memory w) address (length buffer) with
  | Some _ =>
      put_world (mkWorld (write_bytes address buffer (memory w)) (registers w)
                         (cached_reg_list w) (mtree_output w) (files w)
                         (entropy w) (events w) (guest w))
  | None => raise MemoryError
  end.

(** [1 << bit]: a negative shift count is a [ValueError]. *)
Definition py_shiftl (v bit : Z) : outcome Z :=
  if bit <? 0 then Raise ValueError else Ret (Z.shiftl v bit).

(** *** RAM bit flip ([qemu_utils.inject_bitflip]) *)

Definition inject_bitflip (address bytewidth : Z) (bit : option Z) : M unit :=
  py_assert (1 <=? bytewidth);;
  bit ← match bit with
        | None => random_randint 0 (bytewidth * 8 - 1)
        | Some b => mret b
        end;
  obytes ← read_memory address bytewidth;
  let ovalue := from_bytes_little obytes in
  mask ← lift (py_shiftl 1 bit);
  let nvalue := Z.lxor ovalue mask in
  nbytes ← lift (to_bytes_little nvalue bytewidth);
  write_memory address nbytes;;
  rbytes ← read_memory address bytewidth;
  let rnvalue := from_bytes_little rbytes in
  py_assert ((nvalue =? rnvalue) && negb (nvalue =? ovalue));;
  log_single (Address address) ovalue nvalue.

(** *** Registers ([qemu_utils.Registers], [inject_register_bitflip]) *)

Fixpoint assoc {V} (name : string) (l : list (string * V)) : option V :=
  match l with
  | [] => None
  | (k, v) :: l' => if String.eqb k name then Some v else assoc name l'
  end.

Fixpoint assoc_update {V} (name : string) (f : V -> V) (l : list (string * V))
    : list (string * V) :=
  match l with
  | [] => []
  | (k, v) :: l' =>
      if String.eqb k name then (k, f v) :: l' else (k, v) :: assoc_update name f l'
  end.

(** [gdb.selected_frame().read_register(name)]: a name that is no register
    of the frame (or is [None]) is an error of the debugger. *)
Definition read_register (register_name : option string) : M Register :=
  w ← get_world;
  match register_name with
  | Some name =>
      match assoc name (registers w) with
      | Some r => mret r
      | None => raise ValueError
      end
  | None => raise TypeError
  end.

(** Reading word [index] of a register through the debugger:
    [int(value)] for a scalar, [p ((int64_t[2])$R)[index]] for a vector. *)
Definition read_word (name : string) (index : Z) : M Z :=
  r ← read_register (Some name);
  match words r !! Z.to_nat index with
  | Some v => mret v
  | None => raise ValueError
  end.

(** A register with other words in it. *)
Definition with_words (ws : list Z) (r : Register) : Register :=
  mkRegister (type_name r) (sizeof r) ws (on_set r) (aliases r).

(** The registers that share the storage of a register just written follow
    it. *)
Fixpoint update_aliases (written : list Z)
    (views : list (string * (list Z -> list Z -> list Z)))
    (regs : list (string * Register)) : list (string * Register) :=
  match views with
  | [] => regs
  | (a, view) :: views' =>
      update_aliases written views'
        (assoc_update a (fun r => with_words (view written (words r)) r) regs)
  end.

(** The register file after a [set] of word [index] of register [name]:
    the register keeps what its [on_set] leaves, and its aliases follow. A
    name that is no register leaves the register file alone (the debugger
    takes it for a convenience variable). *)
Definition set_registers (name : string) (index : Z) (v : Z)
    (regs : list (string * Register)) : list (string * Register) :=
  match assoc name regs with
  | Some r =>
      let ws := alter (fun old => on_set r old v) (Z.to_nat index) (words r) in
      assoc_update name (with_words ws) (update_aliases ws (aliases r) regs)
  | None => regs
  end.

(** [set $R = v] and [set ((int64_t[2])$R)[index] = v] *)
Definition set_word (name : string) (index : Z) (v : Z) : M unit :=
  w ← get_world;
  put_world (mkWorld (memory w) (set_registers name index v (registers w))
                     (cached_reg_list w) (mtree_output w) (files w)
                     (entropy w) (events w) (guest w)).

(** The result is Python's [True], [False] or [None]. *)
Definition inject_register_bitflip (register_name : option string) (bit : option Z)
    : M (option bool) :=
  value ← try_except (r ← read_register register_name; mret (Some r)) is_Exception
            (fun _ =>
               print "[inject_register_bitflip] get exception when reading register value: ";;
               mret None);
  (* [value] is unbound when the read failed *)
  value ← match value with Some v => mret v | None => raise NameError end;
  let name := default "" register_name in
  let bitcount := Z.min (8 * sizeof value) 64 in
  top ← lift (py_shiftl 1 bitcount);
  let bitmask := top - 1 in
  bit ← match bit with
        | None => random_randint 0 (bitcount - 1)
        | Some b => mret b
        end;
  try_except
    ('(oldval, newval, rrval) ←
        (if bool_decide (type_name value = "union aarch64v") then
           index ← random_randint 0 1;
           oldval ← read_word name index;
           mask ← lift (py_shiftl 1 bit);
           let newval := Z.lxor oldval mask in
           set_word name index newval;;
           rrval ← read_word name index;
           mret (oldval, newval, rrval)
         else
           py_assert (sizeof value =? 8);;
           let oldval := hd 0 (words value) in
           mask ← lift (py_shiftl 1 bit);
           let newval := Z.lxor oldval mask in
           set_word name 0 newval;;
           rrval ← read_word name 0;
           mret (oldval, newval, rrval));
     if Z.land newval bitmask =? Z.land rrval bitmask then
       log_single (RegisterName name) oldval rrval;;
       mret (Some true)
     else if Z.land oldval bitmask =? Z.land rrval bitmask then
       print "Bitflip could not be injected into register %s. (%s -> %s ignored.)";;
       mret (Some false)
     else raise RuntimeError)
    is_Exception
    (fun _ => print "[inject_register_bitflip] exception: ";; mret None).

(** [Registers().list_registers()]: computed on the first call, cached for
    the session. *)
Definition allowed_register_type (ty : string) : bool :=
  bool_decide (ty ∈ ["long"; "void *"; "void (*)()"; "union aarch64v"]).

Definition list_registers : M (list (string * Z)) :=
  w ← get_world;
  match cached_reg_list w with
  | Some l => mret l
  | None =>
      let l := (fun '(n, r) => (n, sizeof r)) <$>
                 filter (fun '(_, r) => allowed_register_type (type_name r) = true)
                        (registers w) in
      put_world (mkWorld (memory w) (registers w) (Some l) (mtree_output w)
                         (files w) (entropy w) (events w) (guest w));;
      mret l
  end.

(** The pattern ["^" + ".*".join(re.escape(seg) ...) + "$"]: literal
    segments separated by runs of non-newline characters; [$] stands at the
    end or before a final newline. *)
Fixpoint strip_prefix (seg cs : list ascii) : option (list ascii) :=
  match seg, cs with
  | [], _ => Some cs
  | a :: seg', c :: cs' => if Ascii.eqb a c then strip_prefix seg' cs' else None
  | _ :: _, [] => None
  end.

Fixpoint any_gap (k : list ascii -> bool) (cs : list ascii) : bool :=
  k cs ||
  match cs with
  | c :: cs' => negb (Ascii.eqb c newline) && any_gap k cs'
  | [] => false
  end.

Definition at_end (cs : list ascii) : bool :=
  match cs with
  | [] => true
  | [c] => Ascii.eqb c newline
  | _ => false
  end.

Fixpoint wildcard_match (segs : list (list ascii)) (cs : list ascii) : bool :=
  match segs with
  | [] => false
  | seg :: rest =>
      match strip_prefix seg cs with
      | None => false
      | Some cs' =>
          match rest with
          | [] => at_end cs'
          | _ :: _ => any_gap (wildcard_match rest) cs'
          end
      end
  end.

(** [random.shuffle(x)]: for [i] from [len(x) - 1] down to 1, swap [x[i]]
    with [x[j]] for a random [j <= i]. *)
Definition swap {A} (x : list A) (i j : nat) : list A :=
  match x !! i, x !! j with
  | Some a, Some b => <[j := a]> (<[i := b]> x)
  | _, _ => x
  end.

Fixpoint shuffle_from {A} (i : nat) (x : list A) : M (list A) :=
  match i with
  | O => mret x
  | S i' =>
      j ← random_randint 0 (Z.of_nat i);
      shuffle_from i' (swap x i (Z.to_nat j))
  end.

Definition shuffle {A} (x : list A) : M (list A) :=
  shuffle_from (length x - 1) x.

(** The [for reg in registers: ... else: ...] loop of [inject_reg_internal].
    A truthy result leaves it; anything else moves to the next register. *)
Fixpoint try_registers (regs : list string) (bit : option Z) : M unit :=
  match regs with
  | [] => print "Out of registers to try!"
  | reg :: rest =>
      r ← inject_register_bitflip (Some reg) bit;
      match r with
      | Some true => mret tt
      | _ => print "Trying another register...";; try_registers rest bit
      end
  end.

Definition inject_reg_internal (register_name : option string) (bit : option Z) : M unit :=
  lr ← list_registers;
  let names := fst <$> lr in
  let names :=
    match register_name with
    | Some pat =>
        if bool_decide (pat = "") then names
        else filter (fun rname =>
                       wildcard_match (split_chars "*" (chars pat)) (chars rname) = true)
                    names
    | None => names
    end in
  match names with
  | [] => print "No registers found!"
  | _ :: _ =>
      names ← shuffle names;
      try_registers names bit
  end.

(** Fault kinds, the [choices] of [--fault-type]. *)
Inductive fault_type : Type := ram | reg.

Fixpoint repeat_times (n : nat) (body : M unit) : M unit :=
  match n with
  | O => mret tt
  | S n' => body;; repeat_times n' body
  end.

Definition autoinject_inner (times mint maxt : Z) (ftype : fault_type) : M unit :=
  repeat_times (Z.to_nat times)
    (ns ← random_randint mint maxt;
     step_ns ns;;
     match ftype with
     | reg => inject_reg_internal None None
     | ram => address ← sample_address; inject_bitflip address 1 None
     end).

(** ** Argument parsing ([parser.py]) *)

(** What one call of [parser.parse_args(args_list)] did: the text it wrote
    to the captured [sys.stderr], and its result: the namespace, or the
    exception it left with ([argparse] reports a schema violation by
    [SystemExit]). *)
Record parse_run (N : Type) : Type := mkParseRun {
  stderr_output : string;
  parse_result : outcome N
}.
Arguments mkParseRun {N} stderr_output parse_result.
Arguments stderr_output {N} p.
Arguments parse_result {N} p.

(** [argparse.ArgumentParser.add_argument] registers the option and returns
    the [Action] it created, not the parser; an [Action] has no
    [add_argument] attribute. *)
Inductive pyobj : Type :=
  | ArgumentParser (prog : string) (options : list string)
  | Action (option_string : string).

Definition add_argument (self : pyobj) (option_string : string) : outcome pyobj :=
  match self with
  | ArgumentParser _ _ => Ret (Action option_string)
  | Action _ => Raise AttributeError
  end.

Section Commands.

(** [shlex.split], from the standard library: the tokens, or a [ValueError]
    on an unbalanced quote. *)
Variable shlex_split : string -> outcome (list string).

(** [gdb.parse_and_eval(expr)] followed by [int(...)]. *)
Variable parse_and_eval : string -> outcome Z.

(** [parse_args_safely(parser, args_str)], [parse_args] being
    [parser.parse_args]. The [finally] clause prints the captured text in
    either case. *)
Definition parse_args_safely {N} (parse_args : list string -> parse_run N)
    (args_str : string) : M (option N) :=
  try_except
    (args_list ← (if bool_decide (strip args_str = "") then mret []
                  else lift (shlex_split (strip args_str)));
     let r := parse_args args_list in
     (if bool_decide (stderr_output r = "") then mret tt
      else print (strip (stderr_output r)));;
     result ← lift (parse_result r);
     mret (Some result))
    (fun e => match e with SystemExit => true | _ => is_Exception e end)
    (fun e =>
       match e with
       | SystemExit => mret None
       | _ => print "Error parsing arguments: %s";; mret None
       end).

(** ** Command handlers ([fliputils.py]) *)

(** The namespaces [argparse] builds for the commands. An option declared
    with [type=int] holds an integer, one declared with [choices] one of the
    choices, any other a string; an option that may be absent is [None]. *)
Record inject_args : Type := mkInjectArgs {
  inject_address : string;
  inject_bytewidth : option Z;
  inject_bit : option Z
}.

Definition inject (parse_args : list string -> parse_run inject_args) (args : string)
    : M unit :=
  parsed ← parse_args_safely parse_args args;
  match parsed with
  | None => mret tt
  | Some parsed =>
      target ←
        (if negb (bool_decide (inject_address parsed = "")) then
           address ← try_except (a ← lift (parse_and_eval (inject_address parsed));
                                 mret (Some a))
                       is_Exception
                       (fun _ => print "Error parsing address: %s";; mret None);
           match address with
           | None => mret None
           | Some address =>
               let bytewidth := default 4 (inject_bytewidth parsed) in
               if (bytewidth <? 1) || (address <? 0) then
                 print "invalid bytewidth or address";; mret None
               else mret (Some (address, bytewidth))
           end
         else
           address ← sample_address;
           mret (Some (address, 1)));
      match target with
      | None => mret tt
      | Some (address, bytewidth) =>
          inject_bitflip address bytewidth (inject_bit parsed)
      end
  end.

Record inject_reg_args : Type := mkInjectRegArgs {
  inject_reg_register : string;
  inject_reg_bit : option Z
}.

Definition inject_reg (parse_args : list string -> parse_run inject_reg_args)
    (args : string) : M unit :=
  parsed ← parse_args_safely parse_args args;
  match parsed with
  | None => mret tt
  | Some parsed =>
      inject_reg_internal (Some (inject_reg_register parsed)) (inject_reg_bit parsed)
  end.

Record autoinject_args : Type := mkAutoinjectArgs {
  total_fault_number : Z;
  min_interval : string;
  max_interval : string;
  fault_type_ : fault_type
}.

(** The [try] block shared by [autoinject] and [snapinject]: the count and
    the two intervals. *)
Definition campaign_params (times : Z) (min_interval max_interval : string) : M (Z * Z * Z) :=
  py_assert (1 <=? times);;
  mint ← lift (parse_time min_interval);
  maxt ← lift (parse_time max_interval);
  py_assert ((0 <? mint) && (mint <=? maxt));;
  mret (times, mint, maxt).

Definition is_ValueError_or_AssertionError (e : exn) : bool :=
  match e with ValueError | AssertionError => true | _ => false end.

Definition autoinject (parse_args : list string -> parse_run autoinject_args)
    (args : string) : M unit :=
  parsed ← parse_args_safely parse_args args;
  match parsed with
  | None => mret tt
  | Some parsed =>
      params ← try_except
                 (p ← campaign_params (total_fault_number parsed)
                        (min_interval parsed) (max_interval parsed);
                  mret (Some p))
                 is_ValueError_or_AssertionError
                 (fun _ => print "Error: %s";; mret None);
      match params with
      | None => mret tt
      | Some (times, mint, maxt) =>
          autoinject_inner times mint maxt (fault_type_ parsed);;
          print "Total injection duration: %.3f s"
      end
  end.

Record snapinject_args : Type := mkSnapinjectArgs {
  snap_total_fault_number : Z;
  snap_min_interval : string;
  snap_max_interval : string;
  snap_fault_type : fault_type;
  fault_location : option string;
  bit_index : option Z;
  observe_time : string;
  snapshot_tag : option string
}.

(** [int(location, 16)]: [int] with an explicit base refuses [None]. *)
Definition int16_of_location (location : option string) : outcome Z :=
  match location with
  | Some l => py_int 16 l
  | None => Raise TypeError
  end.

(** The [for _ in range(times)] loop of the targeted campaign; the [return]
    on an unparseable address leaves the whole command ([false]). *)
Fixpoint targeted_loop (n : nat) (mint maxt : Z) (ftype : fault_type)
    (location : option string) (bit_index : option Z) : M bool :=
  match n with
  | O => mret true
  | S n' =>
      ns ← random_randint mint maxt;
      step_ns ns;;
      go_on ←
        match ftype with
        | ram =>
            try_except
              (address ← lift (int16_of_location location);
               inject_bitflip address 1 bit_index;;
               mret true)
              (fun e => match e with ValueError => true | _ => false end)
              (fun _ => print "Error parsing RAM address: %s";; mret false)
        | reg => inject_register_bitflip location bit_index;; mret true
        end;
      if go_on : bool then targeted_loop n' mint maxt ftype location bit_index
      else mret false
  end.

(** Modelled from the spec: [send_to_qemu_serial], which [snapinject] calls
    and no source file defines; section 4.H has it send a carriage return to
    the guest's serial line. *)
Definition send_to_qemu_serial (text : string) : M unit := emit (Serial text).

Definition snapinject (parse_args : list string -> parse_run snapinject_args)
    (args : string) : M unit :=
  parsed ← parse_args_safely parse_args args;
  match parsed with
  | None => mret tt
  | Some parsed =>
      params ← try_except
                 ('(times, mint, maxt) ← campaign_params (snap_total_fault_number parsed)
                        (snap_min_interval parsed) (snap_max_interval parsed);
                  obtime ← lift (parse_time (observe_time parsed));
                  mret (Some (times, mint, maxt, obtime)))
                 is_ValueError_or_AssertionError
                 (fun _ => print "Error: %s";; mret None);
      match params with
      | None => mret tt
      | Some (times, mint, maxt, obtime) =>
          uuid ← draw_entropy;
          let tmpname := TmpName uuid in
          let location := fault_location parsed in
          let bit_index := bit_index parsed in
          if (bool_decide (location = None) && negb (bool_decide (bit_index = None)))
             && (negb (bool_decide (location = None)) && bool_decide (bit_index = None))
          then
            print "Error: --bit-index and --fault-location must be both specified or both omitted."
          else
            let temporary :=
              match snapshot_tag parsed with
              | Some t => bool_decide (t = "")
              | None => true
              end in
            let snapname :=
              if temporary then tmpname else Tag (default "" (snapshot_tag parsed)) in
            (if temporary
             then qemu_hmp (Savevm snapname);; print "Create a tmp checkpoint %s"
             else qemu_hmp (Loadvm snapname);; print "Load checkpoint %s");;
            finished ←
              (if bool_decide (location = None) && bool_decide (bit_index = None)
               then autoinject_inner times mint maxt (snap_fault_type parsed);; mret true
               else targeted_loop (Z.to_nat times) mint maxt (snap_fault_type parsed)
                      location bit_index);
            if finished : bool then
              print "Total injection duration: %.3f s";;
              print "Observing VM %s";;
              step_ns obtime;;
              print "time up.";;
              (if temporary
               then qemu_hmp (Loadvm snapname);;
                    print "Back to checkpoint %s finished.";;
                    qemu_hmp (Delvm tmpname);;
                    print "Delete tmp VM checkpoint"
               else mret tt);;
              send_to_qemu_serial (String "013"%char "")
            else mret tt
      end
  end.

(** The body of the [try] in [parse_address_ranges_file]: unpacking
    [line.split("-")] needs exactly two parts, and both must be base-16
    literals; [range(start, end, 1)] is empty when [end <= start]. *)
Definition range_line_addresses (line : string) : outcome (list Z) :=
  match split line "-" with
  | [start_str; end_str] =>
      start ← py_int 16 start_str;
      end_ ← py_int 16 end_str;
      Ret (seqZ start (end_ - start))
  | _ => Raise ValueError
  end.

(** The [for line in f] loop of [parse_address_ranges_file]. *)
Fixpoint parse_address_lines (lines : list string) (address_list : list Z) : M (list Z) :=
  match lines with
  | [] => mret address_list
  | l :: rest =>
      let line := strip l in
      if bool_decide (line = "") || negb (bool_decide ("-"%char ∈ chars line)) then
        parse_address_lines rest address_list
      else
        added ← try_except (lift (range_line_addresses line)) is_Exception
                  (fun _ => print "Invalid line in range file: {line} ({e})";; mret []);
        parse_address_lines rest (address_list ++ added)
  end.

(** The lines that iterating over a file in text mode yields. A line ends
    at a line feed, at a carriage return followed by a line feed, and at a
    lone carriage return, and is handed out with a line feed at its end.
    [final] tells that the text is all of the file: the characters after
    the last line end are then a last line, and a carriage return at the
    very end ends a line; ahead of a decoding error neither is handed
    out. *)
Fixpoint universal_lines (final : bool) (cs cur : list ascii) : list string :=
  match cs with
  | [] => if final && negb (bool_decide (cur = [])) then [of_chars cur] else []
  | c :: cs' =>
      if Ascii.eqb c newline then
        of_chars (cur ++ [newline]) :: universal_lines final cs' []
      else if Ascii.eqb c "013" then
        match cs' with
        | [] => if final then [of_chars (cur ++ [newline])] else []
        | d :: cs'' =>
            if Ascii.eqb d newline then
              of_chars (cur ++ [newline]) :: universal_lines final cs'' []
            else of_chars (cur ++ [newline]) :: universal_lines final cs' []
        end
      else universal_lines final cs' (cur ++ [c])
  end.

(** [for line in f] on a file opened in text mode: the lines, and how the
    iteration ends: at the end of the file, or with the
    [UnicodeDecodeError] (a [ValueError]) of bytes that do not decode. *)
Definition text_lines (f : TextFile) : list string :=
  universal_lines (negb (undecodable f)) (chars (text f)) [].

(** The [for line in f] loop stands outside the [try] block of its body,
    so a decoding error leaves the function. *)
Definition parse_address_ranges_file (path : string) : M (list Z) :=
  w ← get_world;
  match files w !! path with
  | Some f =>
      address_list ← parse_address_lines (text_lines f) [];
      if undecodable f then raise ValueError else mret address_list
  | None => raise OSError
  end.

(** [random.sample(population, k)]: [k] draws without replacement. *)
Fixpoint sample (population : list Z) (k : nat) : M (list Z) :=
  match k with
  | O => mret []
  | S k' =>
      j ← random_randint 0 (Z.of_nat (length population) - 1);
      match population !! Z.to_nat j with
      | Some a =>
          rest ← sample (delete (Z.to_nat j) population) k';
          mret (a :: rest)
      | None => raise ValueError
      end
  end.

Fixpoint inject_targets (targets : list Z) : M unit :=
  match targets with
  | [] => mret tt
  | address :: rest =>
      try_except (inject_bitflip address 1 None) is_Exception
        (fun _ => print "Injection failed at 0x{address:x}: {e}");;
      inject_targets rest
  end.

Record appinject_args : Type := mkAppinjectArgs {
  app_total_fault_number : Z;
  range_file : string
}.

(** [appinject] builds its parser by chaining [.add_argument] on the result
    of the first [add_argument]. *)
Definition appinject (parse_args : list string -> parse_run appinject_args)
    (args : string) : M unit :=
  parser ← lift (a ← add_argument (ArgumentParser "appinject" []) "--total-fault-number";
                 add_argument a "--range-file");
  parsed ← parse_args_safely parse_args args;
  match parsed with
  | None => mret tt
  | Some parsed =>
      let path := range_file parsed in
      let count := app_total_fault_number parsed in
      if count <=? 0 then print "Invalid count"
      else
        addresses ← parse_address_ranges_file path;
        if bool_decide (length addresses = 0%nat) then
          print "No valid addresses found in file."
        else if Z.of_nat (length addresses) <? count then
          print "Requested {count} injections, but only {len(addresses)} addresses found."
        else
          print "Performing {count} bitflip injections from {len(addresses)} available addresses...";;
          targets ← sample addresses (Z.to_nat count);
          inject_targets targets
  end.

End Commands.

(** The world a successful flip leaves: the new bytes in memory and one
    more record in the log. *)
Definition flipped (a : Z) (nbytes : list Byte.byte) (o n : Z) (w : World) : World :=
  mkWorld (write_bytes a nbytes (memory w)) (registers w) (cached_reg_list w)
          (mtree_output w) (files w) (entropy w)
          (events w ++ [Logged (Address a) o n]) (guest w).

(** ** Sample sessions

    Concrete worlds and command lines on which the statements below are
    evaluated. *)

Definition q (s : string) : string := of_chars (chars s ++ [dquote]).
Definition unlines (ls : list string) : string :=
  of_chars (concat ((fun l => chars l ++ [newline]) <$> ls)).

(** The sections of a memory tree: RAM, I/O and ROM ranges under two
    address spaces; a section whose [AS] line lost its closing quote; the
    I/O space. *)
Definition memory_section : list string :=
  [ "FlatView #0";
    q (q " AS " +:+ "memory") +:+ ", root: system";
    q (q " AS " +:+ "cpu-memory-0") +:+ ", root: system";
    " Root memory region: system";
    "  0000000000001000-0000000000001fff (prio 0, ram): mach-virt.ram";
    "  0000000008000000-0000000008000fff (prio 0, i/o): gic_dist";
    "  0000000040000000-0000000040000fff (prio 0, romd): virt.flash0";
    "" ].

Definition broken_section : list string :=
  [ "FlatView #1";
    q " AS " +:+ "gpex-root, root: bus";
    " Root memory region: bus";
    "  0000000000000000-00000000000000ff (prio 0, i/o): gpex";
    "" ].

Definition io_section : list string :=
  [ "FlatView #2";
    q (q " AS " +:+ "I/O") +:+ ", root: io";
    " Root memory region: io";
    "  0000000000000000-000000000000ffff (prio 0, i/o): io" ].

Definition sample_mtree : string := unlines (memory_section ++ io_section).
Definition broken_mtree : string :=
  unlines (memory_section ++ broken_section ++ io_section).

Definition wrap_int64 (v : Z) : Z := (v + 2 ^ 63) mod 2 ^ 64 - 2 ^ 63.

(** Three kinds of register: one that keeps what is written, one that
    ignores writes, and one whose write also raises a status bit. *)
Definition sample_registers : list (string * Register) :=
  [ ("x0", mkRegister "long" 8 [5] (fun _ v => wrap_int64 v) []);
    ("xzr", mkRegister "long" 8 [0] (fun old _ => old) []);
    ("fpsr", mkRegister "long" 8 [0] (fun _ v => Z.lor (wrap_int64 v) 256) []);
    ("v0", mkRegister "union aarch64v" 16 [7; 9] (fun _ v => wrap_int64 v) []) ].

Definition sample_memory : gmap Z Byte.byte :=
  list_to_map
    [ (4096, Byte.xef); (4097, Byte.xbe); (4098, Byte.xad); (4099, Byte.xde) ].

Definition sample_world : World :=
  mkWorld sample_memory sample_registers None sample_mtree
          (<[ "noisy.txt" :=
                mkTextFile (unlines [""; "0x1000-0x1004"; "not a range"; "   "]) false ]>
             {[ "ranges.txt" := mkTextFile "0x1000-0x1004" false ]}) [] [] [].

Definition broken_world : World :=
  mkWorld sample_memory sample_registers None broken_mtree ∅ [] [] [].

(** A view with two RAM ranges around an I/O range, and one whose only RAM
    range is empty. *)
Definition sample_view : FlatView.t :=
  FlatView.mk
    [ MemoryRange.mk 4096 8192 0 "ram" "low";
      MemoryRange.mk 8192 12288 0 "i/o" "uart";
      MemoryRange.mk 16384 20480 0 "ram" "high" ].

Definition empty_ram_view : FlatView.t :=
  FlatView.mk
    [ MemoryRange.mk 4096 4096 0 "ram" "hole";
      MemoryRange.mk 0 65535 0 "i/o" "io" ].

(** [str.split()] on whitespace, which is what [shlex.split] does to a
    command line without quotes or backslashes. *)
Fixpoint words_of (cs : list ascii) (cur : list ascii) : list string :=
  match cs with
  | [] => if bool_decide (cur = []) then [] else [of_chars cur]
  | c :: cs' =>
      if isspace c
      then (if bool_decide (cur = []) then [] else [of_chars cur]) ++ words_of cs' []
      else words_of cs' (cur ++ [c])
  end.

Definition plain_split (s : string) : outcome (list string) := Ret (words_of (chars s) []).

(** An address expression that is a hexadecimal literal. *)
Definition eval_literal (expr : string) : outcome Z := py_int 16 expr.

(** [parse_args] of a parser that accepts exactly the command line [tokens],
    building [ns], and leaves by [SystemExit] on any other after writing its
    usage text. *)
Definition accepts {N} (tokens : list string) (ns : N) (args_list : list string)
    : parse_run N :=
  if bool_decide (args_list = tokens) then mkParseRun "" (Ret ns)
  else mkParseRun "usage: ..." (Raise SystemExit).

(** A [snapinject] command line that gives [--fault-location] without
    [--bit-index], one that gives [--bit-index] without [--fault-location],
    and the namespaces [argparse] builds for them. *)
Definition lone_location_cmd : string :=
  "--total-fault-number 1 --min-interval 1ms --max-interval 1ms --fault-type ram --fault-location 0x1000 --observe-time 1s".
Definition lone_location_args : snapinject_args :=
  mkSnapinjectArgs 1 "1ms" "1ms" ram (Some "0x1000") None "1s" None.

Definition lone_bit_cmd : string :=
  "--total-fault-number 1 --min-interval 1ms --max-interval 1ms --fault-type ram --bit-index 3 --observe-time 1s".
Definition lone_bit_args : snapinject_args :=
  mkSnapinjectArgs 1 "1ms" "1ms" ram None (Some 3) "1s" None.

(** The sample session with entropy for one campaign: the snapshot's uuid,
    the delay, the bit. *)
Definition campaign_world : World :=
  mkWorld sample_memory sample_registers None sample_mtree ∅ [77; 0; 3] [] [].

Definition run_snapinject (cmd : string) (ns : snapinject_args) : outcome unit * World :=
  run (snapinject plain_split (accepts (words_of (chars cmd) []) ns) cmd) campaign_world.

(** A line of a range file that the loop passes over without a word:
    blank, or with no ["-"] in it. *)
Definition skipped_silently (l : string) : bool :=
  bool_decide (strip l = "") || negb (bool_decide ("-"%char ∈ chars (strip l))).

(** Campaign parameters the [try] block of [autoinject] refuses: a count
    below one, an interval that is no duration, or [min > max]. *)
Definition invalid_campaign (times : Z) (min_interval max_interval : string) : Prop :=
  times < 1 \/
  (exists e, parse_time min_interval = Raise e) \/
  (exists e, parse_time max_interval = Raise e) \/
  (exists mint maxt,
     parse_time min_interval = Ret mint /\ parse_time max_interval = Ret maxt /\
     maxt < mint).

(** [inject --address 0x1000 --bytewidth W --bit B] in the sample session. *)
Definition run_inject (cmd : string) (ns : inject_args) : outcome unit * World :=
  run (inject plain_split eval_literal (accepts (words_of (chars cmd) []) ns) cmd)
      sample_world.

(** [appinject --total-fault-number N --range-file ranges.txt] in the
    sample session. *)
Definition run_appinject (cmd : string) (ns : appinject_args) : outcome unit * World :=
  run (appinject plain_split (accepts (words_of (chars cmd) []) ns) cmd) sample_world.

(** [autoinject] in the sample session. *)
Definition run_autoinject (cmd : string) (ns : autoinject_args) : outcome unit * World :=
  run (autoinject plain_split (accepts (words_of (chars cmd) []) ns) cmd) campaign_world.

(** An [autoinject] command line with a zero fault count, and one whose
    intervals are in the wrong order. *)
Definition zero_count_cmd : string :=
  "--total-fault-number 0 --min-interval 1ms --max-interval 2ms --fault-type ram".
Definition zero_count_args : autoinject_args := mkAutoinjectArgs 0 "1ms" "2ms" ram.

Definition min_above_max_cmd : string :=
  "--total-fault-number 3 --min-interval 2ms --max-interval 1ms --fault-type reg".
Definition min_above_max_args : autoinject_args := mkAutoinjectArgs 3 "2ms" "1ms" reg.

(** The number a string of decimal digits writes. *)
Definition decimal_value (ds : list ascii) : Z :=
  fold_left (fun acc c => acc * 10 + (code c - 48)) ds 0.

(** The world after [set $R = v] on word [index] of register [name]. *)
Definition after_set (name : string) (index v : Z) (w : World) : World :=
  (run (set_word name index v) w).2.

(** What [inject_register_bitflip] does once the read-back [rrval] is in
    hand, as the code has it: the [RuntimeError] of the last case is caught
    by the enclosing [except Exception]. *)
Definition register_decision (name : string) (oldval newval rrval bitmask : Z)
    : M (option bool) :=
  if Z.land newval bitmask =? Z.land rrval bitmask then
    log_single (RegisterName name) oldval rrval;; mret (Some true)
  else if Z.land oldval bitmask =? Z.land rrval bitmask then
    print "Bitflip could not be injected into register %s. (%s -> %s ignored.)";;
    mret (Some false)
  else
    print "[inject_register_bitflip] exception: ";; mret None.

(** ** Frames

    What a computation leaves of the session whether it returns or raises:
    [respects R m] relates every world to the one [m] leaves behind. *)
Definition respects {A} (R : World -> World -> Prop) (m : M A) : Prop :=
  forall σ, R σ (run m σ).2.

(** The record of the session is only added to, by events of the kind [P]. *)
Definition only_emits (P : event -> Prop) (σ σ' : World) : Prop :=
  exists l, events σ' = events σ ++ l /\ Forall P l.

(** What a campaign with delays in [[mint, maxt]] may add to the record:
    its own output, the memory-tree query, and [cont] followed by a
    [stop_delayed] whose delay is in the range. *)
Definition campaign_event (mint maxt : Z) (ev : event) : Prop :=
  match ev with
  | Printed _ | Logged _ _ _ => True
  | Monitor InfoMtree | Monitor Cont => True
  | Monitor (StopDelayed ns) => mint <= ns <= maxt
  | Monitor (Savevm _) | Monitor (Loadvm _) | Monitor (Delvm _) => False
  | Serial _ => False
  end.

(** Snapshots are saved and deleted under the command's own name only. *)
Definition spares_tagged_snapshots (ev : event) : Prop :=
  match ev with
  | Monitor (Savevm name) | Monitor (Delvm name) => exists uuid, name = TmpName uuid
  | _ => True
  end.

(** The world after more events. *)
Definition with_events (l : list event) (w : World) : World :=
  mkWorld (memory w) (registers w) (cached_reg_list w) (mtree_output w)
          (files w) (entropy w) (events w ++ l) (guest w).

(** The range a line parses to, if it does. *)
Definition parsed_range (line : string) : option MemoryRange.t :=
  match MemoryRange.parse line with
  | Ret r => Some r
  | Raise _ => None
  end.

Definition skip_warning : event :=
  Printed "Warning: Skipping invalid memory range line: {e}".

(** How often a section's header names an address space. *)
Definition occurrences (n : string) (names : list string) : nat :=
  length (filter (fun x => x = n) names).

(** A session with nothing in it. *)
Definition bare_world : World := mkWorld ∅ [] None "" ∅ [] [] [].

(** A section whose header names one address space twice, with a rendered
    view and without. *)
Definition doubled_section : list string :=
  [ q (q " AS " +:+ "memory") +:+ ", root: system";
    q (q " AS " +:+ "memory") +:+ ", root: alias";
    " Root memory region: system";
    "  0000000000001000-0000000000001fff (prio 0, ram): mach-virt.ram" ].

Definition doubled_unrendered_section : list string :=
  [ q (q " AS " +:+ "memory") +:+ ", root: system";
    q (q " AS " +:+ "memory") +:+ ", root: alias";
    " Root memory region: system";
    "  No rendered FlatView" ].

(** After the header loop the section's dictionary holds an empty body for
    each name of the list, and nothing else. *)
Definition header_inv (names : list string) (views : gmap string (list string)) : Prop :=
  forall n, views !! n = if bool_decide (n ∈ names) then Some [] else None.

(** The number a string of hexadecimal digits writes. *)
Definition hex_value (ds : list ascii) : Z :=
  fold_left (fun acc c => acc * 16 + default 0 (digit_value c)) ds 0.

(** A line of the format the docstring of [MemoryRange.parse] gives:
    [<indent><start>-<end> (prio <N>, <kind>): <name>]. *)
Definition range_line (indent h1 h2 d kind name : list ascii) : string :=
  of_chars (indent ++ h1 ++ chars "-" ++ h2 ++ chars " (prio " ++ d ++ chars ", "
            ++ kind ++ chars "): " ++ name).

(** A greedy repetition of the class [p] cannot go on into [rest]. *)
Definition stops (p : ascii -> bool) (rest : list ascii) : Prop :=
  match rest with
  | [] => True
  | c :: _ => p c = false
  end.

(** What a wildcard pattern means: the name is the segments of the pattern
    in their order, with any text in place of each ["*"]. *)
Fixpoint glob (segs : list (list ascii)) (cs : list ascii) : Prop :=
  match segs with
  | [] => False
  | seg :: rest =>
      match rest with
      | [] => cs = seg
      | _ :: _ => exists gap tail, cs = seg ++ gap ++ tail /\ glob rest tail
      end
  end.

(** The world after one value of the entropy has been consumed. *)
Definition after_draw (w : World) : World := (run draw_entropy w).2.

(** ** Counting injections

    An injection that took effect is one record of the log. [logs m Ψ]:
    whatever the world, [m] only adds to the session's record, and its
    outcome and the number of records it adds are related by [Ψ]. *)
Definition is_logged (ev : event) : bool :=
  match ev with
  | Logged _ _ _ => true
  | _ => false
  end.

Definition logged (l : list event) : nat :=
  length (filter (fun ev => is_logged ev = true) l).

Definition unlogged (ev : event) : Prop := is_logged ev = false.

Definition logs {A} (m : M A) (Ψ : outcome A -> nat -> Prop) : Prop :=
  forall σ, exists l,
    events (run m σ).2 = events σ ++ l /\ Ψ (run m σ).1 (logged l).

(** One record on success, none on failure. *)
Definition one_if_returns {A} (o : outcome A) (n : nat) : Prop :=
  match o with
  | Ret _ => n = 1%nat
  | Raise _ => n = 0%nat
  end.

(** One record when the flip of a register is reported as done, none
    otherwise. *)
Definition one_if_true (o : outcome (option bool)) (n : nat) : Prop :=
  match o with
  | Ret (Some true) => n = 1%nat
  | _ => n = 0%nat
  end.

(** The guest is never asked to run for no time or for a negative one. *)
Definition positive_delay (ev : event) : Prop :=
  match ev with
  | Monitor (StopDelayed ns) => 0 < ns
  | _ => True
  end.

(** ** Physical ranges of a process ([find_phys_ranges.py]) *)

Definition PAGE_SIZE : Z := 4096.
Definition PAGEMAP_ENTRY_BYTES : Z := 8.
Definition PFN_MASK : Z := Z.shiftl 1 55 - 1.

(** The order of Python on pairs of integers. *)
Definition tuple_le (x y : Z * Z) : Prop :=
  x.1 < y.1 \/ (x.1 = y.1 /\ x.2 <= y.2).

#[global] Instance tuple_le_dec x y : Decision (tuple_le x y).
Proof. unfold tuple_le. apply _. Defined.

(** [sorted(ranges)] *)
Definition sorted (ranges : list (Z * Z)) : list (Z * Z) := merge_sort tuple_le ranges.

(** The [for start, end in sorted_ranges[1:]] loop of [merge_ranges]: the
    list [merged] is carried as its last element [last] and the elements
    [done] before it. *)
Fixpoint merge_loop (done : list (Z * Z)) (last : Z * Z) (rest : list (Z * Z))
    : list (Z * Z) :=
  match rest with
  | [] => done ++ [last]
  | (start, end_) :: rest' =>
      let '(last_start, last_end) := last in
      if start =? last_end then merge_loop done (last_start, end_) rest'
      else merge_loop (done ++ [last]) (start, end_) rest'
  end.

Definition merge_ranges (ranges : list (Z * Z)) : list (Z * Z) :=
  match ranges with
  | [] => []
  | _ :: _ =>
      match sorted ranges with
      | first :: rest => merge_loop [] first rest
      | [] => []
      end
  end.

(** A pagemap file is its bytes. [f.seek(index); f.read(8)] gives the
    bytes from [index] on, eight of them unless the file ends before; a
    negative position, or one beyond the range of a file offset, makes
    [seek] raise. *)
Definition seek_read (f : list Byte.byte) (index : Z) : outcome (list Byte.byte) :=
  if (index <? 0) || (2 ^ 63 <=? index) then Raise OSError
  else Ret (take 8 (drop (Z.to_nat index) f)).

(** The [for vaddr in vaddrs] loop of [read_pagemap_entries], on a host
    whose byte order is little-endian. An exception inside the loop leaves
    through the [except] clause around it, and the function returns what
    [results] holds by then: the flag tells whether the loop was left that
    way. *)
Fixpoint pagemap_loop (f : list Byte.byte) (vaddrs : list Z) (results : list (Z * Z))
    : list (Z * Z) * bool :=
  match vaddrs with
  | [] => (results, false)
  | vaddr :: rest =>
      let index := (vaddr / PAGE_SIZE) * PAGEMAP_ENTRY_BYTES in
      match seek_read f index with
      | Raise _ => (results, true)
      | Ret data =>
          if negb (length data =? 8)%nat then pagemap_loop f rest results
          else
            let entry := from_bytes_little data in
            let present := Z.land (Z.shiftr entry 63) 1 in
            let pfn := Z.land entry PFN_MASK in
            if negb (present =? 0) && negb (pfn =? 0) then
              let phys_addr := pfn * PAGE_SIZE in
              pagemap_loop f rest (results ++ [(vaddr, phys_addr)])
            else pagemap_loop f rest results
      end
  end.

(** [read_pagemap_entries(pid, vaddrs)], the pagemap files of the host
    being [pagemaps]: the entries, and whether the failure message was
    printed. A process without a readable pagemap gives no entry. *)
Definition read_pagemap_entries (pagemaps : gmap Z (list Byte.byte)) (pid : Z)
    (vaddrs : list Z) : list (Z * Z) * bool :=
  match pagemaps !! pid with
  | Some f => pagemap_loop f vaddrs []
  | None => ([], true)
  end.

(** [range(start, end, PAGE_SIZE)] *)
Definition page_range (start end_ : Z) : list Z :=
  (fun i => start + i * PAGE_SIZE) <$> seqZ 0 ((end_ - start + PAGE_SIZE - 1) / PAGE_SIZE).

(** [get_phys_for_pid(pid)], the readable mappings of the process, which
    [parse_maps] reads from its [maps] file, being [maps]. *)
Definition get_phys_for_pid (pagemaps : gmap Z (list Byte.byte)) (maps : list (Z * Z))
    (pid : Z) : list (Z * Z) :=
  let vaddrs := maps ≫= (fun '(start, end_) => page_range start end_) in
  (read_pagemap_entries pagemaps pid vaddrs).1.

(** The set [all_phys] that [main] collects from the entries of all
    processes, as the list of its elements. *)
Definition all_phys (entries : list (Z * Z)) : list (Z * Z) :=
  remove_dups ((fun '(_, paddr) => (paddr, paddr + PAGE_SIZE)) <$> entries).

(** The addresses that a list of ranges covers. *)
Definition covers (ranges : list (Z * Z)) (a : Z) : Prop :=
  exists r, r ∈ ranges /\ r.1 <= a < r.2.

(** Ranges that follow one another with a gap between them. *)
Definition gap_before (x y : Z * Z) : Prop := x.2 < y.1.

(** A pagemap whose first page is absent and whose next two pages lie in
    adjacent frames. *)
Definition sample_pagemap : list Byte.byte :=
  to_bytes_digits 8 0
  ++ to_bytes_digits 8 (2 ^ 63 + 7)
  ++ to_bytes_digits 8 (2 ^ 63 + 8).

(** What the loop of [read_pagemap_entries] adds to [results]: for an
    address of the list, the frame of its entry, the entry being marked
    present (bit 63) and its frame (bits 0 to 54) not zero. *)
Definition decoded (f : list Byte.byte) (vaddrs : list Z) (r : Z * Z) : Prop :=
  r.1 ∈ vaddrs /\ 0 <= r.1 /\
  let entry := from_bytes_little (take 8 (drop (Z.to_nat (r.1 / PAGE_SIZE * 8)) f)) in
  Z.testbit entry 63 = true /\ 0 < entry mod 2 ^ 55 /\ r.2 = entry mod 2 ^ 55 * PAGE_SIZE.

(** *** Descendants of a process ([find_all_descendants]) *)

(** One line of [ps -eo pid,ppid]: a line of two fields gives the pair of
    its numbers, [int] raising on a field that is no number; any other
    line is passed over. *)
Definition parse_row (line : string) : outcome (option (Z * Z)) :=
  match words_of (chars (strip line)) [] with
  | [a; b] =>
      pid ← py_int 10 a;
      ppid ← py_int 10 b;
      Ret (Some (pid, ppid))
  | _ => Ret None
  end.

(** [child_map.setdefault(ppid, []).append(pid)] over the lines. *)
Fixpoint child_map_loop (lines : list string) (child_map : gmap Z (list Z))
    : outcome (gmap Z (list Z)) :=
  match lines with
  | [] => Ret child_map
  | line :: rest =>
      row ← parse_row line;
      match row with
      | None => child_map_loop rest child_map
      | Some (pid, ppid) =>
          child_map_loop rest (<[ppid := default [] (child_map !! ppid) ++ [pid]]> child_map)
      end
  end.

(** [child_map.get(current, [])] *)
Definition children (child_map : gmap Z (list Z)) (current : Z) : list Z :=
  default [] (child_map !! current).

(** The [for child in ...] loop: a child not seen before is added to the
    set and to the end of the queue. *)
Fixpoint visit (cs : list Z) (all_pids : gset Z) (queue : list Z) : gset Z * list Z :=
  match cs with
  | [] => (all_pids, queue)
  | child :: cs' =>
      if decide (child ∈ all_pids) then visit cs' all_pids queue
      else visit cs' ({[child]} ∪ all_pids) (queue ++ [child])
  end.

(** The [while queue] loop. *)
Fixpoint bfs (fuel : nat) (child_map : gmap Z (list Z)) (all_pids : gset Z) (queue : list Z)
    : outcome (gset Z) :=
  match queue with
  | [] => Ret all_pids
  | current :: queue' =>
      match fuel with
      | O => Raise OutOfFuel
      | S fuel' =>
          let '(all_pids', queue'') := visit (children child_map current) all_pids queue' in
          bfs fuel' child_map all_pids' queue''
      end
  end.

(** All the entries of the lists of [child_map]. *)
Definition edges (child_map : gmap Z (list Z)) : list Z :=
  map_to_list child_map ≫= snd.

(** [find_all_descendants(pids)], the lines that [ps] printed being
    [lines]; the first of them is the header. Each process enters the queue
    once, so the loop is given one turn for each process id at hand. *)
Definition find_all_descendants (lines : list string) (pids : list Z) : outcome (list Z) :=
  child_map ← child_map_loop (tail lines) ∅;
  all_pids ← bfs (length pids + length (edges child_map)) child_map (list_to_set pids) pids;
  Ret (merge_sort Z.le (elements all_pids)).

(** A line of the table says that [pid] is a child of [ppid]. *)
Definition row (lines : list string) (ppid pid : Z) : Prop :=
  exists line, line ∈ tail lines /\ parse_row line = Ret (Some (pid, ppid)).

(** A process is one of [pids] or descends from one of them. *)
Definition descendant (lines : list string) (pids : list Z) (p : Z) : Prop :=
  exists p0, p0 ∈ pids /\ rtc (row lines) p0 p.

(** A process table: [init] with two children, one of which has a child of
    its own, and a process outside the tree. *)
Definition sample_ps : list string :=
  [ "    PID    PPID"; "      1       0"; "    100       1"; "    200       1";
    "    300     200"; "    999       2" ].

(** The addresses that one line of a range file adds. *)
Definition line_addresses (l : string) : list Z :=
  if skipped_silently l then []
  else match range_line_addresses (strip l) with
       | Ret addrs => addrs
       | Raise _ => []
       end.



(** The registers that a call of [list_registers] in the world [w] gives. *)
Definition listed (w : World) : list string :=
  match (run list_registers w).1 with
  | Ret lr => fst <$> lr
  | Raise _ => []
  end.

(** A pattern selects a register name: no pattern, or the empty one,
    selects every name. *)
Definition selects (register_name : option string) (r : string) : Prop :=
  match register_name with
  | Some pat => pat = "" \/ wildcard_match (split_chars "*" (chars pat)) (chars r) = true
  | None => True
  end.

(** What [inject_reg_internal] adds to the record: its messages, and
    records of registers among [names] that the pattern selects. *)
Definition register_target (names : list string) (register_name : option string)
    (ev : event) : Prop :=
  match ev with
  | Printed _ => True
  | Logged t _ _ =>
      exists r, t = RegisterName r /\ r ∈ names /\ selects register_name r
  | Monitor _ | Serial _ => False
  end.

(** ** The injection log ([logger.py])

    The module keeps one logger, or none; a CSV file is the list of its
    rows, a row the list of its fields. Opening a file is taken to
    succeed. *)
Module CsvLog.

Definition row : Type := list string.

Record state : Type := mk {
  logger : option string;
  csv : gmap string (list row);
  printed : list string
}.

Definition header : row := ["Address/Register"; "Old Value"; "New Value"].

(** [CsvLogger(filename)]: mode ['w'] empties the file, then the header is
    written. *)
Definition CsvLogger (filename : string) (s : state) : state :=
  mk (logger s) (<[filename := [header]]> (csv s)) (printed s).

(** [CsvLogger.log]: mode ['a'] adds a row at the end of the file, which is
    created if it is not there. *)
Definition log (filename : string) (r : row) (s : state) : state :=
  mk (logger s) (<[filename := default [] (csv s !! filename) ++ [r]]> (csv s)) (printed s).

Definition init_logger (filename : string) (s : state) : state :=
  let s' := CsvLogger filename s in
  mk (Some filename) (csv s') (printed s').

Definition log_single (address_or_register old_value new_value : string) (s : state)
    : state :=
  match logger s with
  | Some filename => log filename [address_or_register; old_value; new_value] s
  | None =>
      mk (logger s) (csv s)
         (printed s ++ ["Injected bitflip into address/register %s: old value %s -> new value %s"])
  end.

(** A run of injections: [log_single] for each record in turn. *)
Definition log_all (records : list (string * string * string)) (s : state) : state :=
  foldl (fun s '(a, o, n) => log_single a o n s) s records.

Definition row_of (record : string * string * string) : row :=
  let '(a, o, n) := record in [a; o; n].

End CsvLog.

(** The register [r] shares its storage with none of the registers that
    [selected] holds of: none of them, as the world has it, counts [r]
    among its aliases. *)
Definition unaliased (selected : string -> Prop) (r : string) (w : World) : Prop :=
  forall s reg,
    selected s -> assoc s (registers w) = Some reg -> r ∉ (fst <$> aliases reg).

(** The register [r], which the [selected] registers do not alias, and
    guest memory are left as they were, and the aliases stay what they
    are. *)
Definition spares (selected : string -> Prop) (r : string) (w w' : World) : Prop :=
  unaliased selected r w ->
  unaliased selected r w' /\
  assoc r (registers w') = assoc r (registers w) /\ memory w' = memory w.

(** A register file in which [d0] is a view of the low word of [v0], as on
    AArch64; its type is none of the register list's. *)
Definition aliased_registers : list (string * Register) :=
  [ ("x0", mkRegister "long" 8 [5] (fun _ v => wrap_int64 v) []);
    ("v0", mkRegister "union aarch64v" 16 [7; 9] (fun _ v => wrap_int64 v)
                      [("d0", fun ws _ => take 1 ws)]);
    ("d0", mkRegister "vnd" 8 [7] (fun _ v => wrap_int64 v)
                      [("v0", fun ws old => ws ++ drop 1 old)]) ].

Definition aliased_world : World :=
  mkWorld sample_memory aliased_registers None sample_mtree ∅ [] [] [].

(** The pagemap entry of a virtual address, and what it says: the physical
    address of the page when the page is present (bit 63) with a frame
    number (bits 0 to 54) other than zero. *)
Definition pagemap_entry (f : list Byte.byte) (vaddr : Z) : list Byte.byte :=
  take 8 (drop (Z.to_nat (vaddr / PAGE_SIZE * 8)) f).

Definition resident (f : list Byte.byte) (vaddr : Z) : option (Z * Z) :=
  let data := pagemap_entry f vaddr in
  let entry := from_bytes_little data in
  if bool_decide (length data = 8%nat) && Z.testbit entry 63
     && negb (entry mod 2 ^ 55 =? 0)
  then Some (vaddr, entry mod 2 ^ 55 * PAGE_SIZE)
  else None.

(** The address spaces that the [AS] lines of a header name, in the order
    of the lines. *)
Definition header_names (hdr : list string) : list string :=
  omap (fun l => if is_AS_line l
                 then Some (nth 1 (split (rstrip l) dquote) "")
                 else None) hdr.

(** The lines that the range loop of a section keeps, and the lines at
    which it ends: the start of the next section, or a line that is empty
    once stripped on the right. *)
Definition is_range_line (l : string) : bool :=
  startswith (rstrip l) "  " && _is_memory_range_line (rstrip l).

Definition ends_ranges (l : string) : bool :=
  negb (is_range_line l) && (is_flatview_line l || bool_decide (rstrip l = "")).

(** The range lines among the lines of a section's body, as the loop keeps
    them. *)
Definition body_ranges (lines : list string) : list string :=
  rstrip <$> filter (fun l => is_range_line l = true) lines.

Definition range_loop_warning : event :=
  Printed "Warning: Unexpected line in memory ranges: {line!r}".

(** The emulator reacts to a command that changes the guest: the guest's
    memory and registers become what the session's next reaction makes of
    them. *)
Definition guest_reaction (σ σ' : World) : Prop :=
  exists cmd react rest,
    changes_guest cmd = true /\ guest σ = react :: rest /\ guest σ' = rest /\
    (memory σ', registers σ') = react cmd (memory σ, registers σ).

(** From [σ] to [σ'] the component [f] of the guest has changed only as
    the emulator changed it: [σ'] is reached by reactions of the emulator
    and by steps that leave [f], and the reactions to come, as they
    were. *)
Definition untouched {X} (f : World -> X) : World -> World -> Prop :=
  rtc (fun σ σ' => (f σ' = f σ /\ guest σ' = guest σ) \/ guest_reaction σ σ').

(** A session whose guest stands still: no reaction is left. *)
Definition idle_world (regs : list (string * Register)) (entropy : list Z) : World :=
  mkWorld sample_memory regs None sample_mtree ∅ entropy [] [].

(** A session whose memory tree has no RAM: the ["memory"] address space
    holds one I/O range. *)
Definition no_ram_world : World :=
  mkWorld sample_memory sample_registers None
          (unlines [ "FlatView #0";
                     q (q " AS " +:+ "memory") +:+ ", root: system";
                     " Root memory region: system";
                     "  0000000008000000-0000000008000fff (prio 0, i/o): gic_dist" ])
          ∅ [0; 0; 0] [] [].

(* ================================================================== *)
(** * Properties *)

(** Running a sequence and a [try] block. *)
Lemma run_bind {A B} (m : M A) (f : A -> M B) w :
  run (m ≫= f) w =
    match run m w with
    | (Ret a, w') => run (f a) w'
    | (Raise e, w') => (Raise e, w')
    end.
Proof. reflexivity. Qed.

Lemma run_try_except {A} (body : M A) caught handler w :
  run (try_except body caught handler) w =
    match run body w with
    | (Raise e, w') => if caught e then run (handler e) w' else (Raise e, w')
    | r => r
    end.
Proof. reflexivity. Qed.

Ltac mstep := rewrite run_bind; cbn [run mret M_ret].


Section RandomAddress.
Import FlatView.

Lemma sum_lens_cons s e rs : sum_lens ((s, e) :: rs) = (e - s) + sum_lens rs.
Proof. reflexivity. Qed.

Lemma sum_lens_app rs1 rs2 : sum_lens (rs1 ++ rs2) = sum_lens rs1 + sum_lens rs2.
Proof.
  induction rs1 as [|[s e] rs1 IH]; [reflexivity|].
  simpl app. rewrite !sum_lens_cons, IH. lia.
Qed.

(** The loop of the source and the reference walk are the same function:
    [offset + start < end] is [offset < end - start], and
    [offset + start - end] is [offset - (end - start)]. *)
Lemma random_address_loop_reference rs offset :
  random_address_loop rs offset = reference_walk rs offset.
Proof.
  revert offset. induction rs as [|[s e] rs IH]; intros offset; simpl; [done|].
  destruct (Z.ltb_spec (offset + s) e), (Z.ltb_spec offset (e - s)); try lia.
  - f_equal. lia.
  - rewrite IH. f_equal. lia.
Qed.

(** Walking positive-width ranges with an offset below the total width
    stops in the range whose width interval contains the offset. *)
Lemma reference_walk_prefix rs offset :
  Forall (fun r => r.1 < r.2) rs ->
  0 <= offset < sum_lens rs ->
  exists pre s e post,
    rs = pre ++ (s, e) :: post /\
    sum_lens pre <= offset < sum_lens pre + (e - s) /\
    reference_walk rs offset = Ret (s + (offset - sum_lens pre)).
Proof.
  revert offset. induction rs as [|[s e] rs IH]; intros offset Hpos Hoff.
  - cbn in Hoff. lia.
  - rewrite sum_lens_cons in Hoff. inversion Hpos as [|? ? Hse Hrest]; subst.
    simpl in Hse. simpl. destruct (Z.ltb_spec offset (e - s)) as [Hlt|Hge].
    + exists [], s, e, rs. cbn. repeat split; try lia. f_equal. lia.
    + destruct (IH (offset - (e - s)) Hrest) as (pre & s' & e' & post & -> & Hin & Hw);
        [lia|].
      exists ((s, e) :: pre), s', e', post. rewrite sum_lens_cons.
      repeat split; try lia. rewrite Hw. f_equal. lia.
Qed.

Lemma randint_in_range (L off : Z) :
  0 <= off < L -> randint 0 (L - 1) off = Ret off.
Proof.
  intros H. unfold randint. destruct (Z.ltb_spec (L - 1) 0); [lia|].
  f_equal. rewrite Z.mod_small; lia.
Qed.

Lemma sum_lens_nonpos rs :
  Forall (fun r => r.2 <= r.1) rs -> sum_lens rs <= 0.
Proof.
  induction 1 as [|[s e] rs Hse _ IH]; [cbn; lia|].
  rewrite sum_lens_cons. simpl in Hse. lia.
Qed.
End RandomAddress.

(** The ranges that [ram_ranges] selects are the ranges of kind ["ram"]. *)
Lemma ram_ranges_kinded fv : FlatView.ram_ranges fv = bounds (ram_kinded fv).
Proof. reflexivity. Qed.

Lemma ram_kinded_elem fv r :
  r ∈ ram_kinded fv <-> r ∈ FlatView.ranges fv /\ MemoryRange.kind r = "ram".
Proof. unfold ram_kinded. rewrite list_elem_of_filter. tauto. Qed.

Lemma bounds_elem rs s e :
  (s, e) ∈ bounds rs <->
  exists r, r ∈ rs /\ MemoryRange.start r = s /\ MemoryRange.end_ r = e.
Proof.
  unfold bounds. rewrite list_elem_of_fmap. split.
  - intros (r & [= -> ->] & Hin). by exists r.
  - intros (r & Hin & <- & <-). by exists r.
Qed.

Lemma bounds_Forall (P : Z -> Z -> Prop) rs :
  Forall (fun r => P (MemoryRange.start r) (MemoryRange.end_ r)) rs ->
  Forall (fun p => P p.1 p.2) (bounds rs).
Proof. intros H. unfold bounds. by apply Forall_fmap. Qed.

(** C1: on a view whose ranges of kind ["ram"] all have [start < end], and
    for a drawn offset [off] in [[0, L)], [L] being the sum of
    [end - start] over those ranges, [random_address] returns what the
    reference algorithm returns on them, namely
    [start_i + (off - prefix_sum_i)] for the first of them whose width
    interval contains [off]; that range is a range of the view, its kind is
    ["ram"], and the address lies inside it. *)
Theorem random_address_refines_reference (fv : FlatView.t) (off : Z) :
  Forall (fun r => MemoryRange.start r < MemoryRange.end_ r) (ram_kinded fv) ->
  0 <= off < FlatView.sum_lens (bounds (ram_kinded fv)) ->
  exists pre r post,
    ram_kinded fv = pre ++ r :: post /\
    r ∈ FlatView.ranges fv /\ MemoryRange.kind r = "ram" /\
    FlatView.sum_lens (bounds pre) <= off
      < FlatView.sum_lens (bounds pre) + (MemoryRange.end_ r - MemoryRange.start r) /\
    FlatView.random_address fv off
      = Ret (MemoryRange.start r + (off - FlatView.sum_lens (bounds pre))) /\
    FlatView.reference_walk (bounds (ram_kinded fv)) off
      = Ret (MemoryRange.start r + (off - FlatView.sum_lens (bounds pre))) /\
    MemoryRange.start r
      <= MemoryRange.start r + (off - FlatView.sum_lens (bounds pre))
      < MemoryRange.end_ r.
Proof.
  intros Hpos Hoff.
  destruct (reference_walk_prefix (bounds (ram_kinded fv)) off)
    as (pre' & s & e & post' & Heq & Hin & Hw); [|done|].
  { by apply (bounds_Forall (fun s e => s < e)). }
  unfold bounds in Heq.
  apply fmap_app_inv in Heq as (pre & rest & -> & Hrest & Hsplit).
  symmetry in Hrest. apply fmap_cons_inv in Hrest as (r & post & [= -> ->] & _ & ->).
  change (_ <$> pre) with (bounds pre) in Hin, Hw.
  assert (Hr : r ∈ ram_kinded fv).
  { rewrite Hsplit. apply elem_of_app. right. by left. }
  apply ram_kinded_elem in Hr as [Hr Hkind].
  exists pre, r, post. split; [done|]. split; [done|]. split; [done|]. split; [done|].
  split; [|split; [done|lia]].
  unfold FlatView.random_address. rewrite ram_ranges_kinded.
  rewrite randint_in_range by done. simpl.
  by rewrite random_address_loop_reference.
Qed.

Lemma random_address_refines_reference_witness :
  exists pre r post,
    ram_kinded sample_view = pre ++ r :: post /\
    r ∈ FlatView.ranges sample_view /\ MemoryRange.kind r = "ram" /\
    FlatView.sum_lens (bounds pre) <= 6144
      < FlatView.sum_lens (bounds pre) + (MemoryRange.end_ r - MemoryRange.start r) /\
    FlatView.random_address sample_view 6144
      = Ret (MemoryRange.start r + (6144 - FlatView.sum_lens (bounds pre))) /\
    FlatView.reference_walk (bounds (ram_kinded sample_view)) 6144
      = Ret (MemoryRange.start r + (6144 - FlatView.sum_lens (bounds pre))) /\
    MemoryRange.start r
      <= MemoryRange.start r + (6144 - FlatView.sum_lens (bounds pre))
      < MemoryRange.end_ r.
Proof.
  apply (random_address_refines_reference sample_view 6144).
  - vm_compute. repeat constructor.
  - vm_compute. split; [discriminate | reflexivity].
Defined.

Example random_address_sample : FlatView.random_address sample_view 6144 = Ret 18432.
Proof. reflexivity. Qed.

(** C10: on a view with no RAM range of positive length, [random_address]
    raises ([randint] over an empty interval) whatever the entropy, and so
    does [sample_address] whenever the memory tree's ["memory"] view is such
    a view. *)
Theorem random_address_raises_without_ram (fv : FlatView.t) (draw : Z)
    (views : gmap string FlatView.t) (σ : World) :
  Forall (fun r => r.2 <= r.1) (FlatView.ram_ranges fv) ->
  views !! "memory" = Some fv ->
  FlatView.random_address fv draw = Raise ValueError /\
  (exists σ', run (memory_random_address views) σ = (Raise ValueError, σ')) /\
  (forall σ1, run mtree σ = (Ret views, σ1) ->
     exists σ', run sample_address σ = (Raise ValueError, σ')).
Proof.
  intros Hempty Hlook.
  assert (Hraise : forall d, FlatView.random_address fv d = Raise ValueError).
  { intros d. unfold FlatView.random_address, randint.
    pose proof (sum_lens_nonpos _ Hempty).
    destruct (Z.ltb_spec (FlatView.sum_lens (FlatView.ram_ranges fv) - 1) 0); [done|lia]. }
  assert (Hmem : forall σ0, exists σ',
            run (memory_random_address views) σ0 = (Raise ValueError, σ')).
  { intros σ0. unfold memory_random_address. rewrite Hlook.
    eexists. cbn. rewrite Hraise. reflexivity. }
  split; [apply Hraise|]. split; [apply Hmem|].
  intros σ1 Hm. unfold sample_address. rewrite run_bind, Hm. apply Hmem.
Qed.

Lemma random_address_raises_without_ram_witness :
  FlatView.random_address empty_ram_view 42 = Raise ValueError /\
  (exists σ', run (memory_random_address {[ "memory" := empty_ram_view ]}) sample_world
              = (Raise ValueError, σ')) /\
  (forall σ1, run mtree sample_world = (Ret {[ "memory" := empty_ram_view ]}, σ1) ->
     exists σ', run sample_address sample_world = (Raise ValueError, σ')).
Proof.
  apply (random_address_raises_without_ram empty_ram_view 42 _ sample_world).
  - vm_compute. repeat constructor. discriminate.
  - apply lookup_singleton_eq.
Defined.

(** In a session whose ["memory"] address space has no RAM,
    [sample_address] raises, and so does the first step of a RAM campaign,
    before anything is flipped or logged. *)
Example sample_address_without_ram :
  (run sample_address no_ram_world).1 = Raise ValueError /\
  (run (autoinject_inner 3 5 5 ram) no_ram_world).1 = Raise ValueError /\
  events (run (autoinject_inner 3 5 5 ram) no_ram_world).2
    = [Monitor Cont; Monitor (StopDelayed 5); Monitor InfoMtree] /\
  memory (run (autoinject_inner 3 5 5 ram) no_ram_world).2 = memory no_ram_world.
Proof. vm_compute. repeat split; reflexivity. Qed.

(** ** RAM bit flips *)

Section Bytes.
Lemma Z_of_byte_range b : 0 <= Z_of_byte b < 256.
Proof. unfold Z_of_byte. pose proof (Byte.to_N_bounded b). lia. Qed.

Lemma Z_of_byte_of_Z v : Z_of_byte (byte_of_Z v) = v mod 256.
Proof.
  unfold Z_of_byte, byte_of_Z.
  pose proof (Z.mod_pos_bound v 256 ltac:(lia)) as Hv.
  pose proof (Byte.to_of_N_option_map (Z.to_N (v mod 256))) as H.
  destruct (N.leb_spec (Z.to_N (v mod 256)) 255) as [_|Hgt]; [|lia].
  destruct (Byte.of_N (Z.to_N (v mod 256))) as [y|]; simpl in H; [|done].
  simpl. injection H as ->. lia.
Qed.

Lemma byte_of_Z_of_byte b : byte_of_Z (Z_of_byte b) = b.
Proof.
  unfold byte_of_Z. rewrite Z.mod_small by apply Z_of_byte_range.
  unfold Z_of_byte. rewrite N2Z.id, Byte.of_to_N. done.
Qed.

Lemma byte_of_Z_low b acc : byte_of_Z (Z_of_byte b + 256 * acc) = b.
Proof.
  rewrite <- (byte_of_Z_of_byte b) at 2. unfold byte_of_Z.
  replace ((Z_of_byte b + 256 * acc) mod 256) with (Z_of_byte b mod 256); [done|].
  symmetry. replace (Z_of_byte b + 256 * acc) with (Z_of_byte b + acc * 256) by lia.
  apply Z.mod_add. lia.
Qed.

Lemma from_bytes_little_range bs :
  0 <= from_bytes_little bs < 256 ^ Z.of_nat (length bs).
Proof.
  induction bs as [|b bs IH]; [cbn; lia|].
  cbn [from_bytes_little foldr length]. fold (from_bytes_little bs).
  rewrite Nat2Z.inj_succ, Z.pow_succ_r by lia.
  pose proof (Z_of_byte_range b). lia.
Qed.

Lemma to_bytes_digits_length n v : length (to_bytes_digits n v) = n.
Proof. revert v. induction n; intros; simpl; [done|]. by rewrite IHn. Qed.

Lemma from_to_bytes n v :
  0 <= v < 256 ^ Z.of_nat n -> from_bytes_little (to_bytes_digits n v) = v.
Proof.
  revert v. induction n as [|n IH]; intros v Hv.
  - cbn in *. lia.
  - rewrite Nat2Z.inj_succ, Z.pow_succ_r in Hv by lia.
    cbn [to_bytes_digits from_bytes_little foldr].
    fold (from_bytes_little (to_bytes_digits n (v / 256))).
    rewrite IH, Z_of_byte_of_Z.
    + pose proof (Z.div_mod v 256 ltac:(lia)). lia.
    + split; [apply Z.div_pos; lia|]. apply Z.div_lt_upper_bound; lia.
Qed.

Lemma to_from_bytes bs :
  to_bytes_digits (length bs) (from_bytes_little bs) = bs.
Proof.
  induction bs as [|b bs IH]; [done|].
  cbn [length to_bytes_digits from_bytes_little foldr].
  fold (from_bytes_little bs). rewrite byte_of_Z_low. f_equal.
  pose proof (Z_of_byte_range b).
  replace ((Z_of_byte b + 256 * from_bytes_little bs) / 256)
    with (from_bytes_little bs); [exact IH|].
  replace (Z_of_byte b + 256 * from_bytes_little bs)
    with (Z_of_byte b + from_bytes_little bs * 256) by lia.
  rewrite Z.div_add, Z.div_small by lia. lia.
Qed.

Lemma read_bytes_length m a n bs : read_bytes m a n = Some bs -> length bs = n.
Proof.
  revert a bs. induction n as [|n IH]; intros a bs; simpl.
  - by intros [= <-].
  - destruct (m !! a) as [b|]; simpl; [|done].
    destruct (read_bytes m (a + 1) n) as [bs'|] eqn:E; simpl; [|done].
    intros [= <-]. simpl. f_equal. by eapply IH.
Qed.

Lemma write_bytes_lookup_lt a bs m i :
  i < a -> write_bytes a bs m !! i = m !! i.
Proof.
  revert a. induction bs as [|b bs IH]; intros a Hi; simpl; [done|].
  rewrite lookup_insert_ne by lia. apply IH. lia.
Qed.

Lemma read_write_bytes a bs m :
  read_bytes (write_bytes a bs m) a (length bs) = Some bs.
Proof.
  revert a m. induction bs as [|b bs IH]; intros a m; simpl; [done|].
  rewrite lookup_insert_eq. simpl.
  assert (Hfr : forall n m' r a' c, a' < r ->
    read_bytes (<[a' := c]> m') r n = read_bytes m' r n).
  { clear. induction n as [|n IHn]; intros m' r a' c Ha; simpl; [done|].
    rewrite lookup_insert_ne by lia. destruct (m' !! r); simpl; [|done].
    rewrite IHn by lia. done. }
  rewrite Hfr by lia. rewrite IH. done.
Qed.

Lemma write_bytes_overwrite a bs bs' m :
  length bs = length bs' ->
  write_bytes a bs (write_bytes a bs' m) = write_bytes a bs m.
Proof.
  revert a bs' m. induction bs as [|b bs IH]; intros a [|b' bs'] m Hlen;
    simpl in *; try done.
  assert (Hcomm : forall l x c (m' : gmap Z Byte.byte), x < a + 1 ->
    write_bytes (a + 1) l (<[x := c]> m') = <[x := c]> (write_bytes (a + 1) l m')).
  { clear. generalize (a + 1). intros z l. revert z.
    induction l as [|y l IHl]; intros z x c m' Hx; simpl; [done|].
    rewrite IHl by lia. apply insert_insert_ne. lia. }
  rewrite Hcomm by lia. rewrite insert_insert_eq. f_equal. apply IH. lia.
Qed.

Lemma write_read_bytes a n bs m :
  read_bytes m a n = Some bs -> write_bytes a bs m = m.
Proof.
  revert a bs. induction n as [|n IH]; intros a bs; simpl.
  - by intros [= <-].
  - destruct (m !! a) as [b|] eqn:Hb; simpl; [|done].
    destruct (read_bytes m (a + 1) n) as [bs'|] eqn:E; simpl; [|done].
    intros [= <-]. simpl. rewrite (IH _ _ E). by apply insert_id.
Qed.
End Bytes.

Section BitFlip.

Lemma lxor_bit_range x k b :
  0 <= x < 2 ^ k -> 0 <= b < k -> 0 <= Z.lxor x (2 ^ b) < 2 ^ k.
Proof.
  intros Hx Hb.
  assert (0 < 2 ^ b) by (apply Z.pow_pos_nonneg; lia).
  assert (Hnn : 0 <= Z.lxor x (2 ^ b)) by (apply Z.lxor_nonneg; lia).
  split; [done|].
  destruct (Z.eq_dec (Z.lxor x (2 ^ b)) 0) as [->|Hne]; [lia|].
  apply Z.log2_lt_pow2; [lia|].
  eapply Z.le_lt_trans; [apply Z.log2_lxor; lia|].
  apply Z.max_lub_lt.
  - destruct (Z.eq_dec x 0) as [->|]; [cbn; lia|]. apply Z.log2_lt_pow2; lia.
  - rewrite Z.log2_pow2; lia.
Qed.

Lemma lxor_bit_changes x b : 0 <= b -> Z.lxor x (2 ^ b) <> x.
Proof.
  intros Hb Heq.
  assert (H0 : Z.lxor x (Z.lxor x (2 ^ b)) = 0) by (rewrite Heq; apply Z.lxor_nilpotent).
  rewrite <- Z.lxor_assoc, Z.lxor_nilpotent, Z.lxor_0_l in H0.
  pose proof (Z.pow_pos_nonneg 2 b). lia.
Qed.

Lemma lxor_bit_involutive x m : Z.lxor (Z.lxor x m) m = x.
Proof. by rewrite Z.lxor_assoc, Z.lxor_nilpotent, Z.lxor_0_r. Qed.

Lemma pow_256 w : 0 <= w -> 256 ^ Z.of_nat (Z.to_nat w) = 2 ^ (8 * w).
Proof. intros. rewrite Z2Nat.id by lia. rewrite Z.pow_mul_r by lia. done. Qed.

Lemma run_read_memory a w σ bs :
  read_bytes (memory σ) a (Z.to_nat w) = Some bs ->
  run (read_memory a w) σ = (Ret bs, σ).
Proof. intros H. unfold read_memory. rewrite run_bind. cbn [run get_world]. by rewrite H. Qed.

Lemma run_write_memory a bs σ old :
  read_bytes (memory σ) a (length bs) = Some old ->
  run (write_memory a bs) σ
    = (Ret tt, mkWorld (write_bytes a bs (memory σ)) (registers σ)
                       (cached_reg_list σ) (mtree_output σ) (files σ)
                       (entropy σ) (events σ) (guest σ)).
Proof. intros H. unfold write_memory. rewrite run_bind. cbn [run get_world]. by rewrite H. Qed.

Lemma inject_bitflip_run a w b σ obytes :
  1 <= w -> 0 <= b < 8 * w ->
  read_bytes (memory σ) a (Z.to_nat w) = Some obytes ->
  let o := from_bytes_little obytes in
  let n := Z.lxor o (2 ^ b) in
  run (inject_bitflip a w (Some b)) σ
    = (Ret tt, flipped a (to_bytes_digits (Z.to_nat w) n) o n σ).
Proof.
  intros Hw Hb Hread o n.
  pose proof (read_bytes_length _ _ _ _ Hread) as Hlen.
  assert (Ho : 0 <= o < 2 ^ (8 * w)).
  { rewrite <- pow_256 by lia. rewrite <- Hlen. apply from_bytes_little_range. }
  pose proof (lxor_bit_range o (8 * w) b Ho Hb) as Hn. fold n in Hn.
  unfold inject_bitflip, py_assert.
  destruct (Z.leb_spec 1 w); [|lia].
  do 3 mstep. rewrite (run_read_memory _ _ _ _ Hread).
  mstep. unfold py_shiftl. destruct (Z.ltb_spec b 0); [lia|].
  cbn [run lift]. rewrite Z.shiftl_1_l. fold o. fold n.
  rewrite run_bind. unfold to_bytes_little.
  destruct (Z.ltb_spec w 0); [lia|]. destruct (Z.ltb_spec n 0); [lia|].
  destruct (Z.leb_spec (2 ^ (8 * w)) n); [lia|]. cbn [run lift].
  rewrite run_bind.
  rewrite (run_write_memory a (to_bytes_digits (Z.to_nat w) n) σ obytes)
    by (by rewrite to_bytes_digits_length).
  rewrite run_bind.
  rewrite (run_read_memory a w _ (to_bytes_digits (Z.to_nat w) n)).
  2:{ cbn [memory]. rewrite <- (to_bytes_digits_length (Z.to_nat w) n) at 2.
      apply read_write_bytes. }
  rewrite from_to_bytes by (rewrite pow_256 by lia; lia).
  rewrite Z.eqb_refl.
  destruct (Z.eqb_spec n o) as [Heq|_]; [by apply lxor_bit_changes in Heq; [|lia]|].
  cbn [andb negb]. rewrite run_bind. cbn [run mret M_ret]. reflexivity.
Qed.
End BitFlip.

(** C5: for a byte width [w >= 1] and a bit [b] of the [w]-byte word at a
    readable address [a], two successive [inject_bitflip(a, w, b)] both
    succeed, the first changes the word and the second leaves guest memory
    exactly as it was before the first. *)
Theorem inject_bitflip_twice_restores (a w b : Z) (σ : World) :
  1 <= w -> 0 <= b < 8 * w ->
  is_Some (read_bytes (memory σ) a (Z.to_nat w)) ->
  exists σ1 σ2,
    run (inject_bitflip a w (Some b)) σ = (Ret tt, σ1) /\
    run (inject_bitflip a w (Some b)) σ1 = (Ret tt, σ2) /\
    read_bytes (memory σ1) a (Z.to_nat w) <> read_bytes (memory σ) a (Z.to_nat w) /\
    read_bytes (memory σ2) a (Z.to_nat w) = read_bytes (memory σ) a (Z.to_nat w) /\
    memory σ2 = memory σ.
Proof.
  intros Hw Hb [obytes Hread].
  pose proof (read_bytes_length _ _ _ _ Hread) as Hlen.
  set (o := from_bytes_little obytes). set (n := Z.lxor o (2 ^ b)).
  assert (Ho : 0 <= o < 2 ^ (8 * w)).
  { rewrite <- pow_256 by lia. rewrite <- Hlen. apply from_bytes_little_range. }
  pose proof (lxor_bit_range o (8 * w) b Ho Hb) as Hn. fold n in Hn.
  set (nbytes := to_bytes_digits (Z.to_nat w) n).
  assert (Hread1 : read_bytes (memory (flipped a nbytes o n σ)) a (Z.to_nat w) = Some nbytes).
  { cbn [flipped memory]. unfold nbytes.
    rewrite <- (to_bytes_digits_length (Z.to_nat w) n) at 2.
    apply read_write_bytes. }
  assert (Hfrom : from_bytes_little nbytes = n).
  { apply from_to_bytes. rewrite pow_256 by lia. lia. }
  assert (Hback : Z.lxor (from_bytes_little nbytes) (2 ^ b) = o).
  { rewrite Hfrom. apply lxor_bit_involutive. }
  assert (Hmem : write_bytes a (to_bytes_digits (Z.to_nat w) o) (write_bytes a nbytes (memory σ))
                 = memory σ).
  { rewrite write_bytes_overwrite by (unfold nbytes; by rewrite !to_bytes_digits_length).
    rewrite <- Hlen. unfold o. rewrite to_from_bytes. by eapply write_read_bytes. }
  exists (flipped a nbytes o n σ),
         (flipped a (to_bytes_digits (Z.to_nat w) o) n o (flipped a nbytes o n σ)).
  split; [by apply inject_bitflip_run|].
  split.
  { pose proof (inject_bitflip_run a w b _ nbytes Hw Hb Hread1) as Hrun.
    cbv zeta in Hrun. rewrite Hback, Hfrom in Hrun. exact Hrun. }
  cbn [flipped memory]. rewrite Hmem.
  split; [|done].
  cbn [flipped memory] in Hread1.
  rewrite Hread1, Hread. intros [= Heq].
  assert (n = o) as Hno by (rewrite <- Hfrom, Heq; done).
  by apply lxor_bit_changes in Hno; [|lia].
Qed.

Lemma inject_bitflip_twice_restores_witness :
  exists σ1 σ2,
    run (inject_bitflip 4096 4 (Some 0)) sample_world = (Ret tt, σ1) /\
    run (inject_bitflip 4096 4 (Some 0)) σ1 = (Ret tt, σ2) /\
    read_bytes (memory σ1) 4096 (Z.to_nat 4) <> read_bytes (memory sample_world) 4096 (Z.to_nat 4) /\
    read_bytes (memory σ2) 4096 (Z.to_nat 4) = read_bytes (memory sample_world) 4096 (Z.to_nat 4) /\
    memory σ2 = memory sample_world.
Proof.
  apply (inject_bitflip_twice_restores 4096 4 0 sample_world).
  - lia.
  - lia.
  - vm_compute. eauto.
Defined.

(** ** Range lines *)

Section RangeLines.

Lemma chars_of_chars cs : chars (of_chars cs) = cs.
Proof. apply list_ascii_of_string_of_list_ascii. Qed.

Lemma of_chars_chars s : of_chars (chars s) = s.
Proof. apply string_of_list_ascii_of_string. Qed.

Lemma of_chars_nonempty cs : cs <> [] -> of_chars cs <> "".
Proof. destruct cs; [done|]. intros _. discriminate. Qed.

Lemma greedy_inv {R} p (k : list ascii -> list ascii -> option R) taken cs r :
  greedy p k taken cs = Some r ->
  exists xs rest,
    cs = xs ++ rest /\ Forall (fun c => p c = true) xs /\
    k (rev xs ++ taken) rest = Some r.
Proof.
  revert taken. induction cs as [|c cs IH]; intros taken; simpl.
  - intros H. by exists [], [].
  - destruct (p c) eqn:Hp.
    + destruct (greedy p k (c :: taken) cs) as [r'|] eqn:Hg.
      * intros [= <-]. destruct (IH _ Hg) as (xs & rest & -> & Hall & Hk).
        exists (c :: xs), rest. split; [done|]. split; [by constructor|].
        simpl. by rewrite <- app_assoc.
      * intros H. by exists [], (c :: cs).
    + intros H. by exists [], (c :: cs).
Qed.

Lemma greedy1_inv {R} p (k : list ascii -> list ascii -> option R) cs r :
  greedy1 p k cs = Some r ->
  exists xs rest,
    cs = xs ++ rest /\ xs <> [] /\ Forall (fun c => p c = true) xs /\
    k (rev xs) rest = Some r.
Proof.
  destruct cs as [|c cs]; simpl; [done|].
  destruct (p c) eqn:Hp; [|done].
  intros H. destruct (greedy_inv _ _ _ _ _ H) as (xs & rest & -> & Hall & Hk).
  exists (c :: xs), rest. split; [done|]. split; [done|]. split; [by constructor|].
  simpl. exact Hk.
Qed.

Lemma re_match_group p r cs caps res :
  re_match (Group p :: r) cs caps = Some res ->
  exists xs rest,
    cs = xs ++ rest /\ xs <> [] /\ Forall (fun c => p c = true) xs /\
    re_match r rest (xs :: caps) = Some res.
Proof.
  simpl. intros H. destruct (greedy1_inv _ _ _ _ H) as (xs & rest & ? & ? & ? & Hk).
  rewrite rev_involutive in Hk. eauto 10.
Qed.

Lemma re_match_plus p r cs caps res :
  re_match (Plus p :: r) cs caps = Some res ->
  exists rest, re_match r rest caps = Some res.
Proof.
  simpl. intros H. destruct (greedy1_inv _ _ _ _ H) as (xs & rest & ? & ? & ? & Hk). eauto.
Qed.

Lemma re_match_star p r cs caps res :
  re_match (Star p :: r) cs caps = Some res ->
  exists rest, re_match r rest caps = Some res.
Proof.
  simpl. intros H. destruct (greedy_inv _ _ _ _ _ H) as (xs & rest & ? & ? & Hk). eauto.
Qed.

Lemma re_match_one p r cs caps res :
  re_match (One p :: r) cs caps = Some res ->
  exists rest, re_match r rest caps = Some res.
Proof.
  simpl. destruct cs as [|c cs]; [done|]. destruct (p c); [|done]. eauto.
Qed.

(** What a match of the range-line pattern captures. *)
Lemma range_line_groups cs res :
  re_match range_line_pattern cs [] = Some res ->
  exists g1 g2 g3 g4 g5,
    res = [g1; g2; g3; g4; g5] /\
    (g1 <> [] /\ Forall (fun c => ishex c = true) g1) /\
    (g2 <> [] /\ Forall (fun c => ishex c = true) g2) /\
    (g3 <> [] /\ Forall (fun c => isdigit c = true) g3) /\
    (g4 <> [] /\ Forall (fun c => not_rparen c = true) g4) /\
    (g5 <> [] /\ Forall (fun c => nonspace c = true) g5).
Proof.
  unfold range_line_pattern, lit. intros H.
  apply re_match_star in H as (? & H).
  apply re_match_group in H as (g1 & ? & _ & ? & ? & H).
  apply re_match_one in H as (? & H).
  apply re_match_group in H as (g2 & ? & _ & ? & ? & H).
  apply re_match_plus in H as (? & H).
  do 5 apply re_match_one in H as (? & H).
  apply re_match_plus in H as (? & H).
  apply re_match_group in H as (g3 & ? & _ & ? & ? & H).
  apply re_match_one in H as (? & H).
  apply re_match_plus in H as (? & H).
  apply re_match_group in H as (g4 & ? & _ & ? & ? & H).
  do 2 apply re_match_one in H as (? & H).
  apply re_match_plus in H as (? & H).
  apply re_match_group in H as (g5 & ? & _ & ? & ? & H).
  simpl in H. injection H as <-.
  exists g1, g2, g3, g4, g5. simpl. done.
Qed.

Lemma dropwhile_head {A} (p : A -> bool) c l : p c = false -> dropwhile p (c :: l) = c :: l.
Proof. intros H. simpl. by rewrite H. Qed.

Lemma dropwhile_app_last {A} (p : A -> bool) m c :
  p c = false -> dropwhile p (m ++ [c]) = dropwhile p m ++ [c].
Proof.
  intros H. induction m as [|x m IH]; simpl; [by rewrite H|].
  destruct (p x); [exact IH|done].
Qed.

(** What [int] passes over is whitespace for [str.isspace] too. *)
Lemma int_space_isspace c : isspace c = false -> int_space c = false.
Proof. destruct c as [[] [] [] [] [] [] [] []]; vm_compute; intros; done. Qed.

(** Stripping keeps a first character that is no whitespace. *)
Lemma int_strip_chars_head c l :
  isspace c = false -> exists l', int_strip_chars (c :: l) = c :: l'.
Proof.
  intros H%int_space_isspace. unfold int_strip_chars.
  rewrite dropwhile_head by done. simpl rev.
  rewrite dropwhile_app_last by done. rewrite rev_app_distr. simpl. eauto.
Qed.

Lemma digit_in_nonneg base c v : digit_in base c = Some v -> 0 <= v.
Proof.
  unfold digit_in, digit_value.
  repeat match goal with
         | |- context [if ?b then _ else _] => destruct b eqn:?
         end; intros [= <-]; lia.
Qed.

Lemma int_digits_nonneg base cs acc v :
  0 <= base -> 0 <= acc -> int_digits base cs acc = Some v -> 0 <= v.
Proof.
  intros Hb. revert acc. induction cs as [cs IH] using (induction_ltof1 _ (@length _)).
  intros acc Hacc. destruct cs as [|c cs]; simpl; [intros [= <-]; done|].
  destruct (Ascii.eqb c "_").
  - destruct cs as [|d cs]; [done|].
    destruct (digit_in base d) as [w|] eqn:Hd; [|done].
    apply IH; [unfold ltof; simpl; lia|]. apply digit_in_nonneg in Hd. nia.
  - destruct (digit_in base c) as [w|] eqn:Hd; [|done].
    apply IH; [unfold ltof; simpl; lia|]. apply digit_in_nonneg in Hd. nia.
Qed.

Lemma int_magnitude_nonneg base cs v :
  0 <= base -> int_magnitude base cs = Some v -> 0 <= v.
Proof.
  intros Hb. destruct cs as [|c cs]; simpl; [done|].
  destruct (digit_in base c) as [w|] eqn:Hd; [|done].
  apply int_digits_nonneg; [done|]. by apply digit_in_nonneg in Hd.
Qed.

(** [int] is non-negative on a literal that starts with neither whitespace
    nor a minus sign. *)
Lemma py_int_nonneg base c cs v :
  0 <= base -> isspace c = false -> Ascii.eqb c "-" = false ->
  py_int base (of_chars (c :: cs)) = Ret v -> 0 <= v.
Proof.
  intros Hb Hsp Hminus. unfold py_int. rewrite chars_of_chars.
  destruct (int_strip_chars_head c cs Hsp) as (l' & ->). rewrite Hminus.
  destruct (Ascii.eqb c "+").
  - destruct (int_magnitude base (skip_base_prefix base l')) as [w|] eqn:Hm; [|done].
    intros [= <-]. apply int_magnitude_nonneg in Hm; lia.
  - destruct (int_magnitude base (skip_base_prefix base (c :: l'))) as [w|] eqn:Hm; [|done].
    intros [= <-]. apply int_magnitude_nonneg in Hm; lia.
Qed.

Lemma ishex_plain c : ishex c = true -> isspace c = false /\ Ascii.eqb c "-" = false.
Proof.
  destruct c as [[] [] [] [] [] [] [] []]; vm_compute; intros; done.
Qed.

Lemma isdigit_plain c : isdigit c = true -> isspace c = false /\ Ascii.eqb c "-" = false.
Proof.
  destruct c as [[] [] [] [] [] [] [] []]; vm_compute; intros; done.
Qed.

End RangeLines.

(** C7, as the code has it: a line that [MemoryRange.parse] accepts gives a
    record with a non-empty name and non-negative start, end and priority.
    Neither [start <= end] nor a non-empty kind is checked by the parser. *)
Theorem parse_succeeds_fields (L : string) (r : MemoryRange.t) :
  MemoryRange.parse L = Ret r ->
  MemoryRange.name r <> "" /\
  0 <= MemoryRange.start r /\ 0 <= MemoryRange.end_ r /\ 0 <= MemoryRange.priority r.
Proof.
  unfold MemoryRange.parse.
  destruct (re_match range_line_pattern (chars (strip L)) []) as [res|] eqn:Hm; [|done].
  destruct (range_line_groups _ _ Hm)
    as (g1 & g2 & g3 & g4 & g5 & -> & [N1 H1] & [N2 H2] & [N3 H3] & _ & [N5 _]).
  destruct (py_int 16 (of_chars g1)) as [s|] eqn:E1; [|done].
  destruct (py_int 16 (of_chars g2)) as [e|] eqn:E2; [|done].
  destruct (py_int 10 (of_chars g3)) as [prio|] eqn:E3; [|done].
  intros [= <-]. simpl.
  split; [by apply of_chars_nonempty|].
  destruct g1 as [|c1 g1]; [done|]. destruct g2 as [|c2 g2]; [done|].
  destruct g3 as [|c3 g3]; [done|].
  apply Forall_cons in H1 as [H1 _]. apply Forall_cons in H2 as [H2 _].
  apply Forall_cons in H3 as [H3 _].
  apply ishex_plain in H1 as [S1 M1]. apply ishex_plain in H2 as [S2 M2].
  apply isdigit_plain in H3 as [S3 M3].
  split; [|split].
  - exact (py_int_nonneg 16 c1 g1 s ltac:(lia) S1 M1 E1).
  - exact (py_int_nonneg 16 c2 g2 e ltac:(lia) S2 M2 E2).
  - exact (py_int_nonneg 10 c3 g3 prio ltac:(lia) S3 M3 E3).
Qed.

Lemma parse_succeeds_fields_witness :
  MemoryRange.name (MemoryRange.mk 0 65535 0 "i/o" "io") <> "" /\
  0 <= 0 /\ 0 <= 65535 /\ 0 <= 0.
Proof.
  apply (parse_succeeds_fields
           "  0000000000000000-000000000000ffff (prio 0, i/o): io"
           (MemoryRange.mk 0 65535 0 "i/o" "io")).
  vm_compute. reflexivity.
Defined.

(** C7 fails as stated: the parser accepts a line whose first number exceeds
    the second, and a line whose kind is blank. *)
Lemma parse_reversed_range_blank_kind :
  ~ (forall L r, MemoryRange.parse L = Ret r ->
       MemoryRange.start r <= MemoryRange.end_ r /\
       MemoryRange.kind r <> "" /\ MemoryRange.name r <> "") /\
  MemoryRange.parse "ffff-0 (prio 0, ram): x" = Ret (MemoryRange.mk 65535 0 0 "ram" "x") /\
  MemoryRange.parse "0-1 (prio 0,  ): x" = Ret (MemoryRange.mk 0 1 0 "" "x").
Proof.
  assert (H1 : MemoryRange.parse "ffff-0 (prio 0, ram): x"
               = Ret (MemoryRange.mk 65535 0 0 "ram" "x")) by (vm_compute; reflexivity).
  split; [|split; [exact H1|vm_compute; reflexivity]].
  intros H. destruct (H _ _ H1) as [Hle _]. simpl in Hle. lia.
Qed.

(** ** The time parser *)

Example sorted_time_units :
  map fst (sorted_items time_units) = [""; "m"; "ms"; "ns"; "s"; "us"].
Proof. reflexivity. Qed.

Example parse_time_10s : parse_time "10s" = Ret 10000000000.
Proof. vm_compute. reflexivity. Qed.

Example parse_time_0ms : parse_time "0ms" = Raise ValueError.
Proof. vm_compute. reflexivity. Qed.

Example parse_time_5ms :
  parse_time "5ms" = Ret 5000000 /\
  parse_time "5000us" = Ret 5000000 /\
  parse_time "5000000ns" = Ret 5000000 /\
  parse_time "2m" = Ret 120000000000.
Proof. vm_compute. auto. Qed.

Section TimeParser.

Lemma digit_facts c :
  isdigit c = true ->
  isspace c = false /\ Ascii.eqb c "_" = false /\ Ascii.eqb c "-" = false /\
  Ascii.eqb c "+" = false /\ digit_in 10 c = Some (code c - 48).
Proof. destruct c as [[] [] [] [] [] [] [] []]; vm_compute; intros; done. Qed.

Lemma int_strip_chars_visible cs :
  Forall (fun c => isspace c = false) cs -> int_strip_chars cs = cs.
Proof.
  intros H. unfold int_strip_chars.
  assert (Hd : forall l, Forall (fun c => isspace c = false) l -> dropwhile int_space l = l).
  { intros [|x l] Hl; [done|]. apply Forall_cons in Hl as [Hx%int_space_isspace _].
    simpl. by rewrite Hx. }
  rewrite (Hd cs H). rewrite Hd; [apply rev_involutive|].
  apply Forall_rev. exact H.
Qed.

Lemma int_digits_decimal ds rest acc :
  Forall (fun c => isdigit c = true) ds ->
  int_digits 10 (ds ++ rest) acc
    = int_digits 10 rest (fold_left (fun a c => a * 10 + (code c - 48)) ds acc).
Proof.
  intros H. revert acc. induction H as [|c ds Hc _ IH]; intros acc; [done|].
  destruct (digit_facts c Hc) as (_ & Hu & _ & _ & Hd).
  simpl. rewrite Hu, Hd. apply IH.
Qed.

(** [int] on a digit string followed by characters that are no whitespace:
    the digits' value when nothing follows, a [ValueError] when a character
    that is no digit and no underscore follows. *)
Lemma py_int_digits_then ds rest :
  ds <> [] -> Forall (fun c => isdigit c = true) ds ->
  Forall (fun c => isspace c = false) rest ->
  py_int 10 (of_chars (ds ++ rest)) =
    match int_digits 10 rest (decimal_value ds) with
    | Some v => Ret v
    | None => Raise ValueError
    end.
Proof.
  intros Hne Hds Hrest. unfold py_int. rewrite chars_of_chars.
  rewrite int_strip_chars_visible.
  2:{ apply Forall_app. split; [|done].
      eapply Forall_impl; [exact Hds|]. intros c Hc. by destruct (digit_facts c Hc). }
  destruct ds as [|c ds]; [done|]. apply Forall_cons in Hds as [Hc Hds].
  destruct (digit_facts c Hc) as (_ & _ & Hm & Hp & Hd).
  rewrite <- app_comm_cons. cbv beta iota. rewrite Hm, Hp.
  unfold skip_base_prefix. change (10 =? 16) with false. cbv beta iota.
  unfold int_magnitude. rewrite Hd.
  rewrite int_digits_decimal by done. unfold decimal_value. simpl fold_left.
  destruct (int_digits _ _ _) as [v|]; [|done]. f_equal. lia.
Qed.

Lemma suffix_after_digits ds u c v :
  Forall (fun d => isdigit d = true) ds -> isdigit c = false ->
  c :: v `suffix_of` ds ++ u <-> c :: v `suffix_of` u.
Proof.
  intros Hds Hc. split; [|apply suffix_app_r].
  induction Hds as [|d ds Hd _ IH]; [done|]. simpl app. intros H.
  destruct u as [|y u].
  - rewrite app_nil_r in *. apply suffix_cons_inv in H as [[= -> _]|H]; [congruence|].
    by apply IH.
  - apply suffix_cons_inv in H as [[= -> _]|H]; [congruence|]. by apply IH.
Qed.

Lemma endswith_after_digits ds u unit c v :
  Forall (fun d => isdigit d = true) ds ->
  chars unit = c :: v -> isdigit c = false ->
  endswith (of_chars (ds ++ chars u)) unit = endswith u unit.
Proof.
  intros Hds Hu Hc. unfold endswith. rewrite chars_of_chars, Hu.
  apply bool_decide_ext. by apply suffix_after_digits.
Qed.

Lemma parse_time_loop_skip s unit mul rest :
  endswith s unit = false ->
  parse_time_loop ((unit, mul) :: rest) s = parse_time_loop rest s.
Proof. intros H. simpl. by rewrite H. Qed.

Lemma parse_time_loop_retry s unit mul rest :
  endswith s unit = true ->
  py_int 10 (slice_until_neg s (length (chars unit))) = Raise ValueError ->
  parse_time_loop ((unit, mul) :: rest) s = parse_time_loop rest s.
Proof. intros H1 H2. simpl. by rewrite H1, H2. Qed.

Lemma parse_time_loop_hit s unit mul rest v :
  endswith s unit = true ->
  py_int 10 (slice_until_neg s (length (chars unit))) = Ret v ->
  0 < v ->
  parse_time_loop ((unit, mul) :: rest) s = Ret (v * mul).
Proof.
  intros H1 H2 H3. simpl. rewrite H1, H2.
  by destruct (Z.leb_spec v 0); [lia|].
Qed.

Lemma parse_time_loop_nonpositive s unit mul rest v :
  endswith s unit = true ->
  py_int 10 (slice_until_neg s (length (chars unit))) = Ret v ->
  v <= 0 ->
  parse_time_loop ((unit, mul) :: rest) s = Raise ValueError.
Proof.
  intros H1 H2 H3. simpl. rewrite H1, H2.
  by destruct (Z.leb_spec v 0); [|lia].
Qed.

Lemma slice_digits ds u :
  u <> [] ->
  slice_until_neg (of_chars (ds ++ u)) (length u) = of_chars ds.
Proof.
  intros Hu. unfold slice_until_neg. destruct (length u) eqn:Hl.
  - by destruct u.
  - rewrite <- Hl, chars_of_chars, length_app.
    replace (length ds + length u - length u)%nat with (length ds) by lia.
    by rewrite take_app_length.
Qed.

End TimeParser.

(** The suffixed half of the duration contract: a positive decimal integer
    followed by [m], [s], [ms], [us] or [ns] parses to its multiple, and a
    zero one is refused; one with no suffix at all never parses. *)
Lemma parse_time_suffixed (ds : list ascii) :
  ds <> [] -> Forall (fun c => isdigit c = true) ds ->
  (0 < decimal_value ds ->
   parse_time (of_chars (ds ++ chars "m")) = Ret (decimal_value ds * (60 * 10 ^ 9)) /\
   parse_time (of_chars (ds ++ chars "s")) = Ret (decimal_value ds * 10 ^ 9) /\
   parse_time (of_chars (ds ++ chars "ms")) = Ret (decimal_value ds * 10 ^ 6) /\
   parse_time (of_chars (ds ++ chars "us")) = Ret (decimal_value ds * 10 ^ 3) /\
   parse_time (of_chars (ds ++ chars "ns")) = Ret (decimal_value ds * 1)) /\
  (decimal_value ds <= 0 ->
   parse_time (of_chars (ds ++ chars "m")) = Raise ValueError /\
   parse_time (of_chars (ds ++ chars "s")) = Raise ValueError /\
   parse_time (of_chars (ds ++ chars "ms")) = Raise ValueError /\
   parse_time (of_chars (ds ++ chars "us")) = Raise ValueError /\
   parse_time (of_chars (ds ++ chars "ns")) = Raise ValueError) /\
  parse_time (of_chars ds) = Raise ValueError.
Proof.
  intros Hne Hds.
  assert (Hunits : sorted_items time_units =
            [("", 1); ("m", 60000000000); ("ms", 1000000); ("ns", 1);
             ("s", 1000000000); ("us", 1000)]) by reflexivity.
  assert (Hfirst : forall s rest,
            parse_time_loop (("", 1) :: rest) s = parse_time_loop rest s).
  { intros s rest. apply parse_time_loop_retry; [|reflexivity].
    apply bool_decide_eq_true, suffix_nil. }
  assert (Hval : forall u, u <> [] ->
            py_int 10 (slice_until_neg (of_chars (ds ++ u)) (length u))
              = Ret (decimal_value ds)).
  { intros u Hu. rewrite slice_digits by done.
    rewrite <- (app_nil_r ds) at 1. by rewrite py_int_digits_then. }
  assert (Hbad : py_int 10 (slice_until_neg (of_chars (ds ++ chars "us")) (length (chars "s")))
                 = Raise ValueError).
  { change (chars "us") with (["u"%char] ++ ["s"%char]).
    change (chars "s") with ["s"%char]. rewrite app_assoc. rewrite (slice_digits (ds ++ ["u"%char]) ["s"%char]) by done.
    rewrite py_int_digits_then; [done..|]. repeat constructor. }
  assert (Hend : forall u unit c v, chars unit = c :: v -> isdigit c = false ->
            endswith (of_chars (ds ++ chars u)) unit = endswith u unit).
  { intros. by eapply endswith_after_digits. }
  unfold parse_time. rewrite Hunits.
  split; [|split].
  - intros Hpos. repeat split; rewrite Hfirst.
    + apply parse_time_loop_hit; [by erewrite Hend|by apply Hval|done].
    + do 3 (rewrite parse_time_loop_skip by (by erewrite Hend)).
      apply parse_time_loop_hit; [by erewrite Hend|by apply Hval|done].
    + rewrite parse_time_loop_skip by (by erewrite Hend).
      apply parse_time_loop_hit; [by erewrite Hend|by apply Hval|done].
    + do 3 (rewrite parse_time_loop_skip by (by erewrite Hend)).
      rewrite parse_time_loop_retry; [|by erewrite Hend|exact Hbad].
      apply parse_time_loop_hit; [by erewrite Hend|by apply Hval|done].
    + do 2 (rewrite parse_time_loop_skip by (by erewrite Hend)).
      apply parse_time_loop_hit; [by erewrite Hend|by apply Hval|done].
  - intros Hzero. repeat split; rewrite Hfirst.
    + eapply parse_time_loop_nonpositive; [by erewrite Hend|by apply Hval|done].
    + do 3 (rewrite parse_time_loop_skip by (by erewrite Hend)).
      eapply parse_time_loop_nonpositive; [by erewrite Hend|by apply Hval|done].
    + rewrite parse_time_loop_skip by (by erewrite Hend).
      eapply parse_time_loop_nonpositive; [by erewrite Hend|by apply Hval|done].
    + do 3 (rewrite parse_time_loop_skip by (by erewrite Hend)).
      rewrite parse_time_loop_retry; [|by erewrite Hend|exact Hbad].
      eapply parse_time_loop_nonpositive; [by erewrite Hend|by apply Hval|done].
    + do 2 (rewrite parse_time_loop_skip by (by erewrite Hend)).
      eapply parse_time_loop_nonpositive; [by erewrite Hend|by apply Hval|done].
  - rewrite Hfirst. rewrite <- (app_nil_r ds). change (ds ++ []) with (ds ++ chars "").
    by do 5 (rewrite parse_time_loop_skip by (by erewrite Hend)).
Qed.

Lemma parse_time_suffixed_witness :
  (0 < decimal_value (chars "250") ->
   parse_time (of_chars (chars "250" ++ chars "m")) = Ret (decimal_value (chars "250") * (60 * 10 ^ 9)) /\
   parse_time (of_chars (chars "250" ++ chars "s")) = Ret (decimal_value (chars "250") * 10 ^ 9) /\
   parse_time (of_chars (chars "250" ++ chars "ms")) = Ret (decimal_value (chars "250") * 10 ^ 6) /\
   parse_time (of_chars (chars "250" ++ chars "us")) = Ret (decimal_value (chars "250") * 10 ^ 3) /\
   parse_time (of_chars (chars "250" ++ chars "ns")) = Ret (decimal_value (chars "250") * 1)) /\
  (decimal_value (chars "250") <= 0 ->
   parse_time (of_chars (chars "250" ++ chars "m")) = Raise ValueError /\
   parse_time (of_chars (chars "250" ++ chars "s")) = Raise ValueError /\
   parse_time (of_chars (chars "250" ++ chars "ms")) = Raise ValueError /\
   parse_time (of_chars (chars "250" ++ chars "us")) = Raise ValueError /\
   parse_time (of_chars (chars "250" ++ chars "ns")) = Raise ValueError) /\
  parse_time (of_chars (chars "250")) = Raise ValueError.
Proof.
  apply (parse_time_suffixed (chars "250")).
  - discriminate.
  - repeat constructor.
Defined.


(** C2: the duration contract holds for the suffixed literals but not for a
    literal with no suffix: the empty unit is tried first, its slice
    [s[:-0]] is empty, and no later unit matches, so [parse_time("7")]
    raises instead of returning 7. *)
Theorem parse_time_no_suffix_raises : parse_time "7" = Raise ValueError.
Proof. vm_compute. reflexivity. Qed.

(** ** The memory-tree parser *)

Section MemoryTree.

Lemma startswith_hd s u c u' :
  chars u = c :: u' -> startswith s u = true -> exists t, chars s = c :: t.
Proof.
  intros Hu H. apply bool_decide_eq_true in H as [k Hk].
  rewrite Hu in Hk. simpl in Hk. eauto.
Qed.

(** A section start begins with [F]; the lines the section loops look for
    begin with a blank. *)
Lemma flatview_line_not_indented l :
  is_flatview_line l = true ->
  startswith (rstrip l) as_prefix = false /\
  startswith (rstrip l) " Root " = false /\
  startswith (rstrip l) "  " = false /\
  startswith (rstrip l) "  No rendered FlatView" = false.
Proof.
  intros H. destruct (startswith_hd _ "FlatView #" "F"%char _ eq_refl H) as [t Ht].
  assert (Hno : forall u u', chars u = " "%char :: u' -> startswith (rstrip l) u = false).
  { intros u u' Hu. apply not_true_is_false. intros H'.
    destruct (startswith_hd _ _ _ _ Hu H') as [t' Ht']. rewrite Ht in Ht'. discriminate. }
  repeat split; eapply Hno; reflexivity.
Qed.

Lemma header_loop_cons l rest address_spaces views :
  header_loop (l :: rest) address_spaces views =
    if startswith (rstrip l) as_prefix then
      as_name ← _extract_address_space_name (rstrip l);
      header_loop rest (address_spaces ++ [as_name]) (<[as_name := []]> views)
    else if startswith (rstrip l) " Root " then
      Ret (HeaderDone rest, address_spaces, views)
    else if startswith (rstrip l) "FlatView #" then
      Ret (HeaderReturn (l :: rest), address_spaces, views)
    else header_loop rest address_spaces views.
Proof. reflexivity. Qed.

Lemma extract_malformed bad :
  malformed_AS_line bad = true ->
  _extract_address_space_name (rstrip bad) = Raise ValueError.
Proof.
  unfold malformed_AS_line, _extract_address_space_name.
  intros [_ H]%andb_prop. by destruct (bool_decide _).
Qed.

(** The header loop stops with a [ValueError] at the first malformed [AS]
    line it reaches. *)
Lemma header_loop_malformed hdr bad rest address_spaces views :
  Forall (fun l => passed_in_header l = true) hdr ->
  malformed_AS_line bad = true ->
  header_loop (hdr ++ bad :: rest) address_spaces views = Raise ValueError.
Proof.
  intros Hhdr Hbad. revert address_spaces views.
  induction Hhdr as [|l hdr Hl _ IH]; intros address_spaces views.
  - simpl app. rewrite header_loop_cons.
    pose proof Hbad as [Has _]%andb_prop. unfold is_AS_line in Has. rewrite Has.
    by rewrite extract_malformed.
  - simpl app. rewrite header_loop_cons. unfold passed_in_header, is_AS_line in Hl.
    destruct (startswith (rstrip l) as_prefix).
    + unfold _extract_address_space_name. rewrite Hl. cbn [mbind outcome_bind]. apply IH.
    + apply andb_prop in Hl as [H1 H2]. unfold is_flatview_line in H2.
      destruct (startswith (rstrip l) " Root "); [done|].
      destruct (startswith (rstrip l) "FlatView #"); [done|]. apply IH.
Qed.

Lemma section_malformed hdr bad rest σ :
  Forall (fun l => passed_in_header l = true) hdr ->
  malformed_AS_line bad = true ->
  run (_parse_flatview_section (hdr ++ bad :: rest)) σ = (Raise ValueError, σ).
Proof.
  intros Hhdr Hbad. unfold _parse_flatview_section. rewrite run_bind.
  by rewrite header_loop_malformed.
Qed.

Lemma mtree_loop_cons fuel l rest views :
  mtree_loop (S fuel) (l :: rest) views =
    if startswith (rstrip l) "FlatView #" then
      '(rest2, flatview_views) ← _parse_flatview_section rest;
      mtree_loop fuel rest2 (flatview_views ∪ views)
    else
      (if visible (rstrip l)
       then print "Warning: Unexpected line in mtree output: {line!r}"
       else mret tt);;
      mtree_loop fuel rest views.
Proof. reflexivity. Qed.

Lemma mtree_loop_malformed fuel fvl hdr bad rest views σ :
  is_flatview_line fvl = true ->
  Forall (fun l => passed_in_header l = true) hdr ->
  malformed_AS_line bad = true ->
  (0 < fuel)%nat ->
  run (mtree_loop fuel (fvl :: hdr ++ bad :: rest) views) σ = (Raise ValueError, σ).
Proof.
  intros Hfv Hhdr Hbad Hfuel. destruct fuel as [|fuel]; [lia|].
  rewrite mtree_loop_cons. unfold is_flatview_line in Hfv. rewrite Hfv.
  rewrite run_bind. by rewrite section_malformed.
Qed.

Lemma header_loop_prefix pre tail address_spaces views :
  boundary tail ->
  match header_loop (pre ++ tail) address_spaces views with
  | Raise e => parser_error e
  | Ret (HeaderDone rest', _, _) | Ret (HeaderReturn rest', _, _) =>
      exists p', rest' = p' ++ tail /\ (length p' <= length pre)%nat
  end.
Proof.
  intros Htail. revert address_spaces views.
  induction pre as [|l pre IH]; intros address_spaces views.
  - destruct tail as [|l t]; simpl app; [cbn; by exists []|].
    rewrite header_loop_cons. simpl in Htail.
    destruct (flatview_line_not_indented _ Htail) as (-> & -> & _).
    unfold is_flatview_line in Htail. rewrite Htail. by exists [].
  - simpl app. rewrite header_loop_cons.
    destruct (startswith (rstrip l) as_prefix).
    + destruct (_extract_address_space_name (rstrip l)) as [n|e] eqn:E;
        cbn [mbind outcome_bind].
      * specialize (IH (address_spaces ++ [n]) (<[n := []]> views)).
        destruct (header_loop _ _ _) as [[[[r|r] ?] ?]|]; [| |done];
          destruct IH as (p' & -> & ?); exists p'; simpl; split; (done || lia).
      * unfold _extract_address_space_name in E. destruct (bool_decide _); [done|].
        injection E as <-. by left.
    + destruct (startswith (rstrip l) " Root "); [exists pre; split; [done|simpl; lia]|].
      destruct (startswith (rstrip l) "FlatView #");
        [exists (l :: pre); split; [done|simpl; lia]|].
      specialize (IH address_spaces views).
      destruct (header_loop _ _ _) as [[[[r|r] ?] ?]|]; [| |done];
        destruct IH as (p' & -> & ?); exists p'; simpl; split; (done || lia).
Qed.

Lemma append_all_error address_spaces line views e :
  append_all address_spaces line views = Raise e -> e = KeyError.
Proof.
  revert views. induction address_spaces as [|a l IH]; intros views; simpl; [done|].
  destruct (views !! a); [apply IH|by intros [= <-]].
Qed.

Lemma delete_all_error address_spaces views e :
  delete_all address_spaces views = Raise e -> e = KeyError.
Proof.
  revert views. induction address_spaces as [|a l IH]; intros views; simpl; [done|].
  destruct (views !! a); [apply IH|by intros [= <-]].
Qed.

Lemma range_loop_cons l rest address_spaces views :
  range_loop (l :: rest) address_spaces views =
    if startswith (rstrip l) "  " && _is_memory_range_line (rstrip l) then
      views' ← lift (append_all address_spaces (rstrip l) views);
      range_loop rest address_spaces views'
    else if startswith (rstrip l) "FlatView #" || bool_decide (rstrip l = "") then
      mret (l :: rest, views)
    else
      (if visible (rstrip l)
       then print "Warning: Unexpected line in memory ranges: {line!r}"
       else mret tt);;
      range_loop rest address_spaces views.
Proof. reflexivity. Qed.

Lemma range_loop_prefix pre tail address_spaces views σ :
  boundary tail ->
  match run (range_loop (pre ++ tail) address_spaces views) σ with
  | (Raise e, _) => parser_error e
  | (Ret (rest', _), _) => exists p', rest' = p' ++ tail /\ (length p' <= length pre)%nat
  end.
Proof.
  intros Htail. revert views σ.
  induction pre as [|l pre IH]; intros views σ.
  - destruct tail as [|l t]; simpl app; [cbn; by exists []|].
    rewrite range_loop_cons. simpl in Htail.
    destruct (flatview_line_not_indented _ Htail) as (_ & _ & -> & _).
    unfold is_flatview_line in Htail. rewrite Htail. cbn. by exists [].
  - simpl app. rewrite range_loop_cons.
    destruct (startswith (rstrip l) "  " && _is_memory_range_line (rstrip l)).
    + rewrite run_bind. cbn [run lift].
      destruct (append_all address_spaces (rstrip l) views) as [v'|e] eqn:E.
      * specialize (IH v' σ). destruct (run _ σ) as [[[r v2]|e] σ2]; [|done].
        destruct IH as (p' & -> & ?). exists p'. simpl. split; (done || lia).
      * apply append_all_error in E. by right.
    + destruct (startswith (rstrip l) "FlatView #" || bool_decide (rstrip l = "")).
      * cbn. exists (l :: pre). split; [done|simpl; lia].
      * rewrite run_bind.
        destruct (run (if visible (rstrip l) then _ else _) σ) as [[[]|e] σ1] eqn:E.
        -- specialize (IH views σ1). destruct (run _ σ1) as [[[r v2]|e] σ2]; [|done].
           destruct IH as (p' & -> & ?). exists p'. simpl. split; (done || lia).
        -- destruct (visible (rstrip l)); cbn in E; done.
Qed.

Lemma section_prefix pre tail σ :
  boundary tail ->
  match run (_parse_flatview_section (pre ++ tail)) σ with
  | (Raise e, _) => parser_error e
  | (Ret (rest', _), _) => exists p', rest' = p' ++ tail /\ (length p' <= length pre)%nat
  end.
Proof.
  intros Htail. unfold _parse_flatview_section. rewrite run_bind. cbn [run lift].
  pose proof (header_loop_prefix pre tail [] ∅ Htail) as Hh.
  destruct (header_loop (pre ++ tail) [] ∅) as [[[[rest'|rest'] address_spaces] views]|e];
    [| |done].
  - destruct Hh as (p' & -> & Hlen). destruct p' as [|l p'].
    + destruct tail as [|l t]; simpl app; [cbn; by exists []|]. cbv beta iota.
      simpl in Htail. destruct (flatview_line_not_indented _ Htail) as (_ & _ & _ & ->).
      pose proof (range_loop_prefix [] (l :: t) address_spaces views σ Htail) as Hr.
      simpl app in Hr. destruct (run _ σ) as [[[r v2]|e] σ2]; [|done].
      destruct Hr as (p2 & -> & ?). exists p2. split; [done|simpl in *; lia].
    + simpl app. cbv beta iota.
      destruct (startswith (rstrip l) "  No rendered FlatView").
      * rewrite run_bind. cbn [run lift].
        destruct (delete_all address_spaces views) as [v'|e] eqn:E.
        -- cbn. exists p'. split; [done|simpl in *; lia].
        -- apply delete_all_error in E. by right.
      * pose proof (range_loop_prefix (l :: p') tail address_spaces views σ Htail) as Hr.
        simpl app in Hr. destruct (run _ σ) as [[[r v2]|e] σ2]; [|done].
        destruct Hr as (p2 & -> & ?). exists p2. split; [done|simpl in *; lia].
  - destruct Hh as (p' & -> & Hlen). cbn. by exists p'.
Qed.

(** With one unit of fuel per line, the outer loop works through any lines
    [pre]: it fails with an error of the parser, or arrives before [tail]
    with fuel left for it. *)
Lemma mtree_loop_prefix n pre tail fuel views σ :
  boundary tail ->
  (length pre <= n)%nat ->
  (length pre + length tail <= fuel)%nat ->
  (exists e σ', run (mtree_loop fuel (pre ++ tail) views) σ = (Raise e, σ') /\ parser_error e) \/
  (exists fuel' views' σ',
     (length tail <= fuel')%nat /\
     run (mtree_loop fuel (pre ++ tail) views) σ = run (mtree_loop fuel' tail views') σ').
Proof.
  intros Htail. revert pre fuel views σ.
  induction n as [|n IH]; intros pre fuel views σ Hn Hfuel.
  - destruct pre; [|simpl in Hn; lia]. right. exists fuel, views, σ. split; [simpl in *; lia|done].
  - destruct pre as [|l pre]; [right; exists fuel, views, σ; split; [simpl in *; lia|done]|].
    destruct fuel as [|fuel]; [simpl in Hfuel; lia|].
    simpl app. rewrite mtree_loop_cons.
    destruct (startswith (rstrip l) "FlatView #").
    + rewrite run_bind. pose proof (section_prefix pre tail σ Htail) as Hs.
      destruct (run (_parse_flatview_section (pre ++ tail)) σ) as [[[r v2]|e] σ2].
      * destruct Hs as (p' & -> & Hlen).
        apply IH; simpl in *; lia.
      * left. eauto.
    + rewrite run_bind.
      destruct (run (if visible (rstrip l) then _ else _) σ) as [[[]|e] σ1] eqn:E.
      * apply IH; simpl in *; lia.
      * destruct (visible (rstrip l)); cbn in E; done.
Qed.

(** Fuel never runs out: on its input's lines the outer loop ends with the
    collected views or with an error of the parser. *)
Lemma mtree_loop_terminates lines views σ :
  (exists e σ', run (mtree_loop (length lines) lines views) σ = (Raise e, σ') /\ parser_error e) \/
  (exists views' σ', run (mtree_loop (length lines) lines views) σ = (Ret views', σ')).
Proof.
  destruct (mtree_loop_prefix (length lines) lines [] (length lines) views σ I)
    as [H|(fuel' & v' & σ' & _ & H)]; [lia|simpl; lia| |]; rewrite app_nil_r in H.
  - by left.
  - right. exists v', σ'. rewrite H. by destruct fuel'.
Qed.

Lemma dropwhile_head_false {A} (p : A -> bool) l x l' :
  dropwhile p l = x :: l' -> p x = false.
Proof.
  induction l as [|y l IH]; simpl; [done|].
  destruct (p y) eqn:Hy; [exact IH|]. by intros [= <- _].
Qed.

(** A right-stripped line that is not empty ends in a visible character. *)
Lemma visible_rstrip l : rstrip l <> "" -> visible (rstrip l) = true.
Proof.
  intros Hne. unfold visible. apply andb_true_intro. split.
  - apply negb_true_iff. by apply bool_decide_eq_false.
  - apply negb_true_iff, not_true_is_false. intros Hall.
    rewrite forallb_forall in Hall. unfold rstrip, rstrip_chars in *.
    rewrite chars_of_chars in Hall.
    destruct (dropwhile isspace (rev (chars l))) as [|x d] eqn:Hd; [done|].
    apply dropwhile_head_false in Hd. specialize (Hall x).
    rewrite Hd in Hall. discriminate Hall.
    apply in_rev. rewrite rev_involutive. by left.
Qed.

Lemma run_qemu_hmp_mtree σ :
  run (qemu_hmp InfoMtree) σ =
    (Ret (strip (mtree_output σ)),
     mkWorld (memory σ) (registers σ) (cached_reg_list σ) (mtree_output σ)
             (files σ) (entropy σ) (events σ ++ [Monitor InfoMtree]) (guest σ)).
Proof. reflexivity. Qed.

End MemoryTree.

(** C6, as the code has it: when a section's header holds a malformed [AS]
    line, [mtree()] as a whole fails with [RuntimeError] and returns no
    mapping, whatever the sections before and after it hold; and a line of
    the range loop that is no range line is passed over after a warning. *)
Theorem mtree_malformed_AS_aborts (σ : World) (pre hdr rest : list string)
    (fvl bad : string) :
  split (strip (mtree_output σ)) newline = pre ++ fvl :: hdr ++ bad :: rest ->
  is_flatview_line fvl = true ->
  Forall (fun l => passed_in_header l = true) hdr ->
  malformed_AS_line bad = true ->
  (exists σ', run mtree σ = (Raise RuntimeError, σ')) /\
  (forall l more address_spaces views σ0,
     unparseable_range_line l = true ->
     run (range_loop (l :: more) address_spaces views) σ0 =
     run (print "Warning: Unexpected line in memory ranges: {line!r}";;
          range_loop more address_spaces views) σ0).
Proof.
  intros Hlines Hfv Hhdr Hbad. split.
  - unfold mtree. rewrite run_try_except, run_bind, run_qemu_hmp_mtree.
    unfold _parse_mtree_output. rewrite run_bind. rewrite Hlines.
    set (σ1 := mkWorld _ _ _ _ _ _ _ _).
    set (tail := fvl :: hdr ++ bad :: rest).
    destruct (mtree_loop_prefix (length pre) pre tail (length (pre ++ tail)) ∅ σ1)
      as [(e & σ' & -> & He)|(fuel' & v' & σ' & Hf & ->)];
      [exact Hfv|lia|rewrite length_app; lia| |].
    + exists σ'. by destruct He as [-> | ->].
    + unfold tail. rewrite mtree_loop_malformed; try done; [eauto|].
      unfold tail in Hf. simpl in Hf. lia.
  - intros l more address_spaces views σ0 Hl. rewrite range_loop_cons.
    unfold unparseable_range_line, is_flatview_line in Hl.
    apply andb_prop in Hl as [[H1 H2]%andb_prop H3].
    apply negb_true_iff in H1, H2, H3. rewrite H1, H2, H3. cbn [orb].
    rewrite visible_rstrip; [done|]. by apply bool_decide_eq_false in H3.
Qed.

Lemma mtree_malformed_AS_aborts_witness :
  (exists σ', run mtree broken_world = (Raise RuntimeError, σ')) /\
  (forall l more address_spaces views σ0,
     unparseable_range_line l = true ->
     run (range_loop (l :: more) address_spaces views) σ0 =
     run (print "Warning: Unexpected line in memory ranges: {line!r}";;
          range_loop more address_spaces views) σ0).
Proof.
  apply (mtree_malformed_AS_aborts broken_world memory_section
           [] (tl (tl broken_section) ++ io_section)
           "FlatView #1" (q " AS " +:+ "gpex-root, root: bus")).
  - vm_compute. reflexivity.
  - vm_compute. reflexivity.
  - constructor.
  - vm_compute. reflexivity.
Defined.

(** C6 fails as stated: with the middle section's [AS] line malformed, the
    call fails as a whole, and the address spaces of the two well-formed
    sections, which the same text without that section yields, are not
    returned. *)
Lemma mtree_malformed_AS_is_global :
  match (run mtree sample_world).1 with
  | Ret views => is_Some (views !! "memory") /\ is_Some (views !! "I/O")
  | Raise _ => False
  end /\
  (run mtree broken_world).1 = Raise RuntimeError /\
  events (run mtree broken_world).2 = [Monitor InfoMtree].
Proof. vm_compute. repeat split; eauto. Qed.

(** ** Register flips *)

Section Registers.

Lemma assoc_update_same {V} name (f : V -> V) l :
  assoc name (assoc_update name f l) = f <$> assoc name l.
Proof.
  induction l as [|[k v] l IH]; simpl; [done|].
  destruct (String.eqb k name) eqn:E; simpl; rewrite E; [done|exact IH].
Qed.

Lemma run_read_register name r σ :
  assoc name (registers σ) = Some r ->
  run (read_register (Some name)) σ = (Ret r, σ).
Proof. intros H. unfold read_register. rewrite run_bind. cbn [run get_world]. by rewrite H. Qed.

Lemma run_set_word name index v σ :
  run (set_word name index v) σ = (Ret tt, after_set name index v σ).
Proof. reflexivity. Qed.

(** The aliases of a written register get other words, and nothing else
    of a register changes. *)
Lemma update_aliases_assoc name written views regs :
  exists f : list Z -> list Z,
    assoc name (update_aliases written views regs)
      = (fun r => with_words (f (words r)) r) <$> assoc name regs.
Proof.
  revert regs. induction views as [|[a view] views IH]; intros regs; cbn [update_aliases].
  - exists id. destruct (assoc name regs) as [[]|]; reflexivity.
  - destruct (IH (assoc_update a (fun r => with_words (view written (words r)) r) regs))
      as [f Hf].
    destruct (String.eqb_spec a name) as [->|Hne].
    + exists (fun ws => f (view written ws)). rewrite Hf, assoc_update_same.
      by destruct (assoc name regs).
    + exists f. rewrite Hf. f_equal. clear -Hne.
      induction regs as [|[k x] regs IH]; [done|]. simpl.
      destruct (String.eqb_spec k a) as [->|Hk]; simpl.
      * by destruct (String.eqb_spec a name).
      * by rewrite IH.
Qed.

(** After a [set], the register written holds what its [on_set] left. *)
Lemma assoc_set_registers_same name index v regs r :
  assoc name regs = Some r ->
  assoc name (set_registers name index v regs)
    = Some (with_words (alter (fun old => on_set r old v) (Z.to_nat index) (words r)) r).
Proof.
  intros Hr. unfold set_registers. rewrite Hr. cbv zeta. rewrite assoc_update_same.
  destruct (update_aliases_assoc name
              (alter (fun old => on_set r old v) (Z.to_nat index) (words r))
              (aliases r) regs) as [f ->].
  by rewrite Hr.
Qed.

Lemma run_read_word_after_set name r old ws v σ :
  assoc name (registers σ) = Some r -> words r = old :: ws ->
  run (read_word name 0) (after_set name 0 v σ)
    = (Ret (on_set r old v), after_set name 0 v σ).
Proof.
  intros Hr Hw. unfold read_word. rewrite run_bind.
  erewrite run_read_register.
  2:{ unfold after_set. cbn. by apply assoc_set_registers_same. }
  cbn [words with_words]. rewrite Hw. reflexivity.
Qed.

(** On a 64-bit scalar register, [inject_register_bitflip] writes the
    flipped value and then takes the read-back decision; it never raises. *)
Lemma inject_register_bitflip_scalar name r old ws bit σ :
  assoc name (registers σ) = Some r ->
  type_name r <> "union aarch64v" -> sizeof r = 8 ->
  words r = old :: ws -> 0 <= bit ->
  run (inject_register_bitflip (Some name) (Some bit)) σ =
    run (register_decision name old (Z.lxor old (2 ^ bit))
           (on_set r old (Z.lxor old (2 ^ bit))) (2 ^ 64 - 1))
        (after_set name 0 (Z.lxor old (2 ^ bit)) σ).
Proof.
  intros Hr Hty Hsz Hw Hbit. unfold inject_register_bitflip.
  rewrite run_bind, run_try_except, run_bind, (run_read_register _ _ _ Hr).
  cbn [run mret M_ret]. rewrite run_bind. cbn [run mret M_ret].
  rewrite Hsz. change (Z.min (8 * 8) 64) with 64.
  rewrite run_bind. cbn [run lift]. change (py_shiftl 1 64) with (@Ret Z (2 ^ 64)).
  cbv beta iota. cbn [default].
  rewrite run_bind. cbn [run mret M_ret]. rewrite run_try_except, run_bind.
  rewrite bool_decide_eq_false_2 by done.
  rewrite run_bind. unfold py_assert. change (8 =? 8) with true. cbn [run mret M_ret].
  rewrite run_bind. unfold py_shiftl. destruct (Z.ltb_spec bit 0); [lia|]. cbn [run lift].
  rewrite Z.shiftl_1_l. rewrite run_bind, run_set_word.
  rewrite run_bind, (run_read_word_after_set _ _ _ _ _ _ Hr Hw). cbn [run mret M_ret].
  rewrite Hw. cbn [hd].
  unfold register_decision.
  destruct (_ =? _); [reflexivity|].
  destruct (_ =? _); reflexivity.
Qed.

End Registers.

(** C3: the read-back decision of [inject_register_bitflip] on the sample
    registers. A read-back equal to the new value logs one record and
    returns [True]; one equal to the old value logs nothing and returns
    [False]. A read-back equal to neither is no hard failure: the
    [RuntimeError] is raised inside the [try] block whose
    [except Exception] prints it, the function returns [None], and the
    caller's loop moves on to the next register as for [False]. *)
Theorem register_double_mismatch_swallowed :
  ((run (inject_register_bitflip (Some "x0") (Some 0)) sample_world).1 = Ret (Some true) /\
   events (run (inject_register_bitflip (Some "x0") (Some 0)) sample_world).2
     = [Logged (RegisterName "x0") 5 4]) /\
  ((run (inject_register_bitflip (Some "xzr") (Some 0)) sample_world).1 = Ret (Some false) /\
   events (run (inject_register_bitflip (Some "xzr") (Some 0)) sample_world).2
     = [Printed "Bitflip could not be injected into register %s. (%s -> %s ignored.)"]) /\
  ((run (inject_register_bitflip (Some "fpsr") (Some 0)) sample_world).1 = Ret None /\
   events (run (inject_register_bitflip (Some "fpsr") (Some 0)) sample_world).2
     = [Printed "[inject_register_bitflip] exception: "] /\
   words <$> assoc "fpsr" (registers
       (run (inject_register_bitflip (Some "fpsr") (Some 0)) sample_world).2)
     = Some [257]) /\
  ((run (try_registers ["fpsr"; "x0"] (Some 0)) sample_world).1 = Ret tt /\
   events (run (try_registers ["fpsr"; "x0"] (Some 0)) sample_world).2
     = [ Printed "[inject_register_bitflip] exception: ";
         Printed "Trying another register...";
         Logged (RegisterName "x0") 5 4 ]).
Proof. vm_compute. repeat split; reflexivity. Qed.

(** ** Snapshot campaigns *)

Lemma snapinject_pair_check_unsatisfiable (location : option string) (bit_index : option Z) :
  (bool_decide (location = None) && negb (bool_decide (bit_index = None)))
  && (negb (bool_decide (location = None)) && bool_decide (bit_index = None)) = false.
Proof. destruct location, bit_index; reflexivity. Qed.

(** C4: the all-or-nothing check of [snapinject] joins its two cases with
    [and], so it holds for no pair, and a command that gives only
    [--fault-location] is not rejected: the snapshot is created and a bit
    (a random one) is flipped at the location. One that gives only
    [--bit-index] creates the snapshot and steps the guest before
    [int(None, 16)] raises [TypeError] out of the handler, the temporary
    snapshot left behind. *)
Theorem snapinject_accepts_lone_location :
  (forall (location : option string) (bit_index : option Z),
     (bool_decide (location = None) && negb (bool_decide (bit_index = None)))
     && (negb (bool_decide (location = None)) && bool_decide (bit_index = None)) = false) /\
  ((run_snapinject lone_location_cmd lone_location_args).1 = Ret tt /\
   events (run_snapinject lone_location_cmd lone_location_args).2
     = [ Monitor (Savevm (TmpName 77)); Printed "Create a tmp checkpoint %s";
         Monitor Cont; Monitor (StopDelayed 1000000);
         Logged (Address 4096) 239 231;
         Printed "Total injection duration: %.3f s";
         Printed "Observing VM %s"; Monitor Cont; Monitor (StopDelayed 1000000000);
         Printed "time up.";
         Monitor (Loadvm (TmpName 77)); Printed "Back to checkpoint %s finished.";
         Monitor (Delvm (TmpName 77)); Printed "Delete tmp VM checkpoint";
         Serial (String "013"%char "") ]) /\
  ((run_snapinject lone_bit_cmd lone_bit_args).1 = Raise TypeError /\
   events (run_snapinject lone_bit_cmd lone_bit_args).2
     = [ Monitor (Savevm (TmpName 77)); Printed "Create a tmp checkpoint %s";
         Monitor Cont; Monitor (StopDelayed 1000000) ]).
Proof.
  split; [apply snapinject_pair_check_unsatisfiable|].
  vm_compute. repeat split; reflexivity.
Qed.

(** ** Range files *)

Section RangeFiles.

Lemma py_int_error base s e : py_int base s = Raise e -> e = ValueError.
Proof.
  unfold py_int.
  destruct (match int_strip_chars (chars s) with [] => _ | _ :: _ => _ end) as [sign body].
  destruct (int_magnitude base (skip_base_prefix base body)); [done|]. by intros [= <-].
Qed.

Lemma range_line_addresses_error line e :
  range_line_addresses line = Raise e -> e = ValueError.
Proof.
  unfold range_line_addresses.
  destruct (split line "-") as [|a [|b [|c l]]]; try by intros [= <-].
  destruct (py_int 16 a) as [x|e1] eqn:E1; cbn [mbind outcome_bind].
  - destruct (py_int 16 b) as [y|e2] eqn:E2; cbn [mbind outcome_bind]; [done|].
    intros [= <-]. by eapply py_int_error.
  - intros [= <-]. by eapply py_int_error.
Qed.

Lemma parse_address_lines_cons l rest address_list :
  parse_address_lines (l :: rest) address_list =
    if skipped_silently l then parse_address_lines rest address_list
    else
      added ← try_except (lift (range_line_addresses (strip l))) is_Exception
                (fun _ => print "Invalid line in range file: {line} ({e})";; mret []);
      parse_address_lines rest (address_list ++ added).
Proof. reflexivity. Qed.

End RangeFiles.

(** C8, as the code has it: the range file whose single line is
    [0x1000-0x1004] yields the four addresses [0x1000 .. 0x1003] (inclusive
    start, exclusive end, one address per byte). A blank line and a line
    without ["-"] are passed over silently; a line with a ["-"] that is not
    two base-16 numbers is passed over after a printed message; any other
    line adds its addresses, which are those from its first number up to,
    and without, its second. *)
Theorem range_file_lines :
  ((run (parse_address_ranges_file "ranges.txt") sample_world).1
     = Ret [4096; 4097; 4098; 4099] /\
   events (run (parse_address_ranges_file "ranges.txt") sample_world).2 = []) /\
  (forall l rest acc σ,
     skipped_silently l = true ->
     run (parse_address_lines (l :: rest) acc) σ = run (parse_address_lines rest acc) σ) /\
  (forall l rest acc σ e,
     skipped_silently l = false ->
     range_line_addresses (strip l) = Raise e ->
     run (parse_address_lines (l :: rest) acc) σ =
     run (print "Invalid line in range file: {line} ({e})";;
          parse_address_lines rest acc) σ) /\
  (forall l rest acc σ addrs,
     skipped_silently l = false ->
     range_line_addresses (strip l) = Ret addrs ->
     run (parse_address_lines (l :: rest) acc) σ =
     run (parse_address_lines rest (acc ++ addrs)) σ) /\
  (forall line addrs,
     range_line_addresses line = Ret addrs ->
     exists start_str end_str start end_,
       split line "-" = [start_str; end_str] /\
       py_int 16 start_str = Ret start /\ py_int 16 end_str = Ret end_ /\
       forall a, a ∈ addrs <-> start <= a < end_).
Proof.
  split; [vm_compute; split; reflexivity|].
  split; [|split; [|split]]; cycle 3.
  { intros line addrs. unfold range_line_addresses.
    destruct (split line "-") as [|a [|b [|c l]]]; try done.
    destruct (py_int 16 a) as [x|] eqn:Ea; cbn [mbind outcome_bind]; [|done].
    destruct (py_int 16 b) as [y|] eqn:Eb; cbn [mbind outcome_bind]; [|done].
    intros [= <-]. exists a, b, x, y. repeat split; try done.
    - apply elem_of_seqZ in H. lia.
    - apply elem_of_seqZ in H. lia.
    - intros [? ?]. apply elem_of_seqZ. lia. }
  - intros l rest acc σ Hs. by rewrite parse_address_lines_cons, Hs.
  - intros l rest acc σ e Hs He. rewrite parse_address_lines_cons, Hs.
    apply range_line_addresses_error in He as Hv. subst e.
    rewrite !run_bind, run_try_except. cbn [run lift]. rewrite He.
    cbn [is_Exception]. rewrite run_bind.
    destruct (run (print _) σ) as [[[]|e] σ1]; [|done].
    cbn [run mret M_ret]. by rewrite app_nil_r.
  - intros l rest acc σ addrs Hs Ha. rewrite parse_address_lines_cons, Hs.
    rewrite run_bind, run_try_except. cbn [run lift]. by rewrite Ha.
Qed.

Lemma range_file_lines_witness :
  run (parse_address_lines ["   "; "0x10-0x12"] []) sample_world
    = run (parse_address_lines ["0x10-0x12"] []) sample_world /\
  run (parse_address_lines ["1-2-3"] [7]) sample_world
    = run (print "Invalid line in range file: {line} ({e})";;
           parse_address_lines [] [7]) sample_world /\
  run (parse_address_lines ["0x10-0x12"] [7]) sample_world
    = run (parse_address_lines [] ([7] ++ [16; 17])) sample_world.
Proof.
  destruct range_file_lines as (_ & Hskip & Hbad & Hgood & _).
  split; [|split].
  - apply Hskip. vm_compute. reflexivity.
  - apply (Hbad _ _ _ _ ValueError); vm_compute; reflexivity.
  - apply Hgood; vm_compute; reflexivity.
Defined.

(** C8 fails as stated: a blank line, a line that is no range and a line of
    blanks are skipped with no warning at all; and [appinject] asked for two
    injections performs none, because building its parser raises
    [AttributeError]. *)
Lemma range_file_blank_lines_unreported :
  ((run (parse_address_ranges_file "noisy.txt") sample_world).1
     = Ret [4096; 4097; 4098; 4099] /\
   events (run (parse_address_ranges_file "noisy.txt") sample_world).2 = []) /\
  ((run_appinject "--total-fault-number 2 --range-file ranges.txt"
                  (mkAppinjectArgs 2 "ranges.txt")).1 = Raise AttributeError /\
   events (run_appinject "--total-fault-number 2 --range-file ranges.txt"
                         (mkAppinjectArgs 2 "ranges.txt")).2 = []).
Proof. vm_compute. repeat split; reflexivity. Qed.

(** ** User-input errors *)

Section UserInput.

Lemma parse_time_loop_error units s e :
  parse_time_loop units s = Raise e -> e = ValueError.
Proof.
  induction units as [|[unit mul] units IH]; simpl; [by intros [= <-]|].
  destruct (endswith s unit); [|exact IH].
  destruct (py_int 10 _) as [res|e'] eqn:E.
  - destruct (res <=? 0); [by intros [= <-]|done].
  - apply py_int_error in E. subst e'. exact IH.
Qed.

Lemma parse_time_error s e : parse_time s = Raise e -> e = ValueError.
Proof. apply parse_time_loop_error. Qed.

(** The shared [try] block refuses invalid parameters with one of the two
    exceptions its [except] clause names, before any effect. *)
Lemma campaign_params_rejects times min_interval max_interval σ :
  invalid_campaign times min_interval max_interval ->
  exists e, run (campaign_params times min_interval max_interval) σ = (Raise e, σ) /\
            is_ValueError_or_AssertionError e = true.
Proof.
  intros Hinv. unfold campaign_params, py_assert. rewrite run_bind.
  destruct (Z.leb_spec 1 times) as [Ht|Ht]; [|by exists AssertionError].
  cbn [run mret M_ret]. rewrite run_bind. cbn [run lift].
  destruct (parse_time min_interval) as [mint|e1] eqn:E1.
  2:{ apply parse_time_error in E1 as ->. by exists ValueError. }
  rewrite run_bind. cbn [run lift].
  destruct (parse_time max_interval) as [maxt|e2] eqn:E2.
  2:{ apply parse_time_error in E2 as ->. by exists ValueError. }
  rewrite run_bind.
  assert (Hlt : maxt < mint).
  { destruct Hinv as [H|[[e H]|[[e H]|(mi & ma & H1 & H2 & Hlt)]]]; [lia|congruence|congruence|].
    congruence. }
  destruct (Z.leb_spec mint maxt); [lia|]. rewrite andb_false_r.
  by exists AssertionError.
Qed.

(** In any case the block has no effect on the session, and raises nothing
    but what its [except] clause names. *)
Lemma campaign_params_pure times min_interval max_interval σ :
  exists o, run (campaign_params times min_interval max_interval) σ = (o, σ) /\
            forall e, o = Raise e -> is_ValueError_or_AssertionError e = true.
Proof.
  unfold campaign_params, py_assert. rewrite run_bind.
  destruct (1 <=? times); [|eexists; split; [done|by intros e [= <-]]].
  cbn [run mret M_ret]. rewrite run_bind. cbn [run lift].
  destruct (parse_time min_interval) as [mint|e1] eqn:E1.
  2:{ apply parse_time_error in E1 as ->. eexists; split; [done|by intros e [= <-]]. }
  rewrite run_bind. cbn [run lift].
  destruct (parse_time max_interval) as [maxt|e2] eqn:E2.
  2:{ apply parse_time_error in E2 as ->. eexists; split; [done|by intros e [= <-]]. }
  rewrite run_bind.
  destruct ((0 <? mint) && (mint <=? maxt)); cbn;
    eexists; (split; [done|]); [done|by intros e [= <-]].
Qed.

End UserInput.

(** C9, as the code has it. The argument parser never lets an exception
    out: it returns the namespace that [parse_args] built from the tokens
    of the command line, and [None] whenever splitting the line or parsing
    the tokens raised, [SystemExit] included. A
    command whose arguments did not parse returns at once; [autoinject]
    prints and returns normally, with no other effect, on a count below one,
    an unparseable interval or [min > max]. A bit index outside the selected
    byte width is not among the errors the handlers check for. *)
Theorem user_input_errors_return {N : Type}
    (shlex_split : string -> outcome (list string))
    (parse_and_eval : string -> outcome Z)
    (parse_args : list string -> parse_run N)
    (parse_auto : list string -> parse_run autoinject_args)
    (parse_inject : list string -> parse_run inject_args)
    (parse_snap : list string -> parse_run snapinject_args)
    (args : string) (σ : World) :
  (exists σ',
     run (parse_args_safely shlex_split parse_args args) σ =
       (Ret match (if bool_decide (strip args = "") then Ret []
                   else shlex_split (strip args)) with
            | Ret tokens =>
                match parse_result (parse_args tokens) with
                | Ret ns => Some ns
                | Raise _ => None
                end
            | Raise _ => None
            end, σ')) /\
  (forall σ1,
     run (parse_args_safely shlex_split parse_auto args) σ = (Ret None, σ1) ->
     run (autoinject shlex_split parse_auto args) σ = (Ret tt, σ1)) /\
  (forall σ1,
     run (parse_args_safely shlex_split parse_inject args) σ = (Ret None, σ1) ->
     run (inject shlex_split parse_and_eval parse_inject args) σ = (Ret tt, σ1)) /\
  (forall parsed σ1,
     run (parse_args_safely shlex_split parse_auto args) σ = (Ret (Some parsed), σ1) ->
     invalid_campaign (total_fault_number parsed) (min_interval parsed) (max_interval parsed) ->
     run (autoinject shlex_split parse_auto args) σ = run (print "Error: %s") σ1) /\
  (forall parsed σ1,
     run (parse_args_safely shlex_split parse_snap args) σ = (Ret (Some parsed), σ1) ->
     invalid_campaign (snap_total_fault_number parsed) (snap_min_interval parsed)
       (snap_max_interval parsed)
     \/ (exists e, parse_time (observe_time parsed) = Raise e) ->
     run (snapinject shlex_split parse_snap args) σ = run (print "Error: %s") σ1).
Proof.
  split; [|split; [|split; [|split]]].
  - unfold parse_args_safely. rewrite run_try_except, run_bind.
    assert (Hsplit : run (if bool_decide (strip args = "") then mret []
                          else lift (shlex_split (strip args))) σ
                     = (if bool_decide (strip args = "") then Ret []
                        else shlex_split (strip args), σ))
      by (by destruct (bool_decide (strip args = ""))).
    rewrite Hsplit.
    destruct (if bool_decide (strip args = "") then Ret [] else shlex_split (strip args))
      as [tokens|e].
    + rewrite run_bind.
      set (report := if bool_decide (stderr_output (parse_args tokens) = "") then _ else _).
      destruct (run report σ) as [[[]|e] σ2] eqn:Er.
      * rewrite run_bind. cbn [run lift].
        destruct (parse_result (parse_args tokens)) as [ns|e] eqn:Ep.
        -- cbn. by eexists.
        -- destruct e; cbn; by eexists.
      * exfalso. subst report.
        destruct (bool_decide (stderr_output (parse_args tokens) = "")); cbn in Er; done.
    + destruct e; cbn; by eexists.
  - intros σ1 H. unfold autoinject. by rewrite run_bind, H.
  - intros σ1 H. unfold inject. by rewrite run_bind, H.
  - intros parsed σ1 H Hinv. unfold autoinject. rewrite run_bind, H.
    rewrite run_bind, run_try_except, run_bind.
    destruct (campaign_params_rejects _ _ _ σ1 Hinv) as (e & -> & ->).
    rewrite run_bind. destruct (run (print "Error: %s") σ1) as [[[]|e'] σ2] eqn:Ep.
    + reflexivity.
    + cbn in Ep. done.
  - intros parsed σ1 H Hinv. unfold snapinject. rewrite run_bind, H.
    rewrite run_bind, run_try_except, run_bind.
    destruct Hinv as [Hinv|[e He]].
    + destruct (campaign_params_rejects _ _ _ σ1 Hinv) as (e & -> & ->).
      rewrite run_bind. by destruct (run (print "Error: %s") σ1) as [[[]|e'] σ2] eqn:Ep.
    + destruct (campaign_params_pure (snap_total_fault_number parsed)
                  (snap_min_interval parsed) (snap_max_interval parsed) σ1)
        as (o & -> & Ho).
      destruct o as [[[times mint] maxt]|e'].
      * rewrite run_bind. cbn [run lift]. rewrite He.
        apply parse_time_error in He as ->. cbn [is_ValueError_or_AssertionError].
        rewrite run_bind. by destruct (run (print "Error: %s") σ1) as [[[]|e'] σ2] eqn:Ep.
      * rewrite (Ho e' eq_refl).
        rewrite run_bind. by destruct (run (print "Error: %s") σ1) as [[[]|e''] σ2] eqn:Ep.
Qed.

Lemma user_input_errors_return_witness :
  (exists σ',
     run (parse_args_safely plain_split
            (accepts (words_of (chars zero_count_cmd) []) zero_count_args)
            "--total-fault-number many") campaign_world = (Ret None, σ')) /\
  run_autoinject zero_count_cmd zero_count_args = run (print "Error: %s") campaign_world /\
  run_autoinject min_above_max_cmd min_above_max_args = run (print "Error: %s") campaign_world.
Proof.
  split; [|split].
  - destruct (user_input_errors_return plain_split eval_literal
                (accepts (words_of (chars zero_count_cmd) []) zero_count_args)
                (accepts (words_of (chars zero_count_cmd) []) zero_count_args)
                (accepts [] (mkInjectArgs "" None None))
                (accepts [] lone_location_args)
                "--total-fault-number many" campaign_world) as (H & _).
    exact H.
  - destruct (user_input_errors_return plain_split eval_literal
                (accepts (words_of (chars zero_count_cmd) []) zero_count_args)
                (accepts (words_of (chars zero_count_cmd) []) zero_count_args)
                (accepts [] (mkInjectArgs "" None None))
                (accepts [] lone_location_args)
                zero_count_cmd campaign_world) as (_ & _ & _ & H & _).
    apply (H zero_count_args campaign_world); [reflexivity|].
    left. simpl. lia.
  - destruct (user_input_errors_return plain_split eval_literal
                (accepts (words_of (chars min_above_max_cmd) []) min_above_max_args)
                (accepts (words_of (chars min_above_max_cmd) []) min_above_max_args)
                (accepts [] (mkInjectArgs "" None None))
                (accepts [] lone_location_args)
                min_above_max_cmd campaign_world) as (_ & _ & _ & H & _).
    apply (H min_above_max_args campaign_world); [reflexivity|].
    right. right. right. exists 2000000, 1000000.
    split; [vm_compute; reflexivity|]. split; [vm_compute; reflexivity|lia].
Defined.

Example autoinject_rejections :
  (run_autoinject zero_count_cmd zero_count_args).1 = Ret tt /\
  events (run_autoinject zero_count_cmd zero_count_args).2 = [Printed "Error: %s"] /\
  (run_autoinject min_above_max_cmd min_above_max_args).1 = Ret tt /\
  events (run_autoinject min_above_max_cmd min_above_max_args).2 = [Printed "Error: %s"] /\
  (run (autoinject plain_split
          (accepts (words_of (chars zero_count_cmd) []) zero_count_args)
          "--total-fault-number many") campaign_world).1 = Ret tt /\
  events (run (autoinject plain_split
                 (accepts (words_of (chars zero_count_cmd) []) zero_count_args)
                 "--total-fault-number many") campaign_world).2 = [Printed "usage: ..."].
Proof. vm_compute. repeat split; reflexivity. Qed.

(** C9 fails as stated: [inject] with bit 8 of a one-byte word raises
    [OverflowError] out of the handler, and with a negative bit
    [ValueError]; neither is printed. *)
Lemma inject_bit_outside_width_escapes :
  ((run_inject "--address 0x1000 --bytewidth 1 --bit 8"
               (mkInjectArgs "0x1000" (Some 1) (Some 8))).1 = Raise OverflowError /\
   events (run_inject "--address 0x1000 --bytewidth 1 --bit 8"
                      (mkInjectArgs "0x1000" (Some 1) (Some 8))).2 = []) /\
  ((run_inject "--address 0x1000 --bytewidth 1 --bit -1"
               (mkInjectArgs "0x1000" (Some 1) (Some (-1)))).1 = Raise ValueError /\
   events (run_inject "--address 0x1000 --bytewidth 1 --bit -1"
                      (mkInjectArgs "0x1000" (Some 1) (Some (-1)))).2 = []).
Proof. vm_compute. repeat split; reflexivity. Qed.

(* ================================================================== *)
(** * Further properties of the sources *)

(** ** Sampling an address ([FlatView.random_address]) *)

Section Sampling.
Import FlatView.

Lemma randint_bounds a b d :
  a <= b -> exists v, randint a b d = Ret v /\ a <= v <= b.
Proof.
  intros H. unfold randint. destruct (Z.ltb_spec b a); [lia|].
  eexists. split; [done|]. pose proof (Z.mod_pos_bound d (b - a + 1)). lia.
Qed.

(** Walking ranges none of which is reversed, with an offset below their
    total width, ends inside one of them. *)
Lemma random_address_loop_inside rs offset :
  Forall (fun r => r.1 <= r.2) rs ->
  0 <= offset < sum_lens rs ->
  exists a s e, random_address_loop rs offset = Ret a /\ (s, e) ∈ rs /\ s <= a < e.
Proof.
  revert offset. induction rs as [|[s e] rs IH]; intros offset Hle Hoff.
  - cbn in Hoff. lia.
  - rewrite sum_lens_cons in Hoff. apply Forall_cons in Hle as [Hse Hle]. simpl in Hse.
    simpl. destruct (Z.ltb_spec (offset + s) e).
    + exists (offset + s), s, e. split; [done|]. split; [left|lia].
    + destruct (IH (offset + s - e) Hle) as (a & s' & e' & Hw & Hin & Ha); [lia|].
      exists a, s', e'. split; [done|]. split; [by right|done].
Qed.

Lemma sum_lens_nonneg rs :
  Forall (fun r => r.1 <= r.2) rs -> 0 <= sum_lens rs.
Proof.
  induction 1 as [|[s e] rs Hse _ IH]; [cbn; lia|].
  rewrite sum_lens_cons. simpl in Hse. lia.
Qed.

Lemma sum_lens_elem rs s e :
  Forall (fun r => r.1 <= r.2) rs -> (s, e) ∈ rs -> e - s <= sum_lens rs.
Proof.
  induction 1 as [|[s' e'] rs Hse Hrs IH]; [by intros ?%elem_of_nil|].
  rewrite sum_lens_cons. simpl in Hse. pose proof (sum_lens_nonneg rs Hrs).
  intros [[= -> ->]|Hin]%elem_of_cons; [lia|]. specialize (IH Hin). lia.
Qed.

(** The offset that leads to a given byte of a given range. *)
Lemma random_address_loop_reaches pre s e post a :
  Forall (fun r => r.1 <= r.2) pre ->
  s <= a < e ->
  random_address_loop (pre ++ (s, e) :: post) (sum_lens pre + (a - s)) = Ret a.
Proof.
  intros Hpre Ha. induction pre as [|[s' e'] pre IH].
  - change (sum_lens []) with 0. simpl.
    destruct (Z.ltb_spec (0 + (a - s) + s) e); [f_equal; lia|lia].
  - apply Forall_cons in Hpre as [Hse Hpre]. simpl in Hse.
    simpl app. rewrite sum_lens_cons. cbn [random_address_loop].
    pose proof (sum_lens_nonneg pre Hpre) as Hnn.
    destruct (Z.ltb_spec (e' - s' + sum_lens pre + (a - s) + s') e'); [lia|].
    rewrite <- (IH Hpre). f_equal. lia.
Qed.

End Sampling.

(** X1: when no range of kind ["ram"] is reversed and the total length of
    those ranges is positive, [random_address] returns, for every draw, an
    address inside a range of the view whose kind is ["ram"]
    ([start <= a < end]); the [assert False] after its loop is never
    reached. *)
Theorem random_address_always_inside (fv : FlatView.t) (draw : Z) :
  Forall (fun r => MemoryRange.start r <= MemoryRange.end_ r) (ram_kinded fv) ->
  0 < FlatView.sum_lens (bounds (ram_kinded fv)) ->
  exists a r,
    FlatView.random_address fv draw = Ret a /\
    r ∈ FlatView.ranges fv /\ MemoryRange.kind r = "ram" /\
    MemoryRange.start r <= a < MemoryRange.end_ r.
Proof.
  intros Hle Hpos. unfold FlatView.random_address. rewrite ram_ranges_kinded.
  destruct (randint_bounds 0 (FlatView.sum_lens (bounds (ram_kinded fv)) - 1) draw)
    as (off & -> & Hoff); [lia|].
  cbn [mbind outcome_bind].
  destruct (random_address_loop_inside (bounds (ram_kinded fv)) off)
    as (a & s & e & Hrun & Hin & Ha); [|lia|].
  { by apply (bounds_Forall (fun s e => s <= e)). }
  apply bounds_elem in Hin as (r & [Hr Hkind]%ram_kinded_elem & <- & <-).
  by exists a, r.
Qed.

Lemma random_address_always_inside_witness :
  exists a r,
    FlatView.random_address sample_view 123456789 = Ret a /\
    r ∈ FlatView.ranges sample_view /\ MemoryRange.kind r = "ram" /\
    MemoryRange.start r <= a < MemoryRange.end_ r.
Proof.
  apply (random_address_always_inside sample_view 123456789).
  - vm_compute. repeat constructor; discriminate.
  - reflexivity.
Defined.

(** An address that [random_address] returns lies in a range of kind
    ["ram"], before its [end]. *)
Lemma random_address_ret_inside (fv : FlatView.t) (draw a : Z) :
  Forall (fun r => MemoryRange.start r <= MemoryRange.end_ r) (ram_kinded fv) ->
  FlatView.random_address fv draw = Ret a ->
  exists r, r ∈ FlatView.ranges fv /\ MemoryRange.kind r = "ram" /\
            MemoryRange.start r <= a < MemoryRange.end_ r.
Proof.
  intros Hle. unfold FlatView.random_address. rewrite ram_ranges_kinded. unfold randint.
  destruct (Z.ltb_spec (FlatView.sum_lens (bounds (ram_kinded fv)) - 1) 0); [done|].
  cbn [mbind outcome_bind]. intros Hrun.
  destruct (random_address_loop_inside (bounds (ram_kinded fv))
              (0 + draw mod (FlatView.sum_lens (bounds (ram_kinded fv)) - 1 - 0 + 1)))
    as (a' & s & e & Hrun' & Hin & Ha).
  - by apply (bounds_Forall (fun s e => s <= e)).
  - pose proof (Z.mod_pos_bound draw
                  (FlatView.sum_lens (bounds (ram_kinded fv)) - 1 - 0 + 1)). lia.
  - rewrite Hrun in Hrun'. injection Hrun' as <-.
    apply bounds_elem in Hin as (r & [Hr Hkind]%ram_kinded_elem & <- & <-).
    by exists r.
Qed.

(** The draw that leads to a given address of a range of kind ["ram"]. *)
Lemma random_address_reaches (fv : FlatView.t) (r : MemoryRange.t) (a : Z) :
  Forall (fun r => MemoryRange.start r <= MemoryRange.end_ r) (ram_kinded fv) ->
  r ∈ FlatView.ranges fv -> MemoryRange.kind r = "ram" ->
  MemoryRange.start r <= a < MemoryRange.end_ r ->
  exists draw, FlatView.random_address fv draw = Ret a.
Proof.
  intros Hle Hr Hkind Ha.
  pose proof (bounds_Forall (fun s e => s <= e) _ Hle) as Hle'.
  assert (Hin : r ∈ ram_kinded fv) by (by apply ram_kinded_elem).
  destruct (list_elem_of_split _ _ Hin) as (pre & post & Heq).
  exists (FlatView.sum_lens (bounds pre) + (a - MemoryRange.start r)).
  unfold FlatView.random_address. rewrite ram_ranges_kinded.
  rewrite Heq in Hle' |- *. unfold bounds in Hle' |- *.
  rewrite fmap_app, fmap_cons in Hle' |- *.
  apply Forall_app in Hle' as [Hpre Hpost].
  pose proof (sum_lens_nonneg _ Hpre) as Hnn.
  pose proof (sum_lens_nonneg _ Hpost) as Hnn'.
  rewrite sum_lens_cons in Hnn'.
  rewrite randint_in_range.
  - cbn [mbind outcome_bind]. by apply random_address_loop_reaches.
  - rewrite sum_lens_app, sum_lens_cons.
    apply Forall_cons in Hpost as [_ Hpost]. pose proof (sum_lens_nonneg _ Hpost). lia.
Qed.

(** X2: when no range of kind ["ram"] is reversed, the addresses that
    [random_address] can return are exactly those with
    [start <= a < end] for a range of the view of kind ["ram"]: each of
    them is the result for some draw, and no draw gives any other. The
    bound [end] is left out: where it is the last byte of the range, as in
    the lines that [MemoryRange.parse] reads, that byte is drawn from no
    offset of its range. *)
Theorem random_address_reaches_half_open (fv : FlatView.t) (a : Z) :
  Forall (fun r => MemoryRange.start r <= MemoryRange.end_ r) (ram_kinded fv) ->
  (exists draw, FlatView.random_address fv draw = Ret a) <->
  (exists r, r ∈ FlatView.ranges fv /\ MemoryRange.kind r = "ram" /\
             MemoryRange.start r <= a < MemoryRange.end_ r).
Proof.
  intros Hle. split.
  - intros [draw Hrun]. by eapply random_address_ret_inside.
  - intros (r & Hr & Hkind & Ha). by eapply random_address_reaches.
Qed.

Lemma random_address_reaches_half_open_witness :
  (exists draw, FlatView.random_address sample_view draw = Ret 20479) <->
  (exists r, r ∈ FlatView.ranges sample_view /\ MemoryRange.kind r = "ram" /\
             MemoryRange.start r <= 20479 < MemoryRange.end_ r).
Proof.
  apply (random_address_reaches_half_open sample_view 20479).
  vm_compute. repeat constructor; discriminate.
Defined.

(** The view of the one line [1000-1fff (prio 0, ram)], whose end is the
    last byte of the range: no draw returns that byte. *)
Example random_address_never_last_byte :
  forall fv,
    FlatView.ranges fv = omap parsed_range
      ["  0000000000001000-0000000000001fff (prio 0, ram): mach-virt.ram"] ->
    (exists draw, FlatView.random_address fv draw = Ret 8190) /\
    ~ exists draw, FlatView.random_address fv draw = Ret 8191.
Proof.
  intros [rs] Hrs. cbn [FlatView.ranges] in Hrs.
  assert (Hparsed : rs = [MemoryRange.mk 4096 8191 0 "ram" "mach-virt.ram"])
    by (rewrite Hrs; vm_compute; reflexivity).
  clear Hrs. subst rs.
  assert (Hle : Forall (fun r => MemoryRange.start r <= MemoryRange.end_ r)
                  (ram_kinded (FlatView.mk [MemoryRange.mk 4096 8191 0 "ram" "mach-virt.ram"])))
    by (vm_compute; repeat constructor; discriminate).
  split.
  - eapply random_address_reaches; [exact Hle|by left|reflexivity|cbn; lia].
  - intros [draw Hrun].
    destruct (random_address_ret_inside _ _ _ Hle Hrun) as (r & Hr & _ & Ha).
    cbn [FlatView.ranges] in Hr. apply list_elem_of_singleton in Hr as ->. cbn in Ha. lia.
Qed.

(** ** Frames *)

#[global] Instance only_emits_preorder P : PreOrder (only_emits P).
Proof.
  split.
  - intros σ. exists []. by rewrite app_nil_r.
  - intros σ1 σ2 σ3 (l1 & H1 & F1) (l2 & H2 & F2). exists (l1 ++ l2).
    split; [by rewrite H2, H1, app_assoc|by apply Forall_app].
Qed.

Section Frames.
Context (R : World -> World -> Prop) `{!PreOrder R}.

Lemma respects_ret {A} (a : A) : respects R (mret a).
Proof. intros σ. reflexivity. Qed.

Lemma respects_raise {A} e : respects R (@raise A e).
Proof. intros σ. reflexivity. Qed.

Lemma respects_lift {A} (o : outcome A) : respects R (lift o).
Proof. intros σ. reflexivity. Qed.

Lemma respects_get_world : respects R get_world.
Proof. intros σ. reflexivity. Qed.

Lemma respects_py_assert c : respects R (py_assert c).
Proof. intros σ. unfold py_assert. destruct c; reflexivity. Qed.

Lemma respects_bind {A B} (m : M A) (f : A -> M B) :
  respects R m -> (forall a, respects R (f a)) -> respects R (m ≫= f).
Proof.
  intros Hm Hf σ. rewrite run_bind. specialize (Hm σ).
  destruct (run m σ) as [[a|e] σ1]; [|exact Hm].
  etrans; [exact Hm|apply Hf].
Qed.

Lemma respects_bind_ret {A B} (Q : A -> Prop) (m : M A) (f : A -> M B) :
  respects R m -> (forall σ a, (run m σ).1 = Ret a -> Q a) ->
  (forall a, Q a -> respects R (f a)) -> respects R (m ≫= f).
Proof.
  intros Hm HQ Hf σ. rewrite run_bind. specialize (Hm σ). specialize (HQ σ).
  destruct (run m σ) as [[a|e] σ1]; [|exact Hm].
  etrans; [exact Hm|apply Hf, HQ; reflexivity].
Qed.

Lemma respects_try_except {A} (body : M A) caught handler :
  respects R body -> (forall e, respects R (handler e)) ->
  respects R (try_except body caught handler).
Proof.
  intros Hm Hh σ. rewrite run_try_except. specialize (Hm σ).
  destruct (run body σ) as [[a|e] σ1]; [exact Hm|].
  destruct (caught e); [|exact Hm]. etrans; [exact Hm|apply Hh].
Qed.

Lemma respects_repeat_times n body :
  respects R body -> respects R (repeat_times n body).
Proof.
  intros Hb. induction n as [|n IH]; cbn [repeat_times]; [apply respects_ret|].
  apply respects_bind; [done|by intros _].
Qed.

End Frames.

(** One step of a frame proof: through sequences, [try] blocks and
    branches, down to the primitives. *)
Ltac frame_step :=
  lazymatch goal with
  | |- PreOrder _ => apply _
  | |- respects _ (mret _) => apply respects_ret
  | |- respects _ (raise _) => apply respects_raise
  | |- respects _ (lift _) => apply respects_lift
  | |- respects _ get_world => apply respects_get_world
  | |- respects _ (py_assert _) => apply respects_py_assert
  | |- respects _ (mbind _ _) => apply respects_bind; [| |intros ?]
  | |- respects _ (try_except _ _ _) => apply respects_try_except; [| |intros ?]
  | |- respects _ (repeat_times _ _) => apply respects_repeat_times
  | |- respects _ (match ?x with _ => _ end) => destruct x
  | |- respects _ (let _ := _ in _) => cbv zeta
  end.

Ltac frame := repeat frame_step.

Lemma random_randint_range a b σ v :
  (run (random_randint a b) σ).1 = Ret v -> a <= v <= b.
Proof.
  cbn. unfold randint. destruct (Z.ltb_spec b a); [done|]. intros [= <-].
  pose proof (Z.mod_pos_bound (hd 0 (entropy σ)) (b - a + 1)). lia.
Qed.

(** A computation that leaves the world as it was. *)
Lemma respects_readonly {A} R `{!PreOrder R} (m : M A) :
  (forall σ, (run m σ).2 = σ) -> respects R m.
Proof. intros H σ. by rewrite H. Qed.

Lemma read_memory_readonly a w σ : (run (read_memory a w) σ).2 = σ.
Proof.
  unfold read_memory. rewrite run_bind. cbn [run get_world]. by destruct (read_bytes _ _ _).
Qed.

Lemma read_register_readonly name σ : (run (read_register name) σ).2 = σ.
Proof.
  unfold read_register. rewrite run_bind. cbn [run get_world].
  destruct name as [name|]; [|done]. by destruct (assoc _ _).
Qed.

Lemma read_word_readonly name index σ : (run (read_word name index) σ).2 = σ.
Proof.
  unfold read_word. rewrite run_bind.
  pose proof (read_register_readonly (Some name) σ) as H.
  destruct (run (read_register (Some name)) σ) as [[r|e] σ1]; simpl in H; subst σ1; [|done].
  by destruct (words r !! _).
Qed.

(** The footprint of the handlers: a relation that the primitives of a
    handler respect is respected by the handler. *)
Section Footprint.
Context (R : World -> World -> Prop) `{!PreOrder R}.

Hypothesis R_print : forall text, respects R (print text).

Lemma fp_parse_lines lines acc : respects R (FlatView.parse_lines lines acc).
Proof.
  revert acc. induction lines as [|l lines IH]; intros acc; cbn [FlatView.parse_lines]; [frame|].
  destruct (MemoryRange.parse l) as [r|[]]; frame; first [apply IH | apply R_print].
Qed.

Lemma fp_parse_views items acc : respects R (parse_views items acc).
Proof.
  revert acc. induction items as [|[n b] items IH]; intros acc; cbn [parse_views]; [frame|].
  unfold FlatView.parse. frame; first [apply fp_parse_lines | apply IH].
Qed.

Lemma fp_range_loop rest address_spaces views :
  respects R (range_loop rest address_spaces views).
Proof.
  revert views. induction rest as [|l rest IH]; intros views; [cbn [range_loop]; frame|].
  rewrite range_loop_cons. frame; first [apply IH | apply R_print].
Qed.

Lemma fp_parse_flatview_section rest : respects R (_parse_flatview_section rest).
Proof. unfold _parse_flatview_section. frame; apply fp_range_loop. Qed.

Lemma fp_mtree_loop fuel rest views : respects R (mtree_loop fuel rest views).
Proof.
  revert rest views. induction fuel as [|fuel IH]; intros [|l rest] views;
    try (cbn [mtree_loop]; by frame).
  rewrite mtree_loop_cons.
  frame; first [apply IH | apply R_print | apply fp_parse_flatview_section].
Qed.

Hypothesis R_mtree : respects R (qemu_hmp InfoMtree).

Lemma fp_mtree : respects R mtree.
Proof.
  unfold mtree, _parse_mtree_output.
  frame; first [apply R_mtree | apply fp_mtree_loop | apply fp_parse_views].
Qed.

Hypothesis R_draw : respects R draw_entropy.

Lemma fp_sample_address : respects R sample_address.
Proof.
  unfold sample_address, memory_random_address.
  frame; first [apply fp_mtree | apply R_draw].
Qed.

Hypothesis R_randint : forall a b, respects R (random_randint a b).
Hypothesis R_log : forall t o n, respects R (log_single t o n).

Lemma fp_shuffle_from {A} i (x : list A) : respects R (shuffle_from i x).
Proof.
  revert x. induction i as [|i IH]; intros x; cbn [shuffle_from]; frame;
    [apply R_randint|apply IH].
Qed.

(** The flip of a register writes that register and logs a record of it,
    and of no other. *)
Section NamedRegister.
Variable name : option string.
Hypothesis R_set_named :
  forall index v, respects R (set_word (default "" name) index v).
Hypothesis R_log_named :
  forall o n, respects R (log_single (RegisterName (default "" name)) o n).

Lemma fp_inject_register_bitflip_named b : respects R (inject_register_bitflip name b).
Proof.
  unfold inject_register_bitflip.
  frame; first [apply R_randint | apply R_set_named | apply R_log_named | apply R_print
               | apply respects_readonly; [apply _|]; intros;
                 first [apply read_register_readonly | apply read_word_readonly]].
Qed.
End NamedRegister.

(** Trying the registers of a list writes and logs registers of the list
    only. *)
Section SelectedRegisters.
Variable selected : string -> Prop.
Hypothesis R_set_selected :
  forall reg index v, selected reg -> respects R (set_word reg index v).
Hypothesis R_log_selected :
  forall reg o n, selected reg -> respects R (log_single (RegisterName reg) o n).

Lemma fp_try_registers_selected regs b :
  (forall r, r ∈ regs -> selected r) -> respects R (try_registers regs b).
Proof.
  induction regs as [|reg regs IH]; intros Hregs; cbn [try_registers]; [apply R_print|].
  assert (selected reg) by (apply Hregs; by left).
  frame; first [ apply fp_inject_register_bitflip_named; intros;
                 first [by apply R_set_selected | by apply R_log_selected]
               | apply R_print
               | apply IH; intros; apply Hregs; by right ].
Qed.
End SelectedRegisters.

Section RegisterPath.
Hypothesis R_set : forall name index v, respects R (set_word name index v).
Hypothesis R_cache : respects R list_registers.

Lemma fp_inject_register_bitflip name b : respects R (inject_register_bitflip name b).
Proof.
  unfold inject_register_bitflip.
  frame; first [apply R_randint | apply R_set | apply R_log | apply R_print
               | apply respects_readonly; [apply _|]; intros;
                 first [apply read_register_readonly | apply read_word_readonly]].
Qed.

Lemma fp_try_registers regs b : respects R (try_registers regs b).
Proof.
  induction regs as [|r regs IH]; cbn [try_registers]; [apply R_print|].
  frame; first [apply fp_inject_register_bitflip | apply R_print | exact IH].
Qed.

Lemma fp_inject_reg_internal name b : respects R (inject_reg_internal name b).
Proof.
  unfold inject_reg_internal, shuffle.
  frame; first [apply R_cache | apply R_print
               | apply fp_shuffle_from | apply fp_try_registers].
Qed.
End RegisterPath.

Section MemoryPath.
Hypothesis R_write : forall a bs, respects R (write_memory a bs).

Lemma fp_inject_bitflip a w b : respects R (inject_bitflip a w b).
Proof.
  unfold inject_bitflip.
  frame; first [apply R_randint | apply R_write | apply R_log
               | apply respects_readonly; [apply _|]; intros; apply read_memory_readonly].
Qed.
End MemoryPath.

Hypothesis R_cont : respects R (qemu_hmp Cont).

Lemma fp_step_ns ns :
  respects R (qemu_hmp (StopDelayed ns)) -> respects R (step_ns ns).
Proof. intros H. unfold step_ns. frame; first [apply R_cont | apply H]. Qed.

(** One step of a campaign: the guest runs for a delay drawn from
    [[mint, maxt]], then [body]. *)
Lemma fp_campaign_step {A} mint maxt (body : M A) :
  (forall ns, mint <= ns <= maxt -> respects R (qemu_hmp (StopDelayed ns))) ->
  respects R body ->
  respects R (ns ← random_randint mint maxt; step_ns ns;; body).
Proof.
  intros Hstop Hbody.
  apply (respects_bind_ret R (fun ns => mint <= ns <= maxt)); [apply R_randint| |].
  - intros σ ns. apply random_randint_range.
  - intros ns Hns. frame; [by apply fp_step_ns, Hstop|exact Hbody].
Qed.

Section RegisterCampaign.
Hypothesis R_set : forall name index v, respects R (set_word name index v).
Hypothesis R_cache : respects R list_registers.

Lemma fp_autoinject_inner_reg times mint maxt :
  (forall ns, mint <= ns <= maxt -> respects R (qemu_hmp (StopDelayed ns))) ->
  respects R (autoinject_inner times mint maxt reg).
Proof.
  intros Hstop. unfold autoinject_inner. apply respects_repeat_times; [apply _|].
  apply fp_campaign_step; [done|]. by apply fp_inject_reg_internal.
Qed.
End RegisterCampaign.

Section MemoryCampaign.
Hypothesis R_write : forall a bs, respects R (write_memory a bs).

Lemma fp_autoinject_inner_ram times mint maxt :
  (forall ns, mint <= ns <= maxt -> respects R (qemu_hmp (StopDelayed ns))) ->
  respects R (autoinject_inner times mint maxt ram).
Proof.
  intros Hstop. unfold autoinject_inner. apply respects_repeat_times; [apply _|].
  apply fp_campaign_step; [done|].
  frame; [apply fp_sample_address|by apply fp_inject_bitflip].
Qed.
End MemoryCampaign.

End Footprint.

Lemma respects_emit (P : event -> Prop) ev : P ev -> respects (only_emits P) (emit ev).
Proof. intros H σ. exists [ev]. split; [done|by constructor]. Qed.

(** A computation that leaves the record alone emits events of any kind. *)
Lemma respects_silent {A} P (m : M A) :
  (forall σ, events (run m σ).2 = events σ) -> respects (only_emits P) m.
Proof. intros H σ. exists []. by rewrite H, app_nil_r. Qed.

(** The emulator's reaction changes the guest, not the record. *)
Lemma monitor_effect_silent cmd σ : events (run (monitor_effect cmd) σ).2 = events σ.
Proof. cbn. destruct (changes_guest cmd); [|done]. by destruct (guest σ). Qed.

Lemma respects_qemu_hmp (P : event -> Prop) cmd :
  P (Monitor cmd) -> respects (only_emits P) (qemu_hmp cmd).
Proof.
  intros H. unfold qemu_hmp. frame; [by apply respects_emit|].
  apply respects_silent, monitor_effect_silent.
Qed.

Lemma list_registers_silent σ : events (run list_registers σ).2 = events σ.
Proof.
  unfold list_registers. rewrite run_bind. cbn [run get_world]. by destruct (cached_reg_list σ).
Qed.

Lemma write_memory_silent a bs σ : events (run (write_memory a bs) σ).2 = events σ.
Proof.
  unfold write_memory. rewrite run_bind. cbn [run get_world]. by destruct (read_bytes _ _ _).
Qed.

(** X3: whatever [autoinject_inner] does, and whether it returns or raises,
    it only adds to the session's record, and every [stop_delayed] it sends
    carries a delay between [mint] and [maxt]; it never saves, loads or
    deletes a snapshot. *)
Theorem autoinject_inner_delays_in_range (times mint maxt : Z) (ftype : fault_type)
    (σ : World) :
  exists l,
    events (run (autoinject_inner times mint maxt ftype) σ).2 = events σ ++ l /\
    Forall (campaign_event mint maxt) l.
Proof.
  assert (Hstop : forall ns, mint <= ns <= maxt ->
            respects (only_emits (campaign_event mint maxt)) (qemu_hmp (StopDelayed ns))).
  { intros ns Hns. by apply respects_qemu_hmp. }
  destruct ftype.
  - apply (fp_autoinject_inner_ram (only_emits (campaign_event mint maxt))); try done;
      intros; first [by apply respects_emit | by apply respects_qemu_hmp
                    | apply respects_silent; intros; first [done | apply write_memory_silent]].
  - apply (fp_autoinject_inner_reg (only_emits (campaign_event mint maxt))); try done;
      intros; first [by apply respects_emit | by apply respects_qemu_hmp
                    | apply respects_silent; intros; first [done | apply list_registers_silent]].
Qed.

(** *** What only the guest changes *)

#[global] Instance untouched_preorder {X} (f : World -> X) : PreOrder (untouched f).
Proof. unfold untouched. apply _. Qed.

Lemma untouched_kept {X} (f : World -> X) σ σ' :
  f σ' = f σ -> guest σ' = guest σ -> untouched f σ σ'.
Proof. intros Hf Hg. apply rtc_once. by left. Qed.

(** A step that leaves [f] and the reactions alone. *)
Lemma respects_untouched {X A} (f : World -> X) (m : M A) :
  (forall σ, f (run m σ).2 = f σ /\ guest (run m σ).2 = guest σ) ->
  respects (untouched f) m.
Proof. intros H σ. destruct (H σ). by apply untouched_kept. Qed.

Lemma respects_untouched_monitor_effect {X} (f : World -> X) cmd :
  respects (untouched f) (monitor_effect cmd).
Proof.
  intros σ. cbn. destruct (changes_guest cmd) eqn:Hc; [|reflexivity].
  destruct (guest σ) as [|react rest] eqn:Hg; [reflexivity|].
  apply rtc_once. right. exists cmd, react, rest. cbn.
  split; [done|]. split; [done|]. split; [done|]. by destruct (react cmd _).
Qed.

Lemma respects_untouched_qemu_hmp {X} (f : World -> X) cmd :
  (forall ev σ, f (run (emit ev) σ).2 = f σ) ->
  respects (untouched f) (qemu_hmp cmd).
Proof.
  intros Hemit. unfold qemu_hmp. frame.
  - apply respects_untouched. intros σ. split; [apply Hemit|done].
  - apply respects_untouched_monitor_effect.
Qed.

Lemma list_registers_keeps σ :
  memory (run list_registers σ).2 = memory σ /\
  registers (run list_registers σ).2 = registers σ /\
  guest (run list_registers σ).2 = guest σ.
Proof.
  unfold list_registers. rewrite run_bind. cbn [run get_world].
  by destruct (cached_reg_list σ).
Qed.

Lemma write_memory_keeps a bs σ :
  registers (run (write_memory a bs) σ).2 = registers σ /\
  guest (run (write_memory a bs) σ).2 = guest σ.
Proof.
  unfold write_memory. rewrite run_bind. cbn [run get_world].
  by destruct (read_bytes _ _ _).
Qed.

(** While the guest stands still, what is untouched is unchanged. *)
Lemma untouched_idle {X} (f : World -> X) σ σ' :
  untouched f σ σ' -> guest σ = [] -> f σ' = f σ /\ guest σ' = [].
Proof.
  induction 1 as [σ|σ1 σ2 σ3 Hstep _ IH]; [done|]. intros Hg.
  destruct Hstep as [[Hf Hg']|(cmd & react & rest & _ & Hg' & _)]; [|congruence].
  destruct IH as [IH1 IH2]; [congruence|]. split; [congruence|done].
Qed.

(** A register campaign changes guest memory, and a RAM campaign the
    register file, only through the emulator. *)
Lemma register_campaign_untouched times mint maxt σ :
  untouched memory σ (run (autoinject_inner times mint maxt reg) σ).2.
Proof.
  apply (fp_autoinject_inner_reg (untouched memory)); intros;
    first [ by apply respects_untouched_qemu_hmp
          | apply respects_untouched; intros w;
            first [ by split | by destruct (list_registers_keeps w) as (? & ? & ?) ] ].
Qed.

Lemma ram_campaign_untouched times mint maxt σ :
  untouched registers σ (run (autoinject_inner times mint maxt ram) σ).2.
Proof.
  apply (fp_autoinject_inner_ram (untouched registers)); intros;
    first [ by apply respects_untouched_qemu_hmp
          | apply respects_untouched; intros w;
            first [ by split | apply write_memory_keeps ] ].
Qed.

(** X4: the two fault kinds are separate. In a register campaign the
    harness never writes guest memory: whether the campaign returns or
    raises, guest memory has changed only as the emulator's reactions to the
    campaign's commands changed it, every other step having left it as it
    was. In a RAM campaign the same holds of the register file. *)
Theorem campaign_fault_kinds_separate (times mint maxt : Z) (σ : World) :
  untouched memory σ (run (autoinject_inner times mint maxt reg) σ).2 /\
  untouched registers σ (run (autoinject_inner times mint maxt ram) σ).2.
Proof. split; [apply register_campaign_untouched|apply ram_campaign_untouched]. Qed.

(** With a guest that stands still, a register campaign leaves guest
    memory, and a RAM campaign the register file, exactly as they were;
    the RAM campaign of the sample session does change memory. *)
Example campaign_fault_kinds_idle :
  (forall times mint maxt σ,
     guest σ = [] ->
     memory (run (autoinject_inner times mint maxt reg) σ).2 = memory σ) /\
  (forall times mint maxt σ,
     guest σ = [] ->
     registers (run (autoinject_inner times mint maxt ram) σ).2 = registers σ) /\
  memory (run (autoinject_inner 1 5 5 ram) (idle_world sample_registers [0; 0; 3])).2
    <> memory (idle_world sample_registers [0; 0; 3]).
Proof.
  split; [|split].
  - intros times mint maxt σ Hg.
    by destruct (untouched_idle _ _ _ (register_campaign_untouched times mint maxt σ) Hg).
  - intros times mint maxt σ Hg.
    by destruct (untouched_idle _ _ _ (ram_campaign_untouched times mint maxt σ) Hg).
  - intros H. apply (f_equal (fun m => m !! 4096)) in H. vm_compute in H. discriminate H.
Qed.

(** A guest that runs: its reaction to the stop writes a byte. The harness
    of a register campaign then finds memory changed, by the guest. *)
Example register_campaign_guest_runs :
  memory (run (autoinject_inner 1 5 5 reg)
            (mkWorld sample_memory sample_registers None sample_mtree ∅ [0; 0; 0] []
               [fun _ g => (<[4096 := Byte.x00]> g.1, g.2)])).2 !! 4096
    = Some Byte.x00.
Proof. vm_compute. reflexivity. Qed.

(** ** Durations *)

Lemma parse_time_loop_ret units s v :
  parse_time_loop units s = Ret v ->
  exists unit mul n,
    (unit, mul) ∈ units /\ endswith s unit = true /\
    py_int 10 (slice_until_neg s (length (chars unit))) = Ret n /\
    0 < n /\ v = n * mul.
Proof.
  induction units as [|[unit mul] units IH]; cbn [parse_time_loop]; [done|].
  destruct (endswith s unit) eqn:Hend.
  - destruct (py_int 10 _) as [res|e] eqn:E.
    + destruct (Z.leb_spec res 0); [done|]. intros [= <-].
      exists unit, mul, res. split; [left|]. split; [done|]. split; [done|]. split; [lia|done].
    + intros H. assert (e = ValueError) as -> by (by eapply py_int_error).
      destruct (IH H) as (u & m & n & Hin & ?). exists u, m, n. split; [by right|done].
  - intros H. destruct (IH H) as (u & m & n & Hin & ?). exists u, m, n. split; [by right|done].
Qed.

Lemma time_units_positive unit mul :
  (unit, mul) ∈ sorted_items time_units -> (unit, mul) ∈ time_units /\ 0 < mul.
Proof.
  intros Hin.
  assert (Hs : sorted_items time_units
               = [("", 1); ("m", 60000000000); ("ms", 1000000);
                  ("ns", 1); ("s", 1000000000); ("us", 1000)]) by reflexivity.
  rewrite Hs in Hin. unfold time_units.
  repeat (apply elem_of_cons in Hin as [[= -> ->]|Hin];
          [split; [set_solver|lia]|]).
  by apply elem_of_nil in Hin.
Qed.

Lemma parse_time_gt0 s v : parse_time s = Ret v -> 0 < v.
Proof.
  intros H. apply parse_time_loop_ret in H as (unit & mul & n & Hin & _ & _ & Hn & ->).
  destruct (time_units_positive _ _ Hin) as [_ Hmul]. nia.
Qed.

Lemma campaign_params_ret times min_interval max_interval σ t mint maxt σ' :
  run (campaign_params times min_interval max_interval) σ = (Ret (t, mint, maxt), σ') ->
  t = times /\ 1 <= times /\ 0 < mint <= maxt.
Proof.
  unfold campaign_params, py_assert. rewrite run_bind.
  destruct (Z.leb_spec 1 times); [|done]. cbn [run mret M_ret].
  rewrite run_bind. cbn [run lift].
  destruct (parse_time min_interval) as [mi|]; [|done].
  rewrite run_bind. cbn [run lift].
  destruct (parse_time max_interval) as [ma|]; [|done].
  rewrite run_bind.
  destruct (Z.ltb_spec 0 mi); [|done]. destruct (Z.leb_spec mi ma); [|done].
  cbn. intros [= <- <- <- _]. lia.
Qed.

(** X6: a duration that [parse_time] returns is a positive number of
    nanoseconds: a positive count [n], written before one of the unit
    suffixes of the table, times that unit. Zero and negative counts are
    never returned. *)
Theorem parse_time_positive (s : string) (v : Z) :
  parse_time s = Ret v ->
  0 < v /\
  exists unit mul n,
    (unit, mul) ∈ time_units /\ endswith s unit = true /\
    py_int 10 (slice_until_neg s (length (chars unit))) = Ret n /\
    0 < n /\ v = n * mul.
Proof.
  intros H. apply parse_time_loop_ret in H as (unit & mul & n & Hin & Hend & Hint & Hn & ->).
  destruct (time_units_positive _ _ Hin) as [Hin' Hmul]. split; [nia|].
  exists unit, mul, n. done.
Qed.

Lemma parse_time_positive_witness :
  0 < 5000000 /\
  exists unit mul n,
    (unit, mul) ∈ time_units /\ endswith "5ms" unit = true /\
    py_int 10 (slice_until_neg "5ms" (length (chars unit))) = Ret n /\
    0 < n /\ 5000000 = n * mul.
Proof. apply (parse_time_positive "5ms" 5000000). vm_compute. reflexivity. Defined.


(** The footprint of the campaign commands. The delays that reach the
    monitor are those of the campaign's steps, between the parsed minimum
    and maximum, and the observation time; all of them are positive. *)
Section CommandFootprint.
Context (R : World -> World -> Prop) `{!PreOrder R}.
Variable shlex_split : string -> outcome (list string).

Hypothesis R_print : forall text, respects R (print text).
Hypothesis R_log : forall t o n, respects R (log_single t o n).
Hypothesis R_randint : forall a b, respects R (random_randint a b).
Hypothesis R_draw : respects R draw_entropy.
Hypothesis R_set : forall name index v, respects R (set_word name index v).
Hypothesis R_cache : respects R list_registers.
Hypothesis R_write : forall a bs, respects R (write_memory a bs).
Hypothesis R_mtree : respects R (qemu_hmp InfoMtree).
Hypothesis R_cont : respects R (qemu_hmp Cont).
Hypothesis R_stop : forall ns, 0 < ns -> respects R (qemu_hmp (StopDelayed ns)).

Lemma fp_parse_args_safely {N} (parse_args : list string -> parse_run N) args :
  respects R (parse_args_safely shlex_split parse_args args).
Proof. unfold parse_args_safely. frame; apply R_print. Qed.

Lemma fp_campaign_params times min_interval max_interval :
  respects R (campaign_params times min_interval max_interval).
Proof. unfold campaign_params. frame. Qed.

Lemma fp_autoinject_inner times mint maxt ftype :
  0 < mint -> respects R (autoinject_inner times mint maxt ftype).
Proof.
  intros Hmint.
  assert (forall ns, mint <= ns <= maxt -> respects R (qemu_hmp (StopDelayed ns)))
    by (intros; apply R_stop; lia).
  destruct ftype; [by apply fp_autoinject_inner_ram|by apply fp_autoinject_inner_reg].
Qed.

Lemma fp_targeted_loop n mint maxt ftype location bit_index :
  0 < mint -> respects R (targeted_loop n mint maxt ftype location bit_index).
Proof.
  intros Hmint. induction n as [|n IH]; cbn [targeted_loop]; [frame|].
  apply fp_campaign_step; try done; [intros; apply R_stop; lia|].
  frame; first [exact IH | apply R_print | by apply fp_inject_bitflip
               | by apply fp_inject_register_bitflip].
Qed.

Lemma fp_autoinject (parse_args : list string -> parse_run autoinject_args) args :
  respects R (autoinject shlex_split parse_args args).
Proof.
  unfold autoinject.
  apply respects_bind; [apply _|apply fp_parse_args_safely|]. intros [parsed|]; [|frame].
  apply (respects_bind_ret R
           (fun p => match p with Some (_, mint, _) => 0 < mint | None => True end)).
  - frame; first [apply fp_campaign_params | apply R_print].
  - intros σ p. rewrite run_try_except, run_bind.
    destruct (run (campaign_params _ _ _) σ) as [[[[t mi] ma]|e] σ1] eqn:E.
    + apply campaign_params_ret in E. cbn. intros [= <-]. lia.
    + destruct (is_ValueError_or_AssertionError e); cbn; [|done]. by intros [= <-].
  - intros [[[t mi] ma]|] Hp; frame; first [by apply fp_autoinject_inner | apply R_print].
Qed.

Hypothesis R_loadvm : forall name, respects R (qemu_hmp (Loadvm name)).
Hypothesis R_savevm : forall uuid, respects R (qemu_hmp (Savevm (TmpName uuid))).
Hypothesis R_delvm : forall uuid, respects R (qemu_hmp (Delvm (TmpName uuid))).
Hypothesis R_serial : forall text, respects R (send_to_qemu_serial text).

Lemma fp_snapinject (parse_args : list string -> parse_run snapinject_args) args :
  respects R (snapinject shlex_split parse_args args).
Proof.
  unfold snapinject.
  apply respects_bind; [apply _|apply fp_parse_args_safely|]. intros [parsed|]; [|frame].
  apply (respects_bind_ret R
           (fun p => match p with
                     | Some (_, mint, _, obtime) => 0 < mint /\ 0 < obtime
                     | None => True
                     end)).
  - frame; first [apply fp_campaign_params | apply R_print].
  - intros σ p. rewrite run_try_except, run_bind.
    destruct (run (campaign_params _ _ _) σ) as [[[[t mi] ma]|e] σ1] eqn:E.
    + apply campaign_params_ret in E. rewrite run_bind. cbn [run lift].
      destruct (parse_time (observe_time parsed)) as [ob|e] eqn:Eob.
      * apply parse_time_gt0 in Eob. cbn. intros [= <-]. lia.
      * destruct (is_ValueError_or_AssertionError e); cbn; [|done]. by intros [= <-].
    + destruct (is_ValueError_or_AssertionError e); cbn; [|done]. by intros [= <-].
  - intros [[[[t mi] ma] ob]|] Hp; [|frame]. destruct Hp as [Hmi Hob].
    frame; first [ apply R_print | apply R_draw | apply R_savevm | apply R_loadvm
                 | apply R_delvm | apply R_serial | by apply fp_autoinject_inner
                 | by apply fp_targeted_loop | by apply fp_step_ns, R_stop ].
Qed.

End CommandFootprint.

(** X5: [snapinject] never saves or deletes a snapshot under a name of the
    user's: whatever its arguments, and whether it returns or raises, every
    [savevm] and every [delvm] it sends names the temporary snapshot of the
    command, so that a snapshot given by [--snapshot-tag] is only ever
    loaded. *)
Theorem snapinject_spares_tagged_snapshots
    (shlex_split : string -> outcome (list string))
    (parse_args : list string -> parse_run snapinject_args) (args : string) (σ : World) :
  exists l,
    events (run (snapinject shlex_split parse_args args) σ).2 = events σ ++ l /\
    Forall spares_tagged_snapshots l.
Proof.
  apply (fp_snapinject (only_emits spares_tagged_snapshots)); intros;
    first [ by apply respects_emit
          | by apply respects_qemu_hmp
          | apply respects_qemu_hmp; simpl; by eauto
          | apply respects_silent; intros;
            first [done | apply list_registers_silent | apply write_memory_silent] ].
Qed.

(** X16: every [stop_delayed] that the campaign commands send carries a
    positive delay. Whatever the arguments of [autoinject] and [snapinject],
    and whether they return or raise, the delays of the steps lie between
    two parsed durations and the observation time is a parsed duration, and
    a parsed duration is positive. *)
Theorem campaign_delays_positive
    (shlex_split : string -> outcome (list string))
    (parse_auto : list string -> parse_run autoinject_args)
    (parse_snap : list string -> parse_run snapinject_args) (args : string) (σ : World) :
  (exists l,
     events (run (autoinject shlex_split parse_auto args) σ).2 = events σ ++ l /\
     Forall positive_delay l) /\
  (exists l,
     events (run (snapinject shlex_split parse_snap args) σ).2 = events σ ++ l /\
     Forall positive_delay l).
Proof.
  split.
  - apply (fp_autoinject (only_emits positive_delay)); intros;
      first [ by apply respects_emit
            | by apply respects_qemu_hmp
            | apply respects_silent; intros;
              first [done | apply list_registers_silent | apply write_memory_silent] ].
  - apply (fp_snapinject (only_emits positive_delay)); intros;
      first [ by apply respects_emit
            | by apply respects_qemu_hmp
            | apply respects_silent; intros;
              first [done | apply list_registers_silent | apply write_memory_silent] ].
Qed.

(** ** The memory-tree parser as a whole *)

Section ParserTotal.

Lemma with_events_nil σ : with_events [] σ = σ.
Proof. destruct σ. unfold with_events. cbn. by rewrite app_nil_r. Qed.

Lemma with_events_app l1 l2 σ : with_events l2 (with_events l1 σ) = with_events (l1 ++ l2) σ.
Proof. unfold with_events. cbn. by rewrite app_assoc. Qed.

Lemma run_print text σ : run (print text) σ = (Ret tt, with_events [Printed text] σ).
Proof. reflexivity. Qed.

Lemma memory_range_parse_error line e : MemoryRange.parse line = Raise e -> e = ValueError.
Proof.
  unfold MemoryRange.parse.
  destruct (re_match _ _ _) as [[|g1 [|g2 [|g3 [|g4 [|g5 [|g6 gs]]]]]]|];
    try (by intros [= <-]).
  destruct (py_int 16 (of_chars g1)), (py_int 16 (of_chars g2)), (py_int 10 (of_chars g3));
    try done; by intros [= <-].
Qed.

Lemma omap_length_le {A B} (f : A -> option B) (l : list A) :
  (length (omap f l) <= length l)%nat.
Proof.
  induction l as [|x l IH]; [done|]. cbn [omap list_omap].
  destruct (f x); cbn [length]; fold (omap f l); lia.
Qed.

Lemma parse_lines_run lines acc σ :
  run (FlatView.parse_lines lines acc) σ =
    (Ret (acc ++ omap parsed_range lines),
     with_events (replicate (length lines - length (omap parsed_range lines)) skip_warning) σ).
Proof.
  revert acc σ. induction lines as [|l lines IH]; intros acc σ.
  - cbn. by rewrite app_nil_r, with_events_nil.
  - cbn [FlatView.parse_lines omap list_omap]. fold (omap parsed_range lines).
    pose proof (omap_length_le parsed_range lines) as Hlen.
    assert (Hp : parsed_range l = match MemoryRange.parse l with
                                  | Ret r => Some r | Raise _ => None end) by done.
    destruct (MemoryRange.parse l) as [r|e] eqn:E; rewrite Hp.
    + rewrite IH, <- app_assoc. done.
    + apply memory_range_parse_error in E as ->.
      rewrite run_bind, run_print, IH, with_events_app.
      do 2 f_equal. cbn [length].
      replace (S (length lines) - length (omap parsed_range lines))%nat
        with (S (length lines - length (omap parsed_range lines))) by lia.
      done.
Qed.

Lemma parse_views_total items acc σ :
  exists views σ', run (parse_views items acc) σ = (Ret views, σ').
Proof.
  revert acc σ. induction items as [|[n b] items IH]; intros acc σ; cbn [parse_views].
  - by eexists _, _.
  - unfold FlatView.parse. rewrite !run_bind, parse_lines_run. cbn [run mret M_ret]. apply IH.
Qed.

End ParserTotal.

(** X7: [FlatView.parse] never raises. It returns the ranges of the lines
    that parse, in the order of the lines, and prints one warning for each
    line that does not. *)
Theorem flatview_parse_skips_bad_lines (lines : list string) (σ : World) :
  run (FlatView.parse lines) σ =
    (Ret (FlatView.mk (omap parsed_range lines)),
     with_events (replicate (length lines - length (omap parsed_range lines)) skip_warning) σ).
Proof. unfold FlatView.parse. by rewrite run_bind, parse_lines_run. Qed.

(** X8: [_parse_mtree_output] ends on every text. Its outer loop moves on by
    at least one line at each turn, so it never runs past the number of
    lines; it returns the mapping, or leaves with the [ValueError] of a
    malformed [AS] line or the [KeyError] of a section's bookkeeping, and
    with nothing else. *)
Theorem parse_mtree_output_ends (output : string) (σ : World) :
  (exists views σ', run (_parse_mtree_output output) σ = (Ret views, σ')) \/
  (exists e σ', run (_parse_mtree_output output) σ = (Raise e, σ') /\ parser_error e).
Proof.
  unfold _parse_mtree_output. rewrite run_bind.
  destruct (mtree_loop_terminates (split output newline) ∅ σ)
    as [(e & σ' & -> & He)|(views & σ' & ->)].
  - right. by exists e, σ'.
  - left. apply parse_views_total.
Qed.

(** ** The address spaces of one section *)

Section Sections.

Lemma header_inv_empty : header_inv [] ∅.
Proof. intros n. by rewrite lookup_empty. Qed.

Lemma header_inv_insert names views n :
  header_inv names views -> header_inv (names ++ [n]) (<[n := []]> views).
Proof.
  intros H m. destruct (decide (m = n)) as [->|Hne].
  - rewrite lookup_insert_eq, bool_decide_eq_true_2; [done|set_solver].
  - rewrite lookup_insert_ne by done. rewrite H.
    destruct (bool_decide_reflect (m ∈ names)) as [Hin|Hin].
    + rewrite bool_decide_eq_true_2; [done|set_solver].
    + rewrite bool_decide_eq_false_2; [done|set_solver].
Qed.

Lemma header_loop_inv rest names views ex names' views' :
  header_inv names views ->
  header_loop rest names views = Ret (ex, names', views') ->
  header_inv names' views'.
Proof.
  revert names views. induction rest as [|l rest IH]; intros names views Hinv.
  - cbn. by intros [= _ <- <-].
  - rewrite header_loop_cons.
    destruct (startswith (rstrip l) as_prefix).
    + destruct (_extract_address_space_name (rstrip l)) as [n|e]; cbn [mbind outcome_bind]; [|done].
      apply IH. by apply header_inv_insert.
    + destruct (startswith (rstrip l) " Root "); [by intros [= _ <- <-]|].
      destruct (startswith (rstrip l) "FlatView #"); [by intros [= _ <- <-]|].
      by apply IH.
Qed.

Lemma occurrences_cons n a names :
  occurrences n (a :: names) =
    if bool_decide (a = n) then S (occurrences n names) else occurrences n names.
Proof.
  unfold occurrences. rewrite filter_cons.
  destruct (decide (a = n)) as [->|Hne].
  - by rewrite bool_decide_eq_true_2.
  - by rewrite bool_decide_eq_false_2.
Qed.

(** [append_all] adds the line to the body of each name, once for each
    time the name is listed. *)
Lemma append_all_spec names line views :
  (forall n, n ∈ names -> is_Some (views !! n)) ->
  exists views',
    append_all names line views = Ret views' /\
    forall n, views' !! n = (fun b => b ++ replicate (occurrences n names) line) <$> views !! n.
Proof.
  revert views. induction names as [|a names IH]; intros views Hall.
  - exists views. split; [done|]. intros n. cbn.
    destruct (views !! n); cbn; [by rewrite app_nil_r|done].
  - cbn [append_all]. destruct (Hall a) as [body Hbody]; [set_solver|]. rewrite Hbody.
    destruct (IH (<[a := body ++ [line]]> views)) as (views' & -> & Hv).
    { intros n Hn. destruct (decide (n = a)) as [->|Hne].
      - rewrite lookup_insert_eq. eauto.
      - rewrite lookup_insert_ne by done. apply Hall. set_solver. }
    exists views'. split; [done|]. intros n. rewrite Hv, occurrences_cons.
    destruct (decide (a = n)) as [->|Hne].
    + rewrite lookup_insert_eq, Hbody, bool_decide_eq_true_2 by done. cbn.
      by rewrite <- app_assoc.
    + by rewrite lookup_insert_ne, bool_decide_eq_false_2 by done.
Qed.

Lemma delete_all_missing names views n :
  n ∈ names -> views !! n = None -> delete_all names views = Raise KeyError.
Proof.
  revert views. induction names as [|a names IH]; intros views Hin Hn; [set_solver|].
  cbn [delete_all]. destruct (views !! a) as [b|] eqn:Ha; [|done].
  apply IH.
  - apply elem_of_cons in Hin as [->|Hin]; [congruence|done].
  - destruct (decide (n = a)) as [->|Hne]; [apply lookup_delete_eq|].
    by rewrite lookup_delete_ne.
Qed.

Lemma delete_all_dup names views :
  ~ NoDup names -> delete_all names views = Raise KeyError.
Proof.
  revert views. induction names as [|a names IH]; intros views Hdup.
  - exfalso. apply Hdup. constructor.
  - cbn [delete_all]. destruct (views !! a) as [b|] eqn:Ha; [|done].
    destruct (decide (a ∈ names)) as [Hin|Hin].
    + eapply delete_all_missing; [exact Hin|apply lookup_delete_eq].
    + apply IH. intros Hnd. apply Hdup. by constructor.
Qed.

Lemma delete_all_nodup names views :
  header_inv names views -> NoDup names -> delete_all names views = Ret ∅.
Proof.
  revert views. induction names as [|a names IH]; intros views Hinv Hnd.
  - cbn. f_equal. apply map_eq. intros n. rewrite Hinv, lookup_empty.
    rewrite bool_decide_eq_false_2; [done|set_solver].
  - apply NoDup_cons in Hnd as [Ha Hnd]. cbn [delete_all].
    rewrite Hinv, bool_decide_eq_true_2 by set_solver.
    apply IH; [|done]. intros n. destruct (decide (n = a)) as [->|Hne].
    + rewrite lookup_delete_eq, bool_decide_eq_false_2; done.
    + rewrite lookup_delete_ne, Hinv by done.
      destruct (bool_decide_reflect (n ∈ names)) as [Hin|Hin].
      * rewrite bool_decide_eq_true_2; [done|set_solver].
      * rewrite bool_decide_eq_false_2; [done|set_solver].
Qed.

(** The header loop on a header of well-formed lines that ends at its
    [Root] line. *)
Lemma header_loop_run hdr root rest names views :
  Forall (fun l => passed_in_header l = true) hdr ->
  is_AS_line root = false -> startswith (rstrip root) " Root " = true ->
  exists views',
    header_loop (hdr ++ root :: rest) names views
      = Ret (HeaderDone rest, names ++ header_names hdr, views').
Proof.
  intros Hhdr Has Hroot. revert names views.
  induction Hhdr as [|l hdr Hl _ IH]; intros names views.
  - simpl app. rewrite header_loop_cons. unfold is_AS_line in Has. rewrite Has, Hroot.
    exists views. by rewrite app_nil_r.
  - simpl app. rewrite header_loop_cons. unfold header_names. cbn [omap list_omap].
    unfold passed_in_header in Hl. unfold is_AS_line in *.
    destruct (startswith (rstrip l) as_prefix).
    + unfold _extract_address_space_name. rewrite Hl. cbn [mbind outcome_bind].
      destruct (IH (names ++ [nth 1 (split (rstrip l) dquote) ""])
                   (<[nth 1 (split (rstrip l) dquote) "" := []]> views)) as [v Hv].
      exists v. rewrite Hv. by rewrite <- app_assoc.
    + apply andb_prop in Hl as [H1 H2]. unfold is_flatview_line in H2.
      destruct (startswith (rstrip l) " Root "); [done|].
      destruct (startswith (rstrip l) "FlatView #"); [done|]. apply IH.
Qed.

(** The range loop on the lines of a body, up to the line that ends it. *)
Lemma range_loop_run lines tail names views σ :
  (forall n, n ∈ names -> is_Some (views !! n)) ->
  Forall (fun l => ends_ranges l = false) lines ->
  match tail with [] => True | l :: _ => ends_ranges l = true end ->
  exists views',
    run (range_loop (lines ++ tail) names views) σ =
      (Ret (tail, views'),
       with_events (replicate (length lines - length (body_ranges lines))
                              range_loop_warning) σ) /\
    forall n, views' !! n =
      (fun b => b ++ (body_ranges lines ≫= replicate (occurrences n names))) <$> views !! n.
Proof.
  intros Hall Hlines Htail. revert views σ Hall.
  induction Hlines as [|l lines Hl _ IH]; intros views σ Hall.
  - exists views. split.
    + cbn [app length body_ranges filter fmap]. rewrite with_events_nil.
      destruct tail as [|t tail]; [done|]. rewrite range_loop_cons.
      unfold ends_ranges, is_range_line, is_flatview_line in Htail.
      apply andb_prop in Htail as [H1%negb_true_iff H2]. by rewrite H1, H2.
    + intros n. cbn. destruct (views !! n); cbn; [by rewrite app_nil_r|done].
  - simpl app. rewrite range_loop_cons. unfold body_ranges. rewrite filter_cons.
    unfold ends_ranges, is_flatview_line in Hl.
    destruct (is_range_line l) eqn:Hr.
    + unfold is_range_line in Hr. rewrite Hr.
      destruct (append_all_spec names (rstrip l) views Hall) as (v1 & Hv1 & Hlook).
      rewrite run_bind. cbn [run lift]. rewrite Hv1.
      destruct (IH v1 σ) as (views' & Hrun & Hv).
      { intros n Hn. rewrite Hlook. destruct (Hall n Hn) as [b ->]. cbn. eauto. }
      exists views'. rewrite decide_True by done. split.
      * by rewrite Hrun.
      * intros n. rewrite Hv, Hlook. cbn [fmap list_fmap mbind list_bind].
        fold (body_ranges lines). destruct (views !! n); cbn; [|done].
        by rewrite <- app_assoc.
    + unfold is_range_line in Hr. rewrite Hr. cbn [negb andb] in Hl. rewrite Hl.
      apply orb_false_elim in Hl as [_ Hne%bool_decide_eq_false].
      rewrite visible_rstrip by done. rewrite run_bind, run_print.
      destruct (IH views (with_events [range_loop_warning] σ) Hall) as (views' & Hrun & Hv).
      exists views'. rewrite decide_False by done. split; [|done].
      unfold range_loop_warning in *. rewrite Hrun, with_events_app. do 2 f_equal.
      fold (body_ranges lines). cbn [length].
      assert (length (body_ranges lines) <= length lines)%nat.
      { unfold body_ranges. rewrite length_fmap. apply length_filter. }
      replace (S (length lines) - length (body_ranges lines))%nat
        with (S (length lines - length (body_ranges lines))) by lia.
      reflexivity.
Qed.

End Sections.

(** X9: a section whose header ends at a [Root] line followed by
    ["  No rendered FlatView"] contributes no address space at all when the
    names of its header are distinct; when the header names an address
    space twice, the second [del] of that name raises [KeyError]. *)
Theorem unrendered_section_yields_nothing (rest rest' : list string) (l : string)
    (names : list string) (views : gmap string (list string)) (σ : World) :
  header_loop rest [] ∅ = Ret (HeaderDone (l :: rest'), names, views) ->
  startswith (rstrip l) "  No rendered FlatView" = true ->
  run (_parse_flatview_section rest) σ =
    (if bool_decide (NoDup names) then Ret (rest', ∅) else Raise KeyError, σ).
Proof.
  intros Hh Hl. unfold _parse_flatview_section. rewrite run_bind. cbn [run lift].
  rewrite Hh. cbv beta iota. rewrite Hl, run_bind. cbn [run lift].
  pose proof (header_loop_inv _ _ _ _ _ _ header_inv_empty Hh) as Hinv.
  destruct (bool_decide_reflect (NoDup names)) as [Hnd|Hnd].
  - by rewrite (delete_all_nodup _ _ Hinv Hnd).
  - by rewrite (delete_all_dup _ _ Hnd).
Qed.

Lemma unrendered_section_yields_nothing_witness :
  run (_parse_flatview_section doubled_unrendered_section) bare_world =
    (if bool_decide (NoDup ["memory"; "memory"]) then Ret ([], ∅) else Raise KeyError,
     bare_world).
Proof.
  apply (unrendered_section_yields_nothing doubled_unrendered_section []
           "  No rendered FlatView" ["memory"; "memory"] {[ "memory" := [] ]}).
  - vm_compute. reflexivity.
  - vm_compute. reflexivity.
Defined.

(** X10: the address spaces of one section share its ranges. A section
    with a header of well-formed lines, its [Root] line, and a body that
    runs up to the next section, a blank line or the end of the text gives
    exactly the address spaces that the [AS] lines of the header name; each
    of them holds the range lines of the body, in their order, and a name
    that the header lists [k] times holds every line [k] times over. The
    other lines of the body are reported, one warning each, and the section
    hands back the lines from the one that ended it. *)
Theorem section_address_spaces_share_ranges (hdr : list string) (root : string)
    (lines tail : list string) (σ : World) :
  Forall (fun l => passed_in_header l = true) hdr ->
  is_AS_line root = false -> startswith (rstrip root) " Root " = true ->
  Forall (fun l => ends_ranges l = false) lines ->
  match tail with [] => True | l :: _ => ends_ranges l = true end ->
  (forall l, head (lines ++ tail) = Some l ->
             startswith (rstrip l) "  No rendered FlatView" = false) ->
  exists views,
    run (_parse_flatview_section (hdr ++ root :: lines ++ tail)) σ =
      (Ret (tail, views),
       with_events (replicate (length lines - length (body_ranges lines))
                              range_loop_warning) σ) /\
    forall n,
      views !! n =
        if bool_decide (n ∈ header_names hdr)
        then Some (body_ranges lines ≫= replicate (occurrences n (header_names hdr)))
        else None.
Proof.
  intros Hhdr Has Hroot Hlines Htail Hfirst.
  unfold _parse_flatview_section. rewrite run_bind. cbn [run lift].
  destruct (header_loop_run hdr root (lines ++ tail) [] ∅ Hhdr Has Hroot) as [hviews Hh].
  rewrite Hh. cbn [app] in Hh |- *.
  pose proof (header_loop_inv _ _ _ _ _ _ header_inv_empty Hh) as Hinv.
  cbv beta iota.
  assert (Hloop : exists views,
            run (range_loop (lines ++ tail) (header_names hdr) hviews) σ =
              (Ret (tail, views),
               with_events (replicate (length lines - length (body_ranges lines))
                                      range_loop_warning) σ) /\
            forall n, views !! n =
              if bool_decide (n ∈ header_names hdr)
              then Some (body_ranges lines ≫= replicate (occurrences n (header_names hdr)))
              else None).
  { destruct (range_loop_run lines tail (header_names hdr) hviews σ)
      as (views & Hrun & Hv); [|done|done|].
    { intros n Hn. rewrite Hinv, bool_decide_eq_true_2 by done. eauto. }
    exists views. split; [done|]. intros n. rewrite Hv, Hinv.
    by destruct (bool_decide (n ∈ header_names hdr)). }
  destruct (lines ++ tail) as [|l rest''] eqn:Hlt.
  - apply app_eq_nil in Hlt as [-> ->]. cbn in Hloop. exact Hloop.
  - rewrite (Hfirst l eq_refl). exact Hloop.
Qed.

Lemma section_address_spaces_share_ranges_witness :
  exists views,
    run (_parse_flatview_section
           ([ q (q " AS " +:+ "memory") +:+ ", root: system";
              q (q " AS " +:+ "memory") +:+ ", root: alias" ]
            ++ " Root memory region: system"
            :: [ "  0000000000001000-0000000000001fff (prio 0, ram): mach-virt.ram";
                 "  (unmapped)" ]
            ++ [ ""; "FlatView #1" ])) bare_world =
      (Ret ([ ""; "FlatView #1" ], views),
       with_events
         (replicate
            (length [ "  0000000000001000-0000000000001fff (prio 0, ram): mach-virt.ram";
                      "  (unmapped)" ]
             - length (body_ranges
                 [ "  0000000000001000-0000000000001fff (prio 0, ram): mach-virt.ram";
                   "  (unmapped)" ]))
            range_loop_warning) bare_world) /\
    forall n,
      views !! n =
        if bool_decide
             (n ∈ header_names [ q (q " AS " +:+ "memory") +:+ ", root: system";
                                 q (q " AS " +:+ "memory") +:+ ", root: alias" ])
        then Some (body_ranges
                     [ "  0000000000001000-0000000000001fff (prio 0, ram): mach-virt.ram";
                       "  (unmapped)" ]
                   ≫= replicate
                        (occurrences n
                           (header_names
                              [ q (q " AS " +:+ "memory") +:+ ", root: system";
                                q (q " AS " +:+ "memory") +:+ ", root: alias" ])))
        else None.
Proof.
  apply (section_address_spaces_share_ranges
           [ q (q " AS " +:+ "memory") +:+ ", root: system";
             q (q " AS " +:+ "memory") +:+ ", root: alias" ]
           " Root memory region: system"
           [ "  0000000000001000-0000000000001fff (prio 0, ram): mach-virt.ram";
             "  (unmapped)" ]
           [ ""; "FlatView #1" ] bare_world).
  - repeat constructor.
  - vm_compute. reflexivity.
  - vm_compute. reflexivity.
  - repeat constructor.
  - vm_compute. reflexivity.
  - intros l [= <-]. vm_compute. reflexivity.
Defined.

(** The section above gives the one name ["memory"], with the range line
    twice, after one warning. *)
Example doubled_section_views :
  run (_parse_flatview_section
         (doubled_section ++ [ "  (unmapped)"; ""; "FlatView #1" ])) bare_world =
    (Ret ([ ""; "FlatView #1" ],
          {[ "memory" :=
               [ "  0000000000001000-0000000000001fff (prio 0, ram): mach-virt.ram";
                 "  0000000000001000-0000000000001fff (prio 0, ram): mach-virt.ram" ] ]}),
     with_events [range_loop_warning] bare_world).
Proof. vm_compute. reflexivity. Qed.

(** ** Lines that [MemoryRange.parse] accepts *)

Section RangeLineFormat.

Lemma greedy_stops {R} p (k : list ascii -> list ascii -> option R) taken xs rest r :
  Forall (fun c => p c = true) xs -> stops p rest ->
  k (rev xs ++ taken) rest = Some r ->
  greedy p k taken (xs ++ rest) = Some r.
Proof.
  intros Hxs Hstop. revert taken. induction Hxs as [|x xs Hx _ IH]; intros taken Hk.
  - simpl in *. destruct rest as [|c rest]; [done|]. simpl in Hstop. simpl. by rewrite Hstop.
  - simpl. rewrite Hx. rewrite IH; [done|]. simpl in Hk. by rewrite <- app_assoc in Hk.
Qed.

Lemma re_match_star_intro p r xs rest caps res :
  Forall (fun c => p c = true) xs -> stops p rest ->
  re_match r rest caps = Some res ->
  re_match (Star p :: r) (xs ++ rest) caps = Some res.
Proof. intros. simpl. by apply greedy_stops. Qed.

Lemma re_match_plus_intro p r xs rest caps res :
  xs <> [] -> Forall (fun c => p c = true) xs -> stops p rest ->
  re_match r rest caps = Some res ->
  re_match (Plus p :: r) (xs ++ rest) caps = Some res.
Proof.
  intros Hne Hxs Hstop Hk. destruct xs as [|x xs]; [done|].
  apply Forall_cons in Hxs as [Hx Hxs]. simpl. rewrite Hx. by apply greedy_stops.
Qed.

Lemma re_match_group_intro p r xs rest caps res :
  xs <> [] -> Forall (fun c => p c = true) xs -> stops p rest ->
  re_match r rest (xs :: caps) = Some res ->
  re_match (Group p :: r) (xs ++ rest) caps = Some res.
Proof.
  intros Hne Hxs Hstop Hk. destruct xs as [|x xs]; [done|].
  apply Forall_cons in Hxs as [Hx Hxs]. simpl. rewrite Hx. apply greedy_stops; [done..|].
  by rewrite rev_app_distr, rev_involutive.
Qed.

Lemma hex_facts c :
  ishex c = true ->
  isspace c = false /\ Ascii.eqb c "_" = false /\ Ascii.eqb c "-" = false /\
  Ascii.eqb c "+" = false /\ Ascii.eqb c "x" = false /\ Ascii.eqb c "X" = false /\
  digit_in 16 c = Some (default 0 (digit_value c)).
Proof. destruct c as [[] [] [] [] [] [] [] []]; vm_compute; intros; done. Qed.

Lemma int_digits_hex ds acc :
  Forall (fun c => ishex c = true) ds ->
  int_digits 16 ds acc
    = Some (fold_left (fun a c => a * 16 + default 0 (digit_value c)) ds acc).
Proof.
  intros H. revert acc. induction H as [|c ds Hc _ IH]; intros acc; [done|].
  destruct (hex_facts c Hc) as (_ & Hu & _ & _ & _ & _ & Hd).
  simpl. rewrite Hu, Hd. apply IH.
Qed.

Lemma py_int_hex ds :
  ds <> [] -> Forall (fun c => ishex c = true) ds ->
  py_int 16 (of_chars ds) = Ret (hex_value ds).
Proof.
  intros Hne Hds. unfold py_int. rewrite chars_of_chars.
  rewrite int_strip_chars_visible.
  2:{ eapply Forall_impl; [exact Hds|]. intros c Hc. by destruct (hex_facts c Hc). }
  destruct ds as [|c ds]; [done|]. apply Forall_cons in Hds as [Hc Hds].
  destruct (hex_facts c Hc) as (_ & _ & Hm & Hp & _ & _ & Hd).
  rewrite Hm, Hp.
  assert (Hskip : skip_base_prefix 16 (c :: ds) = c :: ds).
  { unfold skip_base_prefix. change (16 =? 16) with true. cbv beta iota.
    destruct ds as [|x ds]; [done|]. apply Forall_cons in Hds as [Hx _].
    destruct (hex_facts x Hx) as (_ & _ & _ & _ & -> & -> & _).
    by rewrite andb_false_r. }
  rewrite Hskip. unfold int_magnitude. rewrite Hd, int_digits_hex by done.
  unfold hex_value. cbn [fold_left]. rewrite Z.mul_1_l. do 2 f_equal.
Qed.

(** Stripping a line takes the indentation off and keeps a text that
    starts and ends in visible characters. *)
Lemma strip_chars_indent indent c body z :
  Forall (fun x => isspace x = true) indent ->
  isspace c = false -> isspace z = false ->
  strip_chars (indent ++ c :: body ++ [z]) = c :: body ++ [z].
Proof.
  intros Hind Hc Hz. unfold strip_chars, lstrip_chars, rstrip_chars.
  assert (Hl : dropwhile isspace (indent ++ c :: body ++ [z]) = c :: body ++ [z]).
  { induction Hind as [|x indent Hx _ IH]; simpl; [by rewrite Hc|]. by rewrite Hx. }
  rewrite Hl. change (c :: body ++ [z]) with ((c :: body) ++ [z]).
  rewrite rev_app_distr. change (rev [z] ++ rev (c :: body)) with (z :: rev (c :: body)).
  rewrite dropwhile_head by done.
  change (z :: rev (c :: body)) with (rev [z] ++ rev (c :: body)).
  by rewrite <- rev_app_distr, rev_involutive.
Qed.

End RangeLineFormat.

Lemma re_match_one_intro p r c rest caps res :
  p c = true -> re_match r rest caps = Some res ->
  re_match (One p :: r) (c :: rest) caps = Some res.
Proof. intros Hp H. simpl. by rewrite Hp. Qed.

Lemma range_line_matches h1 h2 d kind name :
  h1 <> [] -> Forall (fun c => ishex c = true) h1 ->
  h2 <> [] -> Forall (fun c => ishex c = true) h2 ->
  d <> [] -> Forall (fun c => isdigit c = true) d ->
  kind <> [] -> Forall (fun c => not_rparen c = true) kind -> stops isspace kind ->
  name <> [] -> Forall (fun c => nonspace c = true) name ->
  re_match range_line_pattern
    (h1 ++ chars "-" ++ h2 ++ chars " (prio " ++ d ++ chars ", " ++ kind ++ chars "): " ++ name) []
    = Some [h1; h2; d; kind; name].
Proof.
  intros N1 H1 N2 H2 N3 H3 N4 H4 S4 N5 H5.
  unfold range_line_pattern, lit. cbn [app chars list_ascii_of_string].
  apply (re_match_star_intro isspace _ []); [done| |].
  { destruct h1 as [|c h1]; [done|]. apply Forall_cons in H1 as [Hc _].
    simpl. by destruct (hex_facts c Hc). }
  apply re_match_group_intro; [done..|].
  apply re_match_one_intro; [done|].
  apply re_match_group_intro; [done..|].
  apply (re_match_plus_intro isspace _ [" "%char]); [done|by repeat constructor|done|].
  do 5 (apply re_match_one_intro; [done|]).
  apply (re_match_plus_intro isspace _ [" "%char]); [done|by repeat constructor|
    destruct d as [|c d]; [done|]; apply Forall_cons in H3 as [Hc _];
    simpl; by destruct (digit_facts c Hc)|].
  apply re_match_group_intro; [done..|].
  apply re_match_one_intro; [done|].
  apply (re_match_plus_intro isspace _ [" "%char]); [done|by repeat constructor|
    by destruct kind|].
  apply re_match_group_intro; [done..|].
  do 2 (apply re_match_one_intro; [done|]).
  apply (re_match_plus_intro isspace _ [" "%char]); [done|by repeat constructor|
    destruct name as [|c name]; [done|]; apply Forall_cons in H5 as [Hc _];
    simpl; by apply negb_true_iff in Hc|].
  rewrite <- (app_nil_r name) at 1.
  apply re_match_group_intro; [done..|]. reflexivity.
Qed.

(** X11: every line of the documented format parses. A line made of an
    indentation, two non-empty runs of hexadecimal digits joined by ["-"],
    [" (prio "], a non-empty run of decimal digits, [", "], a kind that
    holds no [")"] and starts with a visible character, ["): "] and a name
    without whitespace is accepted by [MemoryRange.parse], with the values
    the digits write, the kind stripped, and the name as it stands. *)
Theorem parse_accepts_well_formed (indent h1 h2 d kind name : list ascii) :
  Forall (fun c => isspace c = true) indent ->
  h1 <> [] -> Forall (fun c => ishex c = true) h1 ->
  h2 <> [] -> Forall (fun c => ishex c = true) h2 ->
  d <> [] -> Forall (fun c => isdigit c = true) d ->
  kind <> [] -> Forall (fun c => not_rparen c = true) kind -> stops isspace kind ->
  name <> [] -> Forall (fun c => nonspace c = true) name ->
  MemoryRange.parse (range_line indent h1 h2 d kind name) =
    Ret (MemoryRange.mk (hex_value h1) (hex_value h2) (decimal_value d)
                        (strip (of_chars kind)) (of_chars name)).
Proof.
  intros Hind N1 H1 N2 H2 N3 H3 N4 H4 S4 N5 H5.
  unfold MemoryRange.parse, range_line, strip at 1. rewrite !chars_of_chars.
  set (L := h1 ++ chars "-" ++ h2 ++ chars " (prio " ++ d ++ chars ", " ++ kind
            ++ chars "): " ++ name).
  assert (Hstrip : strip_chars (indent ++ L) = L).
  { destruct h1 as [|c h1']; [done|]. apply Forall_cons in H1 as [Hc _].
    destruct (hex_facts c Hc) as (Hsp & _).
    destruct (exists_last N5) as (name' & z & Hname).
    assert (Hz : isspace z = false).
    { rewrite Hname in H5. apply Forall_app in H5 as [_ Hz].
      apply Forall_cons in Hz as [Hz _]. by apply negb_true_iff in Hz. }
    assert (HL : L = c :: (h1' ++ chars "-" ++ h2 ++ chars " (prio " ++ d ++ chars ", "
                            ++ kind ++ chars "): " ++ name') ++ [z]).
    { unfold L. rewrite Hname. cbn [app]. f_equal. by rewrite <- !app_assoc. }
    rewrite HL. by apply strip_chars_indent. }
  rewrite Hstrip. unfold L. rewrite range_line_matches by done.
  rewrite !py_int_hex by done.
  rewrite <- (app_nil_r d) at 1. rewrite py_int_digits_then by done. done.
Qed.

Lemma parse_accepts_well_formed_witness :
  MemoryRange.parse
    (range_line (chars "  ") (chars "0000000000000000") (chars "000000000000ffff")
                (chars "0") (chars "i/o") (chars "io")) =
    Ret (MemoryRange.mk (hex_value (chars "0000000000000000"))
                        (hex_value (chars "000000000000ffff"))
                        (decimal_value (chars "0"))
                        (strip (of_chars (chars "i/o"))) (of_chars (chars "io"))).
Proof.
  apply (parse_accepts_well_formed (chars "  ") (chars "0000000000000000")
           (chars "000000000000ffff") (chars "0") (chars "i/o") (chars "io"));
    first [ discriminate | reflexivity
          | cbn [chars list_ascii_of_string]; repeat (constructor; [reflexivity|]); constructor ].
Defined.

(** ** Register name patterns *)

Section Wildcards.

Lemma strip_prefix_spec seg cs cs' :
  strip_prefix seg cs = Some cs' <-> cs = seg ++ cs'.
Proof.
  revert cs. induction seg as [|a seg IH]; intros cs; simpl.
  - split; [by intros [= ->]|by intros ->].
  - destruct cs as [|c cs]; [done|].
    destruct (Ascii.eqb_spec a c) as [->|Hne].
    + rewrite IH. split; [by intros ->|by intros [= ->]].
    + split; [done|]. intros [= ? ?]. congruence.
Qed.

Lemma any_gap_spec k cs :
  any_gap k cs = true <->
  exists gap tail, cs = gap ++ tail /\ (newline ∉ gap) /\ k tail = true.
Proof.
  induction cs as [|c cs IH]; simpl.
  - rewrite orb_false_r. split.
    + intros H. exists [], []. split; [done|]. split; [apply not_elem_of_nil|done].
    + intros (gap & tail & Heq & _ & Hk). symmetry in Heq.
      apply app_eq_nil in Heq as [_ ->]. done.
  - rewrite orb_true_iff, andb_true_iff, IH, negb_true_iff. split.
    + intros [H|[Hc (gap & tail & -> & Hg & Hk)]].
      * exists [], (c :: cs). split; [done|]. split; [apply not_elem_of_nil|done].
      * exists (c :: gap), tail. split; [done|]. split; [|done].
        apply Ascii.eqb_neq in Hc. set_solver.
    + intros (gap & tail & Heq & Hg & Hk). destruct gap as [|g gap].
      * simpl in Heq. subst tail. by left.
      * injection Heq as <- ->. right. split.
        -- apply Ascii.eqb_neq. set_solver.
        -- exists gap, tail. split; [done|]. split; [set_solver|done].
Qed.

Lemma at_end_plain cs : newline ∉ cs -> at_end cs = true <-> cs = [].
Proof.
  intros H. destruct cs as [|c [|d cs]]; simpl; [done| |done].
  split; [|done]. intros Hc%Ascii.eqb_eq. set_solver.
Qed.

End Wildcards.

(** X12: on a register name that holds no newline, the pattern that
    [inject_reg_internal] compiles from its argument matches exactly the
    names made of the pattern's segments in their order, with any text in
    place of each ["*"]. *)
Theorem wildcard_match_is_glob (segs : list (list ascii)) (rname : list ascii) :
  newline ∉ rname ->
  wildcard_match segs rname = true <-> glob segs rname.
Proof.
  revert rname. induction segs as [|seg rest IH]; intros rname Hnl; [done|].
  cbn [wildcard_match glob].
  destruct (strip_prefix seg rname) as [cs'|] eqn:Hs.
  - apply strip_prefix_spec in Hs as ->.
    assert (Hnl' : newline ∉ cs') by set_solver.
    destruct rest as [|seg' rest].
    + rewrite at_end_plain by done. split; [intros ->; by rewrite app_nil_r|].
      intros H. rewrite <- (app_nil_r seg) in H at 2. by apply app_inv_head in H.
    + rewrite any_gap_spec. split.
      * intros (gap & tail & -> & Hg & Hk). exists gap, tail. split; [done|].
        apply IH; [set_solver|done].
      * intros (gap & tail & Heq & Hk). apply app_inv_head in Heq as ->.
        exists gap, tail. split; [done|]. split; [set_solver|].
        apply IH; [set_solver|done].
  - split; [done|]. intros H.
    assert (exists cs', rname = seg ++ cs') as [cs' Hcs].
    { destruct rest; [exists []; by rewrite app_nil_r|].
      destruct H as (gap & tail & -> & _). eauto. }
    apply strip_prefix_spec in Hcs. congruence.
Qed.

Lemma wildcard_match_is_glob_witness :
  wildcard_match (split_chars "*" (chars "r*x")) (chars "rax") = true <->
  glob (split_chars "*" (chars "r*x")) (chars "rax").
Proof.
  apply (wildcard_match_is_glob (split_chars "*" (chars "r*x")) (chars "rax")).
  vm_compute. intros H. repeat (apply elem_of_cons in H as [H|H]; [discriminate H|]).
  by apply elem_of_nil in H.
Defined.

(** ** The outcomes of a RAM flip *)

Section FlipOutcomes.

Lemma lxor_high_bit o b : 0 <= o < 2 ^ b -> 0 <= b -> Z.lxor o (2 ^ b) = o + 2 ^ b.
Proof.
  intros Ho Hb. symmetry. apply Z.add_nocarry_lxor.
  apply Z.bits_inj'. intros i Hi. rewrite Z.land_spec, Z.bits_0, Z.pow2_bits_eqb by lia.
  destruct (Z.eqb_spec b i) as [<-|]; [|apply andb_false_r].
  rewrite andb_true_r. apply Z.testbit_false; [lia|]. rewrite Z.div_small by lia. done.
Qed.

Lemma write_bytes_lookup_ge a bs m i :
  a + Z.of_nat (length bs) <= i -> write_bytes a bs m !! i = m !! i.
Proof.
  revert a. induction bs as [|b bs IH]; intros a Hi; simpl; [done|].
  simpl in Hi. rewrite lookup_insert_ne by lia. apply IH. lia.
Qed.

Lemma inject_bitflip_draw a w σ :
  1 <= w ->
  run (inject_bitflip a w None) σ =
    run (inject_bitflip a w (Some (hd 0 (entropy σ) mod (8 * w)))) (after_draw σ).
Proof.
  intros Hw. unfold inject_bitflip, py_assert.
  destruct (Z.leb_spec 1 w); [|lia].
  rewrite !run_bind. cbn [run mret M_ret]. rewrite !run_bind.
  cbn [run random_randint mret M_ret]. unfold randint.
  destruct (Z.ltb_spec (w * 8 - 1) 0); [lia|].
  replace (w * 8 - 1 - 0 + 1) with (8 * w) by lia. rewrite Z.add_0_l. reflexivity.
Qed.

End FlipOutcomes.

(** X13: every outcome of [inject_bitflip] with a given bit. It fails its
    assertion on a width below one, with [MemoryError] on unreadable
    memory, with [ValueError] on a negative bit and with [OverflowError] on
    a bit beyond the word, in each case before anything is written or
    logged; on a bit of the word it writes the word with that bit flipped
    and logs one record. *)
Theorem inject_bitflip_outcomes (a w b : Z) (σ : World) :
  run (inject_bitflip a w (Some b)) σ =
    if w <? 1 then (Raise AssertionError, σ)
    else match read_bytes (memory σ) a (Z.to_nat w) with
         | None => (Raise MemoryError, σ)
         | Some obytes =>
             let o := from_bytes_little obytes in
             let n := Z.lxor o (2 ^ b) in
             if b <? 0 then (Raise ValueError, σ)
             else if 8 * w <=? b then (Raise OverflowError, σ)
             else (Ret tt, flipped a (to_bytes_digits (Z.to_nat w) n) o n σ)
         end.
Proof.
  destruct (Z.ltb_spec w 1) as [Hw|Hw].
  { unfold inject_bitflip, py_assert. destruct (Z.leb_spec 1 w); [lia|]. reflexivity. }
  destruct (read_bytes (memory σ) a (Z.to_nat w)) as [obytes|] eqn:Hread.
  2:{ unfold inject_bitflip, py_assert. destruct (Z.leb_spec 1 w); [|lia].
      do 3 mstep. unfold read_memory. rewrite run_bind. cbn [run get_world].
      by rewrite Hread. }
  cbv zeta. destruct (Z.ltb_spec b 0) as [Hb|Hb].
  { unfold inject_bitflip, py_assert. destruct (Z.leb_spec 1 w); [|lia].
    do 3 mstep. rewrite (run_read_memory _ _ _ _ Hread).
    mstep. unfold py_shiftl. destruct (Z.ltb_spec b 0); [|lia]. reflexivity. }
  destruct (Z.leb_spec (8 * w) b) as [Hb'|Hb'].
  2:{ by apply inject_bitflip_run. }
  pose proof (read_bytes_length _ _ _ _ Hread) as Hlen.
  assert (Ho : 0 <= from_bytes_little obytes < 2 ^ (8 * w)).
  { rewrite <- pow_256 by lia. rewrite <- Hlen. apply from_bytes_little_range. }
  assert (Hpow : 2 ^ (8 * w) <= 2 ^ b) by (apply Z.pow_le_mono_r; lia).
  unfold inject_bitflip, py_assert. destruct (Z.leb_spec 1 w); [|lia].
  do 3 mstep. rewrite (run_read_memory _ _ _ _ Hread).
  mstep. unfold py_shiftl. destruct (Z.ltb_spec b 0); [lia|]. cbn [run lift].
  rewrite Z.shiftl_1_l, run_bind. unfold to_bytes_little.
  rewrite lxor_high_bit by lia.
  destruct (Z.ltb_spec w 0); [lia|].
  destruct (Z.ltb_spec (from_bytes_little obytes + 2 ^ b) 0); [lia|].
  destruct (Z.leb_spec (2 ^ (8 * w)) (from_bytes_little obytes + 2 ^ b)); [|lia].
  reflexivity.
Qed.

(** X14: with the bit left out, [inject_bitflip] on a readable word of width
    [w >= 1] succeeds whatever the random draw. It flips one bit [b] of the
    word, [0 <= b < 8 * w], logs the old and the new value, and leaves
    every byte outside [[a, a + w)] and every register as it was. *)
Theorem inject_bitflip_random_bit (a w : Z) (σ : World) (obytes : list Byte.byte) :
  1 <= w ->
  read_bytes (memory σ) a (Z.to_nat w) = Some obytes ->
  let o := from_bytes_little obytes in
  exists b σ',
    0 <= b < 8 * w /\
    run (inject_bitflip a w None) σ = (Ret tt, σ') /\
    from_bytes_little <$> read_bytes (memory σ') a (Z.to_nat w) = Some (Z.lxor o (2 ^ b)) /\
    (forall i, i < a \/ a + w <= i -> memory σ' !! i = memory σ !! i) /\
    registers σ' = registers σ /\
    events σ' = events σ ++ [Logged (Address a) o (Z.lxor o (2 ^ b))].
Proof.
  intros Hw Hread o.
  set (b := hd 0 (entropy σ) mod (8 * w)).
  assert (Hb : 0 <= b < 8 * w) by (apply Z.mod_pos_bound; lia).
  pose proof (read_bytes_length _ _ _ _ Hread) as Hlen.
  assert (Ho : 0 <= o < 2 ^ (8 * w)).
  { rewrite <- pow_256 by lia. rewrite <- Hlen. apply from_bytes_little_range. }
  pose proof (lxor_bit_range o (8 * w) b Ho Hb) as Hn.
  exists b, (flipped a (to_bytes_digits (Z.to_nat w) (Z.lxor o (2 ^ b))) o
               (Z.lxor o (2 ^ b)) (after_draw σ)).
  split; [done|]. split.
  { rewrite inject_bitflip_draw by done. fold b. by apply inject_bitflip_run. }
  cbn [flipped after_draw memory registers events run draw_entropy snd].
  split.
  { rewrite <- (to_bytes_digits_length (Z.to_nat w) (Z.lxor o (2 ^ b))) at 2.
    rewrite read_write_bytes. cbn. f_equal. apply from_to_bytes.
    rewrite pow_256 by lia. lia. }
  split; [|done].
  intros i [Hi|Hi]; [by apply write_bytes_lookup_lt|].
  apply write_bytes_lookup_ge. rewrite to_bytes_digits_length. lia.
Qed.

Lemma inject_bitflip_random_bit_witness :
  exists b σ',
    0 <= b < 8 * 4 /\
    run (inject_bitflip 4096 4 None) sample_world = (Ret tt, σ') /\
    from_bytes_little <$> read_bytes (memory σ') 4096 (Z.to_nat 4)
      = Some (Z.lxor (from_bytes_little [Byte.xef; Byte.xbe; Byte.xad; Byte.xde]) (2 ^ b)) /\
    (forall i, i < 4096 \/ 4096 + 4 <= i -> memory σ' !! i = memory sample_world !! i) /\
    registers σ' = registers sample_world /\
    events σ' = events sample_world
                ++ [Logged (Address 4096)
                      (from_bytes_little [Byte.xef; Byte.xbe; Byte.xad; Byte.xde])
                      (Z.lxor (from_bytes_little [Byte.xef; Byte.xbe; Byte.xad; Byte.xde]) (2 ^ b))].
Proof.
  apply (inject_bitflip_random_bit 4096 4 sample_world
           [Byte.xef; Byte.xbe; Byte.xad; Byte.xde]).
  - lia.
  - vm_compute. reflexivity.
Defined.

(** ** The number of injections *)

Section Counting.

Lemma logged_app l1 l2 : logged (l1 ++ l2) = (logged l1 + logged l2)%nat.
Proof. unfold logged. by rewrite filter_app, length_app. Qed.

Lemma logged_unlogged l : Forall unlogged l -> logged l = 0%nat.
Proof.
  unfold logged. induction 1 as [|ev l Hev _ IH]; [done|].
  rewrite filter_cons_False; [done|]. unfold unlogged in Hev. congruence.
Qed.

Lemma logs_quiet {A} (m : M A) (Ψ : outcome A -> nat -> Prop) :
  respects (only_emits unlogged) m -> (forall o, Ψ o 0%nat) -> logs m Ψ.
Proof.
  intros Hm HΨ σ. destruct (Hm σ) as (l & Hl & Hun). exists l. split; [done|].
  rewrite logged_unlogged by done. apply HΨ.
Qed.

Lemma logs_bind {A B} (m : M A) (f : A -> M B) Ψ1 (Ψ2 : A -> outcome B -> nat -> Prop)
    (Ψ : outcome B -> nat -> Prop) :
  logs m Ψ1 -> (forall a, logs (f a) (Ψ2 a)) ->
  (forall e n, Ψ1 (Raise e) n -> Ψ (Raise e) n) ->
  (forall a n1 o n2, Ψ1 (Ret a) n1 -> Ψ2 a o n2 -> Ψ o (n1 + n2)%nat) ->
  logs (m ≫= f) Ψ.
Proof.
  intros Hm Hf Hraise Hret σ. rewrite run_bind.
  destruct (Hm σ) as (l1 & Hl1 & H1). destruct (run m σ) as [[a|e] σ1]; cbn [fst snd] in *.
  - destruct (Hf a σ1) as (l2 & Hl2 & H2). exists (l1 ++ l2). split.
    + by rewrite Hl2, Hl1, app_assoc.
    + rewrite logged_app. by eapply Hret.
  - exists l1. split; [done|]. by apply Hraise.
Qed.

(** A step that logs nothing leaves the count to what follows it. *)
Lemma logs_quiet_bind {A B} (m : M A) (f : A -> M B) (Ψ : outcome B -> nat -> Prop) :
  respects (only_emits unlogged) m -> (forall a, logs (f a) Ψ) ->
  (forall e, Ψ (Raise e) 0%nat) ->
  logs (m ≫= f) Ψ.
Proof.
  intros Hm Hf Hraise.
  apply (logs_bind m f (fun _ n => n = 0%nat) (fun _ => Ψ)); [|done| |].
  - by apply logs_quiet.
  - intros e n ->. apply Hraise.
  - by intros a n1 o n2 ->.
Qed.

Lemma logs_try_except {A} (body : M A) caught handler Ψ1 (Ψ2 : exn -> outcome A -> nat -> Prop)
    (Ψ : outcome A -> nat -> Prop) :
  logs body Ψ1 -> (forall e, logs (handler e) (Ψ2 e)) ->
  (forall a n, Ψ1 (Ret a) n -> Ψ (Ret a) n) ->
  (forall e n, caught e = false -> Ψ1 (Raise e) n -> Ψ (Raise e) n) ->
  (forall e n1 o n2, caught e = true -> Ψ1 (Raise e) n1 -> Ψ2 e o n2 -> Ψ o (n1 + n2)%nat) ->
  logs (try_except body caught handler) Ψ.
Proof.
  intros Hm Hh Hret Hpass Hcaught σ. rewrite run_try_except.
  destruct (Hm σ) as (l1 & Hl1 & H1). destruct (run body σ) as [[a|e] σ1]; cbn [fst snd] in *.
  - exists l1. split; [done|]. by apply Hret.
  - destruct (caught e) eqn:Hc.
    + destruct (Hh e σ1) as (l2 & Hl2 & H2). exists (l1 ++ l2). split.
      * by rewrite Hl2, Hl1, app_assoc.
      * rewrite logged_app. by eapply Hcaught.
    + exists l1. split; [done|]. by apply Hpass.
Qed.

Lemma logs_weaken {A} (m : M A) (Ψ Ψ' : outcome A -> nat -> Prop) :
  logs m Ψ -> (forall o n, Ψ o n -> Ψ' o n) -> logs m Ψ'.
Proof. intros Hm HΨ σ. destruct (Hm σ) as (l & Hl & H). exists l. eauto. Qed.

Lemma logs_log_single t o n : logs (log_single t o n) one_if_returns.
Proof. intros σ. exists [Logged t o n]. done. Qed.

(** The primitives that log nothing. *)
Lemma quiet_print text : respects (only_emits unlogged) (print text).
Proof. by apply respects_emit. Qed.

Lemma quiet_qemu_hmp cmd : respects (only_emits unlogged) (qemu_hmp cmd).
Proof. by apply respects_qemu_hmp. Qed.

Lemma quiet_silent {A} (m : M A) :
  (forall σ, events (run m σ).2 = events σ) -> respects (only_emits unlogged) m.
Proof. apply respects_silent. Qed.

Lemma quiet_random_randint a b : respects (only_emits unlogged) (random_randint a b).
Proof. by apply quiet_silent. Qed.

Lemma quiet_read_memory a w : respects (only_emits unlogged) (read_memory a w).
Proof. apply respects_readonly; [apply _|]. intros. apply read_memory_readonly. Qed.

Lemma quiet_write_memory a bs : respects (only_emits unlogged) (write_memory a bs).
Proof. apply quiet_silent. intros. apply write_memory_silent. Qed.

Lemma quiet_list_registers : respects (only_emits unlogged) list_registers.
Proof. apply quiet_silent. intros. apply list_registers_silent. Qed.

Lemma quiet_step_ns ns : respects (only_emits unlogged) (step_ns ns).
Proof. unfold step_ns. frame; apply quiet_qemu_hmp. Qed.

Lemma quiet_sample_address : respects (only_emits unlogged) sample_address.
Proof.
  apply fp_sample_address; [apply _|apply quiet_print|apply quiet_qemu_hmp|by apply quiet_silent].
Qed.

Lemma quiet_shuffle_from {A} i (x : list A) : respects (only_emits unlogged) (shuffle_from i x).
Proof. apply fp_shuffle_from; [apply _|apply quiet_random_randint]. Qed.

End Counting.

Ltac quiet :=
  frame;
  first [ apply quiet_print | apply quiet_random_randint | apply quiet_read_memory
        | apply quiet_write_memory | apply quiet_list_registers | apply quiet_step_ns
        | apply quiet_sample_address | apply quiet_shuffle_from | apply quiet_qemu_hmp
        | apply respects_readonly; [apply _|]; intros;
          first [apply read_register_readonly | apply read_word_readonly]
        | by apply quiet_silent
        | by apply respects_emit ].

Section CountingFlips.

Lemma logs_inject_bitflip a w b : logs (inject_bitflip a w b) one_if_returns.
Proof.
  unfold inject_bitflip.
  repeat (apply logs_quiet_bind; [quiet|intros ?|done]).
  apply logs_log_single.
Qed.

Lemma logs_register_decision name oldval newval rrval bitmask :
  logs (if Z.land newval bitmask =? Z.land rrval bitmask then
          log_single (RegisterName name) oldval rrval;; mret (Some true)
        else if Z.land oldval bitmask =? Z.land rrval bitmask then
          print "Bitflip could not be injected into register %s. (%s -> %s ignored.)";;
          mret (Some false)
        else raise RuntimeError) one_if_true.
Proof.
  destruct (_ =? _); [|destruct (_ =? _)]; intros σ.
  - by exists [Logged (RegisterName name) oldval rrval].
  - by eexists [Printed _].
  - exists []. split; [by rewrite app_nil_r|done].
Qed.

Lemma logs_inject_register_bitflip name b :
  logs (inject_register_bitflip name b) one_if_true.
Proof.
  unfold inject_register_bitflip.
  do 4 (apply logs_quiet_bind; [quiet|intros ?|done]).
  apply (logs_try_except _ _ _ one_if_true (fun _ o n => o = Ret None /\ n = 0%nat)).
  - apply logs_quiet_bind; [quiet| |done].
    intros [[oldval newval] rrval]. apply logs_register_decision.
  - intros e σ. by eexists [Printed _].
  - done.
  - intros e n _ H. exact H.
  - intros e n1 o n2 _ H1 [-> ->]. simpl in H1. by subst n1.
Qed.

Lemma logs_try_registers regs b :
  logs (try_registers regs b) (fun _ n => (n <= 1)%nat).
Proof.
  induction regs as [|r regs IH]; cbn [try_registers].
  - apply logs_quiet; [quiet|]. intros. lia.
  - apply (logs_bind _ _ one_if_true
             (fun a _ n => match a with Some true => n = 0%nat | _ => (n <= 1)%nat end)).
    + apply logs_inject_register_bitflip.
    + intros [[|]|].
      * apply logs_quiet; [quiet|done].
      * apply logs_quiet_bind; [quiet|by intros _|lia].
      * apply logs_quiet_bind; [quiet|by intros _|lia].
    + intros e n ->. lia.
    + intros [[|]|] n1 o n2 H1 H2; simpl in H1; lia.
Qed.

Lemma logs_inject_reg_internal name b :
  logs (inject_reg_internal name b) (fun _ n => (n <= 1)%nat).
Proof.
  unfold inject_reg_internal, shuffle.
  apply logs_quiet_bind; [quiet| |lia]. intros lr.
  match goal with |- logs (match ?x with _ => _ end) _ => destruct x end.
  - apply logs_quiet; [quiet|]. intros. lia.
  - apply logs_quiet_bind; [quiet| |lia]. intros. apply logs_try_registers.
Qed.

Lemma logs_repeat_at_most k (body : M unit) :
  logs body (fun _ n => (n <= 1)%nat) ->
  logs (repeat_times k body) (fun _ n => (n <= k)%nat).
Proof.
  intros Hb. induction k as [|k IH]; cbn [repeat_times].
  - apply logs_quiet; [quiet|]. intros. lia.
  - apply (logs_bind _ _ (fun _ n => (n <= 1)%nat) (fun _ _ n => (n <= k)%nat));
      [done|by intros _| |]; intros; lia.
Qed.

Lemma logs_repeat_exactly k (body : M unit) :
  logs body one_if_returns ->
  logs (repeat_times k body) (fun o n => (n <= k)%nat /\ (o = Ret tt -> n = k)).
Proof.
  intros Hb. induction k as [|k IH]; cbn [repeat_times].
  - intros σ. exists []. split; [by rewrite app_nil_r|done].
  - apply (logs_bind _ _ one_if_returns
             (fun _ o n => (n <= k)%nat /\ (o = Ret tt -> n = k)));
      [done|by intros _| |].
    + intros e n ->. split; [lia|done].
    + intros a n1 o n2 -> [H1 H2]. split; [lia|]. intros Ho. rewrite H2 by done. lia.
Qed.

End CountingFlips.

(** X15: a campaign performs no more injections than it was asked for.
    Whether [autoinject_inner] returns or raises, it has added at most
    [times] records to the log; a RAM campaign that returns has added
    exactly [times], one for each step. *)
Theorem campaign_injection_count (times mint maxt : Z) (ftype : fault_type) (σ : World) :
  exists l,
    events (run (autoinject_inner times mint maxt ftype) σ).2 = events σ ++ l /\
    (logged l <= Z.to_nat times)%nat /\
    (ftype = ram -> (run (autoinject_inner times mint maxt ftype) σ).1 = Ret tt ->
     logged l = Z.to_nat times).
Proof.
  unfold autoinject_inner. destruct ftype.
  - destruct (logs_repeat_exactly (Z.to_nat times)
                (ns ← random_randint mint maxt; step_ns ns;;
                 address ← sample_address; inject_bitflip address 1 None)) with (σ := σ)
      as (l & Hl & Hle & Heq).
    { do 3 (apply logs_quiet_bind; [quiet|intros ?|done]). apply logs_inject_bitflip. }
    exists l. split; [done|]. split; [done|]. intros _. exact Heq.
  - destruct (logs_repeat_at_most (Z.to_nat times)
                (ns ← random_randint mint maxt; step_ns ns;;
                 inject_reg_internal None None)) with (σ := σ)
      as (l & Hl & Hle).
    { do 2 (apply logs_quiet_bind; [quiet|intros ?|lia]). apply logs_inject_reg_internal. }
    exists l. split; [done|]. split; [done|]. done.
Qed.

(** ** Merging physical ranges ([find_phys_ranges.merge_ranges]) *)

Section MergeRanges.

#[local] Instance tuple_le_total : Total tuple_le.
Proof. intros [a b] [c d]. unfold tuple_le. simpl. lia. Qed.

#[local] Instance tuple_le_trans : Transitive tuple_le.
Proof. intros [a b] [c d] [e f]. unfold tuple_le. simpl. lia. Qed.

Lemma sorted_Permutation ranges : sorted ranges ≡ₚ ranges.
Proof. apply merge_sort_Permutation. Qed.

Lemma sorted_StronglySorted ranges : StronglySorted tuple_le (sorted ranges).
Proof. apply StronglySorted_merge_sort; apply _. Qed.

Lemma covers_cons r l a : covers (r :: l) a <-> r.1 <= a < r.2 \/ covers l a.
Proof.
  unfold covers. split.
  - intros (x & [->|Hx]%elem_of_cons & Ha); [by left|right; eauto].
  - intros [Ha|(x & Hx & Ha)]; [exists r|exists x]; (split; [set_solver|done]).
Qed.

Lemma covers_nil a : covers [] a <-> False.
Proof. unfold covers. split; [|done]. intros (x & Hx & _). by apply elem_of_nil in Hx. Qed.

Lemma covers_app l1 l2 a : covers (l1 ++ l2) a <-> covers l1 a \/ covers l2 a.
Proof.
  induction l1 as [|r l1 IH]; simpl.
  - rewrite covers_nil. tauto.
  - rewrite !covers_cons, IH. tauto.
Qed.

Lemma covers_Permutation l1 l2 a : l1 ≡ₚ l2 -> covers l1 a <-> covers l2 a.
Proof.
  intros Hp. unfold covers. split; intros (x & Hx & Ha); exists x; split; try done.
  - by rewrite <- Hp.
  - by rewrite Hp.
Qed.

(** Merging keeps what is covered, as long as no range is reversed. *)
Lemma merge_loop_covers done last rest a :
  last.1 <= last.2 -> Forall (fun r => r.1 <= r.2) rest ->
  covers (merge_loop done last rest) a <-> covers (done ++ last :: rest) a.
Proof.
  revert done last. induction rest as [|[s e] rest IH]; intros done [ls le] Hlast Hrest.
  - done.
  - apply Forall_cons in Hrest as [Hse Hrest]. simpl in *.
    destruct (Z.eqb_spec s le) as [->|Hne].
    + rewrite IH by (simpl; try done; lia).
      rewrite !covers_app, !covers_cons. simpl. intuition lia.
    + rewrite IH by done. rewrite <- app_assoc. done.
Qed.

(** On ranges that follow one another without overlap, merging leaves
    ranges with a gap between any two of them. *)
Lemma merge_loop_gaps done last rest :
  StronglySorted gap_before done -> Forall (fun d => gap_before d last) done ->
  last.1 < last.2 -> Forall (fun r => r.1 < r.2) rest ->
  Forall (fun r => last.2 <= r.1) rest ->
  StronglySorted (fun x y => x.2 <= y.1) rest ->
  StronglySorted gap_before (merge_loop done last rest).
Proof.
  revert done last. induction rest as [|[s e] rest IH];
    intros done [ls le] Hdone Hbefore Hlast Hne Hafter Hchain.
  - simpl. apply StronglySorted_app_2; [|done|repeat constructor].
    intros x y Hx ->%list_elem_of_singleton. by eapply Forall_forall in Hbefore.
  - apply Forall_cons in Hne as [Hse Hne]. apply Forall_cons in Hafter as [Hle Hafter].
    apply StronglySorted_inv in Hchain as [Hchain Hhead]. unfold gap_before in *. simpl in *.
    destruct (Z.eqb_spec s le) as [->|Hneq].
    + apply IH; simpl; try done; try lia.
    + apply IH; simpl; try done.
      * apply StronglySorted_app_2; [|done|repeat constructor].
        intros x y Hx ->%list_elem_of_singleton. by eapply Forall_forall in Hbefore.
      * apply Forall_app. split.
        -- eapply Forall_impl; [exact Hbefore|]. simpl. intros. lia.
        -- repeat constructor. simpl. lia.
Qed.

(** Sorted ranges that are distinct, not empty and do not overlap follow
    one another. *)
Lemma sorted_chain l :
  StronglySorted tuple_le l -> NoDup l -> Forall (fun r => r.1 < r.2) l ->
  (forall x y, x ∈ l -> y ∈ l -> x <> y -> x.2 <= y.1 \/ y.2 <= x.1) ->
  StronglySorted (fun x y => x.2 <= y.1) l.
Proof.
  induction 1 as [|x l Hl IH Hx]; intros Hnd Hne Hdis; [constructor|].
  apply NoDup_cons in Hnd as [Hxl Hnd]. apply Forall_cons in Hne as [Hxne Hne].
  constructor.
  - apply IH; [done..|]. intros a b Ha Hb. apply Hdis; by right.
  - apply Forall_forall. intros y Hy.
    assert (Hxy : tuple_le x y) by (by eapply Forall_forall in Hx).
    assert (Hyne : y.1 < y.2) by (by eapply Forall_forall in Hne).
    destruct (Hdis x y) as [H|H]; [left|by right|by intros ->|done|].
    unfold tuple_le in Hxy. lia.
Qed.

End MergeRanges.

(** X17: [merge_ranges] keeps what the ranges cover, and leaves gaps. When
    no range is reversed, an address lies in a merged range exactly when it
    lies in one of the given ranges. When moreover the given ranges are
    distinct, not empty and do not overlap, such as the pages that [main]
    collects, the merged ranges come in ascending order with a gap between
    any two of them: no two of them touch or overlap. *)
Theorem merge_ranges_covers_and_separates (ranges : list (Z * Z)) :
  Forall (fun r => r.1 <= r.2) ranges ->
  (forall a, covers (merge_ranges ranges) a <-> covers ranges a) /\
  (NoDup ranges -> Forall (fun r => r.1 < r.2) ranges ->
   (forall x y, x ∈ ranges -> y ∈ ranges -> x <> y -> x.2 <= y.1 \/ y.2 <= x.1) ->
   StronglySorted gap_before (merge_ranges ranges)).
Proof.
  intros Hle. unfold merge_ranges. destruct ranges as [|r0 ranges]; [split; [done|constructor]|].
  pose proof (sorted_Permutation (r0 :: ranges)) as Hperm.
  pose proof (sorted_StronglySorted (r0 :: ranges)) as Hsorted.
  destruct (sorted (r0 :: ranges)) as [|first rest] eqn:Hs.
  { by apply Permutation_nil_cons in Hperm. }
  split.
  - intros a. rewrite <- Hperm in Hle. apply Forall_cons in Hle as [Hf Hrest].
    rewrite merge_loop_covers by done. simpl. by apply covers_Permutation.
  - intros Hnd Hne Hdis.
    assert (Hchain : StronglySorted (fun x y => x.2 <= y.1) (first :: rest)).
    { apply sorted_chain; [done|by rewrite Hperm|by rewrite Hperm|].
      intros x y Hx Hy. apply Hdis; by rewrite <- Hperm. }
    rewrite <- Hperm in Hne. apply Forall_cons in Hne as [Hf Hrest].
    apply StronglySorted_inv in Hchain as [Hchain Hhead].
    apply merge_loop_gaps; try done; constructor.
Qed.

Lemma merge_ranges_covers_and_separates_witness :
  (forall a, covers (merge_ranges [(8192, 12288); (0, 4096); (4096, 8192); (20480, 24576)]) a
             <-> covers [(8192, 12288); (0, 4096); (4096, 8192); (20480, 24576)] a) /\
  (NoDup [(8192, 12288); (0, 4096); (4096, 8192); (20480, 24576)] ->
   Forall (fun r => r.1 < r.2) [(8192, 12288); (0, 4096); (4096, 8192); (20480, 24576)] ->
   (forall x y, x ∈ [(8192, 12288); (0, 4096); (4096, 8192); (20480, 24576)] ->
                y ∈ [(8192, 12288); (0, 4096); (4096, 8192); (20480, 24576)] ->
                x <> y -> x.2 <= y.1 \/ y.2 <= x.1) ->
   StronglySorted gap_before
     (merge_ranges [(8192, 12288); (0, 4096); (4096, 8192); (20480, 24576)])).
Proof.
  apply (merge_ranges_covers_and_separates
           [(8192, 12288); (0, 4096); (4096, 8192); (20480, 24576)]).
  repeat constructor; simpl; lia.
Defined.

Example merge_ranges_pages :
  merge_ranges [(8192, 12288); (0, 4096); (4096, 8192); (20480, 24576)]
    = [(0, 12288); (20480, 24576)].
Proof. vm_compute. reflexivity. Qed.

(** ** Pagemap entries ([find_phys_ranges.read_pagemap_entries]) *)

Section Pagemap.

Lemma present_bit entry :
  0 <= entry -> negb (Z.land (Z.shiftr entry 63) 1 =? 0) = Z.testbit entry 63.
Proof.
  intros He. change 1 with (Z.ones 1). rewrite Z.land_ones by lia.
  rewrite Z.shiftr_div_pow2 by lia. change (2 ^ 1) with 2.
  pose proof (Z.mod_pos_bound (entry / 2 ^ 63) 2 ltac:(lia)).
  destruct (Z.testbit entry 63) eqn:Hbit.
  - apply Z.testbit_true in Hbit; [|lia]. by rewrite Hbit.
  - apply Z.testbit_false in Hbit; [|lia]. by rewrite Hbit.
Qed.

Lemma pfn_mask entry : Z.land entry PFN_MASK = entry mod 2 ^ 55.
Proof. change PFN_MASK with (Z.ones 55). by rewrite Z.land_ones. Qed.

Lemma pagemap_loop_decoded f vaddrs results :
  exists new,
    (pagemap_loop f vaddrs results).1 = results ++ new /\ Forall (decoded f vaddrs) new.
Proof.
  revert results. induction vaddrs as [|v vaddrs IH]; intros results.
  - exists []. by rewrite app_nil_r.
  - assert (Hmono : forall new, Forall (decoded f vaddrs) new ->
                                Forall (decoded f (v :: vaddrs)) new).
    { intros new Hnew. eapply Forall_impl; [exact Hnew|]. intros r (H1 & H2).
      split; [by right|done]. }
    cbn [pagemap_loop]. unfold seek_read, PAGEMAP_ENTRY_BYTES.
    destruct (Z.ltb_spec (v / PAGE_SIZE * 8) 0) as [Hneg|Hpos]; cbn [orb].
    { exists []. by rewrite app_nil_r. }
    destruct (Z.leb_spec (2 ^ 63) (v / PAGE_SIZE * 8)).
    { exists []. by rewrite app_nil_r. }
    set (data := take 8 (drop (Z.to_nat (v / PAGE_SIZE * 8)) f)).
    destruct (negb (length data =? 8)%nat).
    { destruct (IH results) as (new & -> & Hnew). exists new. auto. }
    cbv zeta. rewrite pfn_mask.
    assert (Hentry : 0 <= from_bytes_little data) by apply from_bytes_little_range.
    rewrite present_bit by done.
    destruct (Z.testbit (from_bytes_little data) 63) eqn:Hbit; cbn [andb].
    2:{ destruct (IH results) as (new & -> & Hnew). exists new. auto. }
    destruct (Z.eqb_spec (from_bytes_little data mod 2 ^ 55) 0) as [Hz|Hnz]; cbn [negb].
    { destruct (IH results) as (new & -> & Hnew). exists new. auto. }
    destruct (IH (results ++ [(v, from_bytes_little data mod 2 ^ 55 * PAGE_SIZE)]))
      as (new & -> & Hnew).
    exists ((v, from_bytes_little data mod 2 ^ 55 * PAGE_SIZE) :: new).
    split; [by rewrite <- app_assoc|]. constructor; [|auto].
    split; [by left|]. cbn [fst snd]. split.
    { unfold PAGE_SIZE in Hpos. destruct (Z.lt_ge_cases v 0) as [Hv|Hv]; [|lia].
      pose proof (Z.div_lt_upper_bound v 4096 0 ltac:(lia) ltac:(lia)). lia. }
    fold data. split; [done|]. split; [|done].
    pose proof (Z.mod_pos_bound (from_bytes_little data) (2 ^ 55) ltac:(lia)). lia.
Qed.

End Pagemap.

(** X18: what [read_pagemap_entries] returns. Each pair it returns is a
    virtual address of the list it was given, not negative, with the
    physical address that the address's pagemap entry gives: the entry (the
    eight bytes at [vaddr // 4096 * 8] of the process's pagemap) has its
    present bit 63 set, its frame number (bits 0 to 54) is not zero, and the
    physical address is the frame number times the page size; so the
    physical address is a multiple of the page size, at least one page and
    below [2 ^ 67]. *)
Theorem read_pagemap_entries_decoded (pagemaps : gmap Z (list Byte.byte)) (pid : Z)
    (vaddrs : list Z) (r : Z * Z) :
  r ∈ (read_pagemap_entries pagemaps pid vaddrs).1 ->
  (exists f, pagemaps !! pid = Some f /\ decoded f vaddrs r) /\
  (PAGE_SIZE | r.2) /\ PAGE_SIZE <= r.2 < 2 ^ 67.
Proof.
  unfold read_pagemap_entries. destruct (pagemaps !! pid) as [f|]; [|by intros ?%elem_of_nil].
  destruct (pagemap_loop_decoded f vaddrs []) as (new & -> & Hnew). simpl.
  intros Hr. eapply Forall_forall in Hnew; [|exact Hr].
  split; [by exists f|].
  destruct Hnew as (_ & _ & _ & Hpos & ->).
  set (entry := from_bytes_little _) in *.
  pose proof (Z.mod_pos_bound entry (2 ^ 55) ltac:(lia)).
  split; [by apply Z.divide_factor_r|]. unfold PAGE_SIZE. lia.
Qed.

Lemma read_pagemap_entries_decoded_witness :
  (exists f, ({[ 42 := sample_pagemap ]} : gmap Z (list Byte.byte)) !! 42 = Some f /\
             decoded f [0; 4096; 8192] (4096, 28672)) /\
  (PAGE_SIZE | (4096, 28672).2) /\ PAGE_SIZE <= (4096, 28672).2 < 2 ^ 67.
Proof.
  apply (read_pagemap_entries_decoded {[ 42 := sample_pagemap ]} 42 [0; 4096; 8192]
           (4096, 28672)).
  vm_compute. apply list_elem_of_In. vm_compute. tauto.
Defined.

Example read_pagemap_entries_sample :
  read_pagemap_entries {[ 42 := sample_pagemap ]} 42 [0; 4096; 8192; 12288]
    = ([(4096, 28672); (8192, 32768)], false).
Proof. vm_compute. reflexivity. Qed.

Lemma get_phys_for_pid_aligned pagemaps maps pid e :
  e ∈ get_phys_for_pid pagemaps maps pid -> exists k, e.2 = k * PAGE_SIZE.
Proof.
  unfold get_phys_for_pid, read_pagemap_entries.
  destruct (pagemaps !! pid) as [f|]; [|by intros ?%elem_of_nil].
  destruct (pagemap_loop_decoded f (maps ≫= (fun '(start, end_) => page_range start end_)) [])
    as (new & -> & Hnew). simpl.
  intros Hr. eapply Forall_forall in Hnew; [|exact Hr].
  destruct Hnew as (_ & _ & _ & _ & ->). eauto.
Qed.

(** X19: the pages that [main] collects can be merged. Whatever the
    pagemaps and mappings of the processes, the set [all_phys] built from
    the entries of [get_phys_for_pid] holds, without repetition, one
    page-sized range for each physical address of an entry, and any two of
    these ranges are disjoint; these are the conditions under which
    [merge_ranges] returns ranges in ascending order with gaps between
    them. *)
Theorem collected_pages_are_disjoint (pagemaps : gmap Z (list Byte.byte))
    (procs : list (Z * list (Z * Z))) :
  let entries := procs ≫= (fun '(pid, maps) => get_phys_for_pid pagemaps maps pid) in
  NoDup (all_phys entries) /\
  Forall (fun r => r.1 < r.2) (all_phys entries) /\
  (forall x y, x ∈ all_phys entries -> y ∈ all_phys entries -> x <> y ->
               x.2 <= y.1 \/ y.2 <= x.1) /\
  (forall a, covers (all_phys entries) a <->
             exists e, e ∈ entries /\ e.2 <= a < e.2 + PAGE_SIZE).
Proof.
  intros entries.
  assert (Hpage : forall r, r ∈ all_phys entries <->
                            exists e, e ∈ entries /\ r = (e.2, e.2 + PAGE_SIZE)).
  { intros r. unfold all_phys. rewrite elem_of_remove_dups, list_elem_of_fmap.
    split; intros ([v p] & H1 & H2); exists (v, p); done. }
  assert (Haligned : forall e, e ∈ entries -> exists k, e.2 = k * PAGE_SIZE).
  { intros e (p & He & Hp)%list_elem_of_bind. destruct p as [pid maps].
    by eapply get_phys_for_pid_aligned. }
  split; [apply NoDup_remove_dups|]. split; [|split].
  - apply Forall_forall. intros r (e & _ & ->)%Hpage. unfold PAGE_SIZE. simpl. lia.
  - intros x y (e1 & He1 & ->)%Hpage (e2 & He2 & ->)%Hpage Hne.
    destruct (Haligned _ He1) as [k1 Hk1], (Haligned _ He2) as [k2 Hk2].
    rewrite Hk1, Hk2 in *. unfold PAGE_SIZE in *. simpl.
    assert (k1 <> k2) by congruence. lia.
  - intros a. unfold covers. split.
    + intros (r & (e & He & ->)%Hpage & Ha). by exists e.
    + intros (e & He & Ha). exists (e.2, e.2 + PAGE_SIZE). split; [|done].
      apply Hpage. by exists e.
Qed.

(** ** Descendants of a process ([find_phys_ranges.find_all_descendants]) *)

Section Descendants.

Lemma size_list_to_set_le (l : list Z) : (size (list_to_set l : gset Z) <= length l)%nat.
Proof.
  induction l as [|x l IH]; [by rewrite list_to_set_nil, size_empty|].
  rewrite list_to_set_cons, size_union_alt, size_singleton. cbn [length].
  pose proof (subseteq_size (list_to_set l ∖ {[x]}) (list_to_set l : gset Z)
                ltac:(set_solver)). lia.
Qed.

Lemma size_difference_step (C all : gset Z) c :
  c ∈ C -> c ∉ all -> size (C ∖ all) = S (size (C ∖ ({[c]} ∪ all))).
Proof.
  intros Hc Hall.
  assert (Heq : C ∖ all = {[c]} ∪ C ∖ ({[c]} ∪ all)).
  { apply set_eq. intros x. destruct (decide (x = c)); set_solver. }
  rewrite Heq, size_union, size_singleton by set_solver. done.
Qed.

Lemma children_edges cm p c : c ∈ children cm p -> c ∈ edges cm.
Proof.
  unfold children, edges. destruct (cm !! p) as [l|] eqn:Hl; simpl; [|by intros ?%elem_of_nil].
  intros Hc. apply list_elem_of_bind. exists (p, l). split; [done|].
  by apply elem_of_map_to_list.
Qed.

Variable cm : gmap Z (list Z).
Variable C : gset Z.
Hypothesis children_C : forall p c, c ∈ children cm p -> c ∈ C.

(** The inner loop adds the children not seen before, each once, to the
    set and to the queue. *)
Lemma visit_spec cs all queue :
  (forall c, c ∈ cs -> c ∈ C) ->
  exists new,
    visit cs all queue = (all ∪ list_to_set new, queue ++ new) /\
    (forall c, c ∈ new -> c ∈ cs) /\
    (forall c, c ∈ cs -> c ∈ all ∪ list_to_set new) /\
    (length (queue ++ new) + size (C ∖ (all ∪ list_to_set new))
     <= length queue + size (C ∖ all))%nat.
Proof.
  revert all queue. induction cs as [|c cs IH]; intros all queue Hcs.
  - exists []. cbn [visit list_to_set]. rewrite app_nil_r.
    replace (all ∪ ∅) with all by set_solver. split; [done|]. split; [done|].
    split; [by intros c ?%elem_of_nil|done].
  - cbn [visit]. destruct (decide (c ∈ all)) as [Hin|Hnotin].
    + destruct (IH all queue) as (new & Hv & Hsub & Hall & Hm); [set_solver|].
      exists new. split; [done|]. split; [set_solver|]. split; [set_solver|done].
    + destruct (IH ({[c]} ∪ all) (queue ++ [c])) as (new & Hv & Hsub & Hall & Hm);
        [set_solver|].
      exists (c :: new). cbn [list_to_set].
      replace (all ∪ ({[c]} ∪ list_to_set new)) with ({[c]} ∪ all ∪ list_to_set new)
        by set_solver.
      rewrite <- (assoc_L (++)) in Hv, Hm. cbn [app] in Hv, Hm.
      split; [done|]. split; [set_solver|]. split; [set_solver|].
      rewrite (size_difference_step C all c) by (try done; apply Hcs; by left).
      rewrite (length_app queue [c]) in Hm. simpl in Hm. lia.
Qed.

(** The loop ends within its turns, with the set of the processes that
    can be reached. *)
Lemma bfs_spec fuel all queue :
  (length queue + size (C ∖ all) <= fuel)%nat ->
  (forall q, q ∈ queue -> q ∈ all) ->
  (forall p c, p ∈ all -> c ∈ children cm p -> c ∈ all \/ p ∈ queue) ->
  exists res,
    bfs fuel cm all queue = Ret res /\ all ⊆ res /\
    (forall p c, p ∈ res -> c ∈ children cm p -> c ∈ res) /\
    (forall p, p ∈ res -> exists a, a ∈ all /\ rtc (fun x y => y ∈ children cm x) a p).
Proof.
  revert all queue. induction fuel as [|fuel IH]; intros all queue Hfuel Hq Hclosed.
  - destruct queue as [|cur queue]; [|simpl in Hfuel; lia].
    exists all. split; [done|]. split; [done|]. split.
    + intros p c Hp Hc. destruct (Hclosed p c Hp Hc) as [?|?%elem_of_nil]; done.
    + intros p Hp. by exists p.
  - destruct queue as [|cur queue].
    { exists all. split; [done|]. split; [done|]. split.
      + intros p c Hp Hc. destruct (Hclosed p c Hp Hc) as [?|?%elem_of_nil]; done.
      + intros p Hp. by exists p. }
    cbn [bfs].
    destruct (visit_spec (children cm cur) all queue) as (new & -> & Hsub & Hall & Hm);
      [by apply children_C|].
    destruct (IH (all ∪ list_to_set new) (queue ++ new)) as (res & -> & Hres & Hcl & Hreach).
    + simpl in Hfuel. lia.
    + intros q [Hq'|Hq']%elem_of_app; [|set_solver].
      apply elem_of_union_l, Hq. by right.
    + intros p c [Hp|Hp]%elem_of_union Hc.
      * destruct (Hclosed p c Hp Hc) as [?|[->|?]%elem_of_cons].
        -- left. set_solver.
        -- left. by apply Hall.
        -- right. set_solver.
      * right. set_solver.
    + exists res. split; [done|]. split; [set_solver|]. split; [done|].
      intros p Hp. destruct (Hreach p Hp) as (a & [Ha|Ha]%elem_of_union & Hrtc); [by exists a|].
      exists cur. split; [apply Hq; by left|].
      eapply rtc_l; [|exact Hrtc]. apply Hsub. set_solver.
Qed.

End Descendants.

Lemma children_insert cm ppid pid p :
  children (<[ppid := default [] (cm !! ppid) ++ [pid]]> cm) p =
    if decide (p = ppid) then children cm ppid ++ [pid] else children cm p.
Proof.
  unfold children. destruct (decide (p = ppid)) as [->|Hne].
  - by rewrite lookup_insert_eq.
  - by rewrite lookup_insert_ne.
Qed.

(** The table of children holds what the lines say. *)
Lemma child_map_loop_children lines cm0 cm :
  child_map_loop lines cm0 = Ret cm ->
  forall p c,
    c ∈ children cm p <->
    c ∈ children cm0 p \/ exists line, line ∈ lines /\ parse_row line = Ret (Some (c, p)).
Proof.
  revert cm0. induction lines as [|line lines IH]; intros cm0; cbn [child_map_loop].
  - intros [= <-] p c. split; [by left|]. intros [?|(l & ?%elem_of_nil & _)]; done.
  - destruct (parse_row line) as [[[pid ppid]|]|e] eqn:Hrow; cbn [mbind outcome_bind]; [| |done].
    + intros H p c. rewrite (IH _ H), children_insert. split.
      * intros [Hc|(l & Hl & Hp)].
        -- destruct (decide (p = ppid)) as [->|Hne]; [|by left].
           apply elem_of_app in Hc as [Hc|Hc]; [by left|].
           apply list_elem_of_singleton in Hc as ->.
           right. exists line. split; [by left|done].
        -- right. exists l. split; [by right|done].
      * intros [Hc|(l & [->|Hl]%elem_of_cons & Hp)].
        -- left. destruct (decide (p = ppid)) as [->|Hne]; [|done].
           apply elem_of_app. by left.
        -- left. rewrite Hrow in Hp. injection Hp as -> ->.
           rewrite decide_True by done. apply elem_of_app. right. by left.
        -- right. by exists l.
    + intros H p c. rewrite (IH _ H). split.
      * intros [Hc|(l & Hl & Hp)]; [by left|]. right. exists l. split; [by right|done].
      * intros [Hc|(l & [->|Hl]%elem_of_cons & Hp)]; [by left|congruence|].
        right. by exists l.
Qed.

Lemma child_map_loop_total lines cm0 :
  Forall (fun line => exists r, parse_row line = Ret r) lines ->
  exists cm, child_map_loop lines cm0 = Ret cm.
Proof.
  intros H. revert cm0. induction H as [|line lines [r Hr] _ IH]; intros cm0;
    cbn [child_map_loop]; [by eexists|].
  rewrite Hr. cbn [mbind outcome_bind]. destruct r as [[pid ppid]|]; apply IH.
Qed.

(** X20: [find_all_descendants] ends, with exactly the processes of the
    tree. When every line of the process table after its header has other
    than two fields or two numbers, the function returns; the list it
    returns is in ascending order without repetition, and a process is in
    it exactly when it is one of the given processes or can be reached
    from one of them by going from a parent to a child of the table. *)
Theorem find_all_descendants_reachable (lines : list string) (pids : list Z) :
  Forall (fun line => exists r, parse_row line = Ret r) (tail lines) ->
  exists l,
    find_all_descendants lines pids = Ret l /\
    StronglySorted Z.le l /\ NoDup l /\
    forall p, p ∈ l <-> descendant lines pids p.
Proof.
  intros Hrows. unfold find_all_descendants.
  destruct (child_map_loop_total _ ∅ Hrows) as [cm Hcm]. rewrite Hcm.
  cbn [mbind outcome_bind].
  pose proof (child_map_loop_children _ _ _ Hcm) as Hchildren.
  assert (Hrow : forall p c, c ∈ children cm p <-> row lines p c).
  { intros p c. rewrite Hchildren. unfold row, children. rewrite lookup_empty. simpl.
    split; [intros [?%elem_of_nil|?]; done|by right]. }
  destruct (bfs_spec cm (list_to_set (edges cm)) ltac:(intros p c Hc; apply elem_of_list_to_set;
              by eapply children_edges)
              (length pids + length (edges cm)) (list_to_set pids) pids)
    as (res & -> & Hsub & Hclosed & Hreach).
  - pose proof (size_list_to_set_le (edges cm)).
    pose proof (subseteq_size (list_to_set (edges cm) ∖ list_to_set pids)
                  (list_to_set (edges cm) : gset Z) ltac:(set_solver)). lia.
  - intros q Hq. by apply elem_of_list_to_set.
  - intros p c Hp Hc. right. by apply elem_of_list_to_set in Hp.
  - cbn [mbind outcome_bind]. eexists. split; [done|].
    split; [apply StronglySorted_merge_sort; apply _|].
    split; [rewrite merge_sort_Permutation; apply NoDup_elements|].
    intros p. rewrite merge_sort_Permutation, elem_of_elements. unfold descendant. split.
    + intros Hp. destruct (Hreach p Hp) as (a & Ha%elem_of_list_to_set & Hrtc).
      exists a. split; [done|].
      eapply rtc_subrel; [|exact Hrtc]. intros x y Hxy. by apply Hrow.
    + intros (p0 & Hp0 & Hrtc).
      assert (Hin : p0 ∈ res) by (apply Hsub; by apply elem_of_list_to_set).
      clear Hp0. induction Hrtc as [|x y z Hxy _ IH]; [done|].
      apply IH. eapply Hclosed; [exact Hin|]. by apply Hrow.
Qed.

Lemma find_all_descendants_reachable_witness :
  exists l,
    find_all_descendants sample_ps [1] = Ret l /\
    StronglySorted Z.le l /\ NoDup l /\
    forall p, p ∈ l <-> descendant sample_ps [1] p.
Proof.
  apply (find_all_descendants_reachable sample_ps [1]).
  repeat (constructor; [eexists; vm_compute; reflexivity|]). constructor.
Defined.

Example find_all_descendants_sample :
  find_all_descendants sample_ps [1] = Ret [1; 100; 200; 300].
Proof. vm_compute. reflexivity. Qed.

(** ** Range files as a whole *)



(** Text mode ends a line at a lone carriage return too: two ranges
    written on either side of one are two lines. And a line that is still
    open when the bytes stop decoding is not looked at. *)
Example range_file_line_ends :
  text_lines (mkTextFile ("0x1-0x2" +:+ String "013" "0x3-0x4") false)
    ≫= line_addresses = [1; 3] /\
  text_lines (mkTextFile (unlines ["0x1-0x2"; "0x3-0x4"]) false) ≫= line_addresses = [1; 3] /\
  text_lines (mkTextFile ("0x1-0x2" +:+ String "010" "0x3-0x4") true)
    ≫= line_addresses = [1].
Proof. vm_compute. repeat split; reflexivity. Qed.

(** X22: a register that the frame does not have. When the name is none of
    the frame's registers, [inject_register_bitflip] prints the error of
    the read and then raises: the local [value] was never bound, and the
    [NameError] of its use is outside any [try] block, so it leaves the
    function, with no register changed and nothing logged. *)
Theorem inject_register_bitflip_unknown (name : string) (bit : option Z) (σ : World) :
  assoc name (registers σ) = None ->
  run (inject_register_bitflip (Some name) bit) σ =
    (Raise NameError,
     with_events [Printed "[inject_register_bitflip] get exception when reading register value: "] σ).
Proof.
  intros Hname. unfold inject_register_bitflip.
  rewrite run_bind, run_try_except, run_bind. unfold read_register at 1.
  rewrite run_bind. cbn [run get_world]. rewrite Hname. cbn [run raise is_Exception].
  rewrite run_bind, run_print. cbn [run mret M_ret]. rewrite run_bind. reflexivity.
Qed.

Lemma inject_register_bitflip_unknown_witness :
  run (inject_register_bitflip (Some "x99") (Some 0)) sample_world =
    (Raise NameError,
     with_events [Printed "[inject_register_bitflip] get exception when reading register value: "]
                 sample_world).
Proof. apply (inject_register_bitflip_unknown "x99" (Some 0) sample_world). reflexivity. Defined.

(** ** The registers that a register injection may reach *)

Section RegisterTargets.

Lemma swap_Permutation {A} (x : list A) i j : swap x i j ≡ₚ x.
Proof.
  unfold swap. destruct (x !! i) as [a|] eqn:Hi; [|done].
  destruct (x !! j) as [b|] eqn:Hj; [|done]. by apply Permutation_insert_swap.
Qed.

(** [random.shuffle] reorders and does nothing else. *)
Lemma shuffle_from_Permutation {A} i (x : list A) σ y :
  (run (shuffle_from i x) σ).1 = Ret y -> y ≡ₚ x.
Proof.
  revert x σ. induction i as [|i IH]; intros x σ; cbn [shuffle_from].
  - by intros [= <-].
  - rewrite run_bind. destruct (run (random_randint _ _) σ) as [[j|e] σ1]; [|done].
    intros H. rewrite (IH _ _ H). apply swap_Permutation.
Qed.

(** What is left of [inject_reg_internal] once the register list is in
    hand. *)
Lemma fp_inject_reg_internal_selected R `{!PreOrder R} (selected : string -> Prop)
    (names : list string) bit :
  (forall text, respects R (print text)) ->
  (forall a b, respects R (random_randint a b)) ->
  (forall reg index v, selected reg -> respects R (set_word reg index v)) ->
  (forall reg o n, selected reg -> respects R (log_single (RegisterName reg) o n)) ->
  (forall r, r ∈ names -> selected r) ->
  respects R (match names with
              | [] => print "No registers found!"
              | _ :: _ => names0 ← shuffle names; try_registers names0 bit
              end).
Proof.
  intros Hprint Hrand Hset Hlog Hnames. destruct names as [|n names']; [apply Hprint|].
  apply (respects_bind_ret R (fun y => y ≡ₚ n :: names')).
  - unfold shuffle. by apply fp_shuffle_from.
  - intros σ0 y. apply shuffle_from_Permutation.
  - intros y Hy. apply (fp_try_registers_selected R Hprint Hrand selected); try done.
    intros r Hr. apply Hnames. by rewrite <- Hy.
Qed.

Lemma run_list_registers σ :
  exists lr σ1,
    run list_registers σ = (Ret lr, σ1) /\ events σ1 = events σ /\
    registers σ1 = registers σ.
Proof.
  unfold list_registers. rewrite run_bind. cbn [run get_world].
  destruct (cached_reg_list σ); eexists _, _; repeat split; reflexivity.
Qed.

(** The names [inject_reg_internal] goes on with are names of the list
    that the pattern selects. *)
Lemma candidates_selected register_name (lr : list (string * Z)) r :
  r ∈ match register_name with
      | Some pat =>
          if bool_decide (pat = "") then fst <$> lr
          else filter (fun rname =>
                         wildcard_match (split_chars "*" (chars pat)) (chars rname) = true)
                      (fst <$> lr)
      | None => fst <$> lr
      end ->
  r ∈ fst <$> lr /\ selects register_name r.
Proof.
  unfold selects. destruct register_name as [pat|]; [|done].
  destruct (bool_decide_reflect (pat = "")) as [->|Hne]; [by intros; split; [|left]|].
  intros [Hm Hin]%list_elem_of_filter. split; [done|by right].
Qed.

End RegisterTargets.

(** X23: a register injection reaches only registers that were asked for.
    Whatever [inject_reg_internal] does, and whether it returns or raises,
    it sends nothing to the monitor, and every record it logs names a
    register of the register list that the pattern selects: any register
    for no pattern or an empty one, and otherwise a register whose name the
    wildcard pattern matches. *)
Theorem inject_reg_internal_targets (register_name : option string) (bit : option Z)
    (σ : World) :
  exists l,
    events (run (inject_reg_internal register_name bit) σ).2 = events σ ++ l /\
    Forall (register_target (listed σ) register_name) l.
Proof.
  unfold inject_reg_internal, listed. rewrite run_bind.
  destruct (run_list_registers σ) as (lr & σ1 & -> & Hev & _). cbn [fst]. rewrite <- Hev.
  apply (fp_inject_reg_internal_selected
           (only_emits (register_target (fst <$> lr) register_name))
           (fun r => r ∈ fst <$> lr /\ selects register_name r)).
  - intros. by apply respects_emit.
  - intros. by apply respects_silent.
  - intros. by apply respects_silent.
  - intros reg o n [Hin Hsel]. apply respects_emit. simpl. by eauto.
  - apply candidates_selected.
Qed.

#[global] Instance spares_preorder selected r : PreOrder (spares selected r).
Proof.
  split; [by intros w Hw|].
  intros w1 w2 w3 H12 H23 Hw. destruct (H12 Hw) as (Hw2 & Hr2 & Hm2).
  destruct (H23 Hw2) as (Hw3 & Hr3 & Hm3). split; [done|]. split; congruence.
Qed.

Lemma assoc_update_other {V} name (f : V -> V) l r :
  name <> r -> assoc r (assoc_update name f l) = assoc r l.
Proof.
  intros Hne. induction l as [|[k x] l IH]; [done|]. simpl.
  destruct (String.eqb_spec k name) as [->|Hk]; simpl.
  - by destruct (String.eqb_spec name r).
  - by rewrite IH.
Qed.

(** A register that is no alias of the register written is not touched by
    the update of the aliases. *)
Lemma update_aliases_other r written views regs :
  r ∉ (fst <$> views) -> assoc r (update_aliases written views regs) = assoc r regs.
Proof.
  revert regs. induction views as [|[a view] views IH]; intros regs Hr; [done|].
  cbn [update_aliases]. rewrite fmap_cons in Hr. apply not_elem_of_cons in Hr as [Hne Hr].
  rewrite IH by done. by apply assoc_update_other.
Qed.

(** A [set] changes words, and nothing else of any register. *)
Lemma set_registers_assoc s name index v regs :
  exists f : list Z -> list Z,
    assoc s (set_registers name index v regs)
      = (fun x => with_words (f (words x)) x) <$> assoc s regs.
Proof.
  unfold set_registers. destruct (assoc name regs) as [r|] eqn:Hname.
  - cbv zeta.
    destruct (update_aliases_assoc s
                (alter (fun old => on_set r old v) (Z.to_nat index) (words r))
                (aliases r) regs) as [f Hf].
    destruct (String.eqb_spec name s) as [->|Hne].
    + exists (fun _ => alter (fun old => on_set r old v) (Z.to_nat index) (words r)).
      rewrite assoc_update_same, Hf. by destruct (assoc s regs).
    + exists f. by rewrite assoc_update_other.
  - exists id. destruct (assoc s regs) as [[]|]; reflexivity.
Qed.

Lemma set_registers_aliases s name index v regs :
  aliases <$> assoc s (set_registers name index v regs) = aliases <$> assoc s regs.
Proof.
  destruct (set_registers_assoc s name index v regs) as [f ->].
  by destruct (assoc s regs).
Qed.

(** A [set] of a register leaves alone every other register that is none
    of its aliases. *)
Lemma set_registers_other r name index v regs :
  name <> r ->
  (forall reg, assoc name regs = Some reg -> r ∉ (fst <$> aliases reg)) ->
  assoc r (set_registers name index v regs) = assoc r regs.
Proof.
  intros Hne Hal. unfold set_registers. destruct (assoc name regs) as [reg|]; [|done].
  cbv zeta. rewrite assoc_update_other by done. apply update_aliases_other. by apply Hal.
Qed.

Lemma spares_set_word (selected : string -> Prop) r reg index v :
  selected reg -> reg <> r -> respects (spares selected r) (set_word reg index v).
Proof.
  intros Hsel Hne w Hw. cbn. split; [|split; [|done]].
  - intros s x Hs Hx. cbn in Hx.
    pose proof (set_registers_aliases s reg index v (registers w)) as Hal.
    rewrite Hx in Hal. destruct (assoc s (registers w)) as [y|] eqn:Hy; [|done].
    injection Hal as Hal. rewrite Hal. by eapply Hw.
  - apply set_registers_other; [done|]. intros x Hx. by eapply Hw.
Qed.

Lemma spares_kept {A} (selected : string -> Prop) r (m : M A) :
  (forall σ, registers (run m σ).2 = registers σ /\ memory (run m σ).2 = memory σ) ->
  respects (spares selected r) m.
Proof.
  intros H σ Hσ. destruct (H σ) as [Hr Hm]. unfold unaliased. rewrite Hr, Hm. done.
Qed.

(** X25: a register injection writes only registers that were asked for,
    and what shares their storage. Whatever [inject_reg_internal] does, and
    whether it returns or raises, a register that is not in the register
    list, or that the pattern does not select, and that is no alias of a
    register of the list that the pattern selects, holds after the call
    what it held before; and guest memory is as it was. *)
Theorem inject_reg_internal_spares_unselected (register_name : option string)
    (bit : option Z) (σ : World) (r : string) :
  ~ (r ∈ listed σ /\ selects register_name r) ->
  (forall s reg,
     s ∈ listed σ -> selects register_name s ->
     assoc s (registers σ) = Some reg -> r ∉ (fst <$> aliases reg)) ->
  assoc r (registers (run (inject_reg_internal register_name bit) σ).2)
    = assoc r (registers σ) /\
  memory (run (inject_reg_internal register_name bit) σ).2 = memory σ.
Proof.
  intros Hr Hal. unfold inject_reg_internal, listed in *. rewrite run_bind.
  destruct (run_list_registers σ) as (lr & σ1 & Hrun & _ & Hregs).
  assert (Hmem : memory σ1 = memory σ).
  { revert Hrun. unfold list_registers. rewrite run_bind. cbn [run get_world].
    destruct (cached_reg_list σ); by intros [= _ <-]. }
  rewrite Hrun in *. cbn [fst] in Hr, Hal. rewrite <- Hregs, <- Hmem.
  set (selected := fun reg => reg ∈ fst <$> lr /\ selects register_name reg).
  assert (Hσ1 : unaliased selected r σ1).
  { intros s reg [Hs Hsel] Hreg. rewrite Hregs in Hreg. by eapply Hal. }
  enough (H : spares selected r σ1
            (run (match (if register_name is Some pat
                         then if bool_decide (pat = "") then fst <$> lr
                              else filter (fun rname =>
                                     wildcard_match (split_chars "*" (chars pat))
                                                    (chars rname) = true) (fst <$> lr)
                         else fst <$> lr) with
                  | [] => print "No registers found!"
                  | _ :: _ =>
                      names0 ← shuffle
                        (if register_name is Some pat
                         then if bool_decide (pat = "") then fst <$> lr
                              else filter (fun rname =>
                                     wildcard_match (split_chars "*" (chars pat))
                                                    (chars rname) = true) (fst <$> lr)
                         else fst <$> lr);
                      try_registers names0 bit
                  end) σ1).2)
    by (by destruct (H Hσ1) as (_ & ? & ?)).
  apply (fp_inject_reg_internal_selected (spares selected r) selected).
  - intros. by apply spares_kept.
  - intros. by apply spares_kept.
  - intros reg index v Hsel. apply spares_set_word; [done|].
    intros ->. by apply Hr.
  - intros. by apply spares_kept.
  - apply candidates_selected.
Qed.

Lemma inject_reg_internal_spares_unselected_witness :
  assoc "x0" (registers (run (inject_reg_internal (Some "v*") (Some 0)) aliased_world).2)
    = assoc "x0" (registers aliased_world) /\
  memory (run (inject_reg_internal (Some "v*") (Some 0)) aliased_world).2
    = memory aliased_world.
Proof.
  apply (inject_reg_internal_spares_unselected (Some "v*") (Some 0) aliased_world "x0").
  - intros [_ [H|H]]; [discriminate H|]. vm_compute in H. discriminate H.
  - intros s reg Hs _ Hreg.
    assert (Hl : listed aliased_world = ["x0"; "v0"]) by reflexivity.
    rewrite Hl in Hs.
    apply elem_of_cons in Hs as [->|Hs]; [injection Hreg as <-; cbn; set_solver|].
    apply list_elem_of_singleton in Hs as ->. injection Hreg as <-. cbn.
    intros H%list_elem_of_singleton. discriminate H.
Defined.

(** In that session a flip of [v0] changes its alias [d0], which no pattern
    selected, and leaves [x0] alone. *)
Example flip_changes_alias :
  words <$> assoc "d0" (registers aliased_world) = Some [7] /\
  (run (inject_reg_internal (Some "v*") (Some 0)) aliased_world).1 = Ret tt /\
  events (run (inject_reg_internal (Some "v*") (Some 0)) aliased_world).2
    = [Logged (RegisterName "v0") 7 6] /\
  words <$> assoc "v0" (registers
      (run (inject_reg_internal (Some "v*") (Some 0)) aliased_world).2) = Some [6; 9] /\
  words <$> assoc "d0" (registers
      (run (inject_reg_internal (Some "v*") (Some 0)) aliased_world).2) = Some [6] /\
  words <$> assoc "x0" (registers
      (run (inject_reg_internal (Some "v*") (Some 0)) aliased_world).2) = Some [5].
Proof. vm_compute. repeat split; reflexivity. Qed.

(** ** The injection log *)

Section CsvLogFacts.
Import CsvLog.

Lemma log_all_logged f records s rows :
  logger s = Some f -> csv s !! f = Some rows ->
  logger (log_all records s) = Some f /\
  csv (log_all records s) = <[f := rows ++ (row_of <$> records)]> (csv s) /\
  printed (log_all records s) = printed s.
Proof.
  revert s rows. induction records as [|[[a o] n] records IH]; intros s rows Hl Hf.
  - cbn. rewrite app_nil_r, insert_id by done. done.
  - cbn [log_all foldl]. fold (log_all records (log_single a o n s)).
    destruct (IH (log_single a o n s) (rows ++ [[a; o; n]])) as (H1 & H2 & H3).
    + unfold log_single. by rewrite Hl.
    + unfold log_single, log. rewrite Hl. cbn [csv]. by rewrite lookup_insert_eq, Hf.
    + split; [done|]. split.
      * rewrite H2. unfold log_single, log. rewrite Hl. cbn [csv].
        rewrite insert_insert_eq, fmap_cons, <- app_assoc. done.
      * rewrite H3. unfold log_single. by rewrite Hl.
Qed.

Lemma log_all_unset records c p :
  csv (log_all records (mk None c p)) = c /\
  length (printed (log_all records (mk None c p))) = (length p + length records)%nat.
Proof.
  revert p. induction records as [|[[a o] n] records IH]; intros p.
  - cbn. split; [done|lia].
  - change (log_all (((a, o), n) :: records) (mk None c p))
      with (log_all records
              (mk None c (p ++ ["Injected bitflip into address/register %s: old value %s -> new value %s"]))).
    destruct (IH (p ++ ["Injected bitflip into address/register %s: old value %s -> new value %s"]))
      as [H1 H2].
    rewrite H1, H2, length_app. simpl. split; [done|lia].
Qed.

End CsvLogFacts.

(** X24: the log file holds the header and then the injections since the
    logger was set up, in their order. After [init_logger(f)] and any run
    of [log_single] calls, the file [f] is the header row followed by one
    row for each call, whatever the file held before, so that setting the
    logger up again on the same file drops the earlier records; the other
    files are as they were and nothing is printed. Before any
    [init_logger], a call writes no file and prints its record. *)
Theorem log_file_holds_the_records (f : string)
    (records : list (string * string * string)) (s : CsvLog.state) :
  let s' := CsvLog.log_all records (CsvLog.init_logger f s) in
  let s0 := CsvLog.log_all records (CsvLog.mk None (CsvLog.csv s) (CsvLog.printed s)) in
  (CsvLog.csv s' = <[f := CsvLog.header :: (CsvLog.row_of <$> records)]> (CsvLog.csv s) /\
   CsvLog.printed s' = CsvLog.printed s) /\
  (CsvLog.csv s0 = CsvLog.csv s /\
   length (CsvLog.printed s0) = (length (CsvLog.printed s) + length records)%nat).
Proof.
  intros s' s0. subst s' s0.
  destruct (log_all_logged f records (CsvLog.init_logger f s) [CsvLog.header])
    as (_ & H2 & H3); [done|apply lookup_insert_eq|].
  split; [split; [|done]|].
  - rewrite H2. cbn. by rewrite insert_insert_eq.
  - apply log_all_unset.
Qed.

(** ** The number of injections of a command *)

Section CountingCommands.
Variable shlex_split : string -> outcome (list string).

Lemma quiet_parse_args_safely {N} (parse_args : list string -> parse_run N) args :
  respects (only_emits unlogged) (parse_args_safely shlex_split parse_args args).
Proof. unfold parse_args_safely. quiet. Qed.

Lemma logs_at_most_one_of_flip a w b :
  logs (inject_bitflip a w b) (fun _ n => (n <= 1)%nat).
Proof.
  eapply logs_weaken; [apply logs_inject_bitflip|]. intros [x|e] n H; simpl in H; lia.
Qed.

Lemma logs_at_most_one_of_register name b :
  logs (inject_register_bitflip name b) (fun _ n => (n <= 1)%nat).
Proof.
  eapply logs_weaken; [apply logs_inject_register_bitflip|].
  intros [[[|]|]|e] n H; simpl in H; lia.
Qed.

Lemma logs_then_quiet {A B} (m : M A) (k : M B) c :
  logs m (fun _ n => (n <= c)%nat) -> respects (only_emits unlogged) k ->
  logs (m;; k) (fun _ n => (n <= c)%nat).
Proof.
  intros Hm Hk.
  apply (logs_bind _ _ (fun _ n => (n <= c)%nat) (fun _ _ n => n = 0%nat)); [done| |done|].
  - intros _. by apply logs_quiet.
  - intros a n1 o n2 H ->. lia.
Qed.

Lemma logs_targeted_loop n mint maxt ftype location bit_index :
  logs (targeted_loop n mint maxt ftype location bit_index) (fun _ k => (k <= n)%nat).
Proof.
  induction n as [|n IH]; cbn [targeted_loop].
  - apply logs_quiet; [quiet|]. intros. lia.
  - do 2 (apply logs_quiet_bind; [quiet|intros ?|lia]).
    apply (logs_bind _ _ (fun _ k => (k <= 1)%nat)
             (fun go_on _ k => (k <= n)%nat)).
    + destruct ftype.
      * apply (logs_try_except _ _ _ (fun _ k => (k <= 1)%nat) (fun _ _ k => k = 0%nat));
          [|intros; apply logs_quiet; [quiet|done]|done|done|intros; lia].
        apply logs_quiet_bind; [quiet| |lia]. intros address.
        apply logs_then_quiet; [apply logs_at_most_one_of_flip|quiet].
      * apply logs_then_quiet; [apply logs_at_most_one_of_register|quiet].
    + intros [|]; [exact IH|]. apply logs_quiet; [quiet|]. intros. lia.
    + intros. lia.
    + intros. lia.
Qed.

(** The [try] block of the campaign commands hands on the count that was
    parsed, and logs nothing. *)
Lemma logs_campaign_params times min_interval max_interval :
  logs (campaign_params times min_interval max_interval)
       (fun o n => n = 0%nat /\ forall t mi ma, o = Ret (t, mi, ma) -> t = times).
Proof.
  intros σ. exists [].
  destruct (campaign_params_pure times min_interval max_interval σ) as (o & Hrun & _).
  rewrite Hrun. cbn [fst snd]. split; [by rewrite app_nil_r|]. split; [done|].
  intros t mi ma ->. by apply campaign_params_ret in Hrun as [-> _].
Qed.

Lemma logs_autoinject_inner times mint maxt ftype :
  logs (autoinject_inner times mint maxt ftype) (fun _ n => (n <= Z.to_nat times)%nat).
Proof.
  unfold autoinject_inner. apply logs_repeat_at_most. destruct ftype.
  - do 3 (apply logs_quiet_bind; [quiet|intros ?|lia]). apply logs_at_most_one_of_flip.
  - do 2 (apply logs_quiet_bind; [quiet|intros ?|lia]). apply logs_inject_reg_internal.
Qed.

Lemma logs_at {A} (Ψ : outcome A -> nat -> Prop) (m : M A) σ :
  logs m Ψ ->
  exists l, events (run m σ).2 = events σ ++ l /\ Ψ (run m σ).1 (logged l).
Proof. intros H. apply H. Qed.

(** What is left of [autoinject] once its arguments are parsed. *)
Lemma logs_autoinject_parsed (parsed : autoinject_args) :
  logs (params ← try_except
                    (p ← campaign_params (total_fault_number parsed)
                           (min_interval parsed) (max_interval parsed);
                     mret (Some p))
                    is_ValueError_or_AssertionError
                    (fun _ => print "Error: %s";; mret None);
        match params with
        | None => mret tt
        | Some (times, mint, maxt) =>
            autoinject_inner times mint maxt (fault_type_ parsed);;
            print "Total injection duration: %.3f s"
        end)
       (fun _ n => (n <= Z.to_nat (total_fault_number parsed))%nat).
Proof.
  apply (logs_bind _ _
           (fun o n => n = 0%nat /\
                       forall t mi ma, o = Ret (Some (t, mi, ma)) -> t = total_fault_number parsed)
           (fun params _ n => match params with
                              | Some (t, _, _) => (n <= Z.to_nat t)%nat
                              | None => n = 0%nat
                              end)).
  - apply (logs_try_except _ _ _
             (fun o n => n = 0%nat /\
                         forall t mi ma, o = Ret (Some (t, mi, ma)) -> t = total_fault_number parsed)
             (fun _ o n => n = 0%nat /\ o = Ret None)).
    + apply (logs_bind _ _ _ (fun p o n => n = 0%nat /\ o = Ret (Some p))
               _ (logs_campaign_params _ _ _)).
      * intros p σ. exists []. by rewrite app_nil_r.
      * intros e n [-> _]. done.
      * intros [[t mi] ma] n1 o n2 [-> H] [-> ->]. split; [done|].
        intros t' mi' ma' [= -> -> ->]. by eapply H.
    + intros e σ. by eexists [Printed _].
    + done.
    + intros e n _ [-> _]. done.
    + intros e n1 o n2 _ [-> _] [-> ->]. done.
  - intros [[[t mi] ma]|].
    + apply logs_then_quiet; [apply logs_autoinject_inner|quiet].
    + apply logs_quiet; [quiet|done].
  - intros e n [-> _]. lia.
  - intros [[[t mi] ma]|] n1 o n2 [-> H] H2; [|lia].
    rewrite <- (H t mi ma) by done. lia.
Qed.

(** What is left of [snapinject] once its arguments are parsed. *)
Lemma logs_snapinject_parsed (parse_args : list string -> parse_run snapinject_args) args
    (parsed : snapinject_args) (σ σ1 : World) :
  run (parse_args_safely shlex_split parse_args args) σ = (Ret (Some parsed), σ1) ->
  exists l,
    events (run (snapinject shlex_split parse_args args) σ).2 = events σ1 ++ l /\
    (logged l <= Z.to_nat (snap_total_fault_number parsed))%nat.
Proof.
  intros Hparse. unfold snapinject. rewrite run_bind, Hparse. cbv beta iota.
  apply (logs_at (fun _ n => (n <= Z.to_nat (snap_total_fault_number parsed))%nat)).
  apply (logs_bind _ _
           (fun o n => n = 0%nat /\
                       forall t mi ma ob, o = Ret (Some (t, mi, ma, ob)) ->
                                          t = snap_total_fault_number parsed)
           (fun params _ n => match params with
                              | Some (t, _, _, _) => (n <= Z.to_nat t)%nat
                              | None => n = 0%nat
                              end)).
  - apply (logs_try_except _ _ _
             (fun o n => n = 0%nat /\
                         forall t mi ma ob, o = Ret (Some (t, mi, ma, ob)) ->
                                            t = snap_total_fault_number parsed)
             (fun _ o n => n = 0%nat /\ o = Ret None)).
    + apply (logs_bind _ _ _
               (fun p o n => n = 0%nat /\ forall q, o = Ret (Some q) -> q.1.1.1 = p.1.1)
               _ (logs_campaign_params _ _ _)).
      * intros [[t mi] ma] σ0. exists []. rewrite app_nil_r. rewrite run_bind. cbn [run lift].
        destruct (parse_time (observe_time parsed)); cbn; (split; [done|]); split; try done.
        by intros q [= <-].
      * intros e n [-> _]. done.
      * intros [[t mi] ma] n1 o n2 [-> H] [-> H2]. split; [done|].
        intros t' mi' ma' ob' ->. specialize (H2 _ eq_refl). simpl in H2. subst t'.
        by eapply H.
    + intros e σ0. by eexists [Printed _].
    + done.
    + intros e n _ [-> _]. done.
    + intros e n1 o n2 _ [-> _] [-> ->]. done.
  - intros [[[[t mi] ma] ob]|]; [|apply logs_quiet; [quiet|done]].
    apply logs_quiet_bind; [quiet|intros uuid|lia]. cbv zeta.
    match goal with |- logs (if ?c then _ else _) _ => destruct c end;
      [apply logs_quiet; [quiet|intros; lia]|].
    apply logs_quiet_bind; [quiet|intros ?|lia].
    apply (logs_bind _ _ (fun _ n => (n <= Z.to_nat t)%nat) (fun _ _ n => n = 0%nat)).
    + match goal with |- logs (if ?c then _ else _) _ => destruct c end.
      * apply logs_then_quiet; [apply logs_autoinject_inner|quiet].
      * apply logs_targeted_loop.
    + intros finished. apply logs_quiet; [quiet|done].
    + done.
    + intros fin n1 o n2 H ->. lia.
  - intros e n [-> _]. lia.
  - intros [[[[t mi] ma] ob]|] n1 o n2 [-> H] H2; [|lia].
    rewrite <- (H t mi ma ob) by done. lia.
Qed.

End CountingCommands.

(** X26: a campaign command injects no more faults than
    [--total-fault-number]. Whatever the arguments of [autoinject] and
    [snapinject], and whether they return or raise, the records they add to
    the log are at most as many as the count that was parsed; when the
    arguments do not parse, nothing is injected at all. *)
Theorem campaign_commands_respect_count
    (shlex_split : string -> outcome (list string))
    (parse_auto : list string -> parse_run autoinject_args)
    (parse_snap : list string -> parse_run snapinject_args) (args : string) (σ : World) :
  (exists l,
     events (run (autoinject shlex_split parse_auto args) σ).2 = events σ ++ l /\
     match (run (parse_args_safely shlex_split parse_auto args) σ).1 with
     | Ret (Some parsed) => (logged l <= Z.to_nat (total_fault_number parsed))%nat
     | _ => logged l = 0%nat
     end) /\
  (exists l,
     events (run (snapinject shlex_split parse_snap args) σ).2 = events σ ++ l /\
     match (run (parse_args_safely shlex_split parse_snap args) σ).1 with
     | Ret (Some parsed) => (logged l <= Z.to_nat (snap_total_fault_number parsed))%nat
     | _ => logged l = 0%nat
     end).
Proof.
  split.
  - destruct (quiet_parse_args_safely shlex_split parse_auto args σ) as (l0 & Hl0 & Hun).
    unfold autoinject. rewrite run_bind.
    destruct (run (parse_args_safely shlex_split parse_auto args) σ) as [[[parsed|]|e] σ1];
      cbn [fst snd] in *.
    + destruct (logs_autoinject_parsed parsed σ1) as (l1 & Hl1 & Hle).
      exists (l0 ++ l1). split; [by rewrite Hl1, Hl0, app_assoc|].
      rewrite logged_app, logged_unlogged by done. exact Hle.
    + exists l0. split; [done|]. by apply logged_unlogged.
    + exists l0. split; [done|]. by apply logged_unlogged.
  - destruct (quiet_parse_args_safely shlex_split parse_snap args σ) as (l0 & Hl0 & Hun).
    destruct (run (parse_args_safely shlex_split parse_snap args) σ)
      as [[[parsed|]|e] σ1] eqn:Hparse; cbn [fst snd] in *.
    + destruct (logs_snapinject_parsed shlex_split parse_snap args parsed σ σ1 Hparse)
        as (l1 & Hl1 & Hle).
      exists (l0 ++ l1). split; [by rewrite Hl1, Hl0, app_assoc|].
      rewrite logged_app, logged_unlogged by done. exact Hle.
    + unfold snapinject. rewrite run_bind, Hparse.
      exists l0. split; [done|]. by apply logged_unlogged.
    + unfold snapinject. rewrite run_bind, Hparse.
      exists l0. split; [done|]. by apply logged_unlogged.
Qed.

(** ** Reading a whole pagemap *)

Lemma pagemap_loop_resident f vaddrs results :
  Forall (fun v => 0 <= v < 2 ^ 64) vaddrs ->
  pagemap_loop f vaddrs results = (results ++ omap (resident f) vaddrs, false).
Proof.
  intros H. revert results. induction H as [|v vaddrs Hv _ IH]; intros results.
  - cbn. by rewrite app_nil_r.
  - cbn [pagemap_loop omap list_omap]. fold (omap (resident f) vaddrs).
    unfold seek_read, PAGEMAP_ENTRY_BYTES, resident, pagemap_entry.
    assert (Hidx : 0 <= v / PAGE_SIZE * 8 < 2 ^ 63).
    { unfold PAGE_SIZE. pose proof (Z.div_pos v 4096 ltac:(lia) ltac:(lia)).
      pose proof (Z.div_lt_upper_bound v 4096 (2 ^ 52) ltac:(lia) ltac:(lia)). lia. }
    destruct (Z.ltb_spec (v / PAGE_SIZE * 8) 0); [lia|].
    destruct (Z.leb_spec (2 ^ 63) (v / PAGE_SIZE * 8)); [lia|]. cbn [orb].
    set (data := take 8 (drop (Z.to_nat (v / PAGE_SIZE * 8)) f)).
    cbv zeta. rewrite pfn_mask, present_bit by apply from_bytes_little_range.
    destruct (Nat.eqb_spec (length data) 8) as [Hlen|Hlen]; cbn [negb].
    + rewrite bool_decide_eq_true_2 by done. cbn [andb].
      destruct (Z.testbit (from_bytes_little data) 63); cbn [andb]; [|apply IH].
      destruct (negb (from_bytes_little data mod 2 ^ 55 =? 0)); [|apply IH].
      rewrite IH, <- app_assoc. done.
    + rewrite bool_decide_eq_false_2 by done. cbn [andb]. apply IH.
Qed.

(** X27: on addresses of 64 bits, [read_pagemap_entries] reads the whole
    list. When the process has a pagemap and every address is between 0 and
    [2 ^ 64], no [seek] fails and no failure is reported, and the result is
    the list, in the order of the addresses, of the addresses whose page is
    present with a frame number other than zero, each with the physical
    address of its frame; an address whose entry lies beyond the end of the
    file is passed over. *)
Theorem read_pagemap_entries_complete (pagemaps : gmap Z (list Byte.byte)) (pid : Z)
    (f : list Byte.byte) (vaddrs : list Z) :
  pagemaps !! pid = Some f ->
  Forall (fun v => 0 <= v < 2 ^ 64) vaddrs ->
  read_pagemap_entries pagemaps pid vaddrs = (omap (resident f) vaddrs, false).
Proof.
  intros Hf Hv. unfold read_pagemap_entries. rewrite Hf.
  by rewrite pagemap_loop_resident.
Qed.

Lemma read_pagemap_entries_complete_witness :
  read_pagemap_entries {[ 42 := sample_pagemap ]} 42 [0; 4096; 8192; 12288]
    = (omap (resident sample_pagemap) [0; 4096; 8192; 12288], false).
Proof.
  apply (read_pagemap_entries_complete {[ 42 := sample_pagemap ]} 42 sample_pagemap
           [0; 4096; 8192; 12288]).
  - reflexivity.
  - repeat constructor; lia.
Defined.
